(** * Image Pictionary: the round controller of [App.tsx]

    A shallow embedding of the React component [App] (round lifecycle,
    guess evaluation, prefetch coordination) together with the guess
    input handler of [ChatPanel.tsx]; further on, what the page shows
    ([GamePanel], the letter boxes and the clock of [ChatPanel.tsx]), the
    conversation of [ChatPanel], [getNewGameData] of [geminiService.ts]
    and [StyleSelector], each in a module of its own.

    Conventions of the embedding.
    - A JavaScript string is a [string]; every [ascii] stands for one
      UTF-16 code unit below 256 (the Latin-1 range), on which the three
      string primitives used by the code ([\s], [[^a-zA-Z0-9]],
      [toLowerCase]) are written out exactly.
    - A JavaScript number holding an integer is a [Z] (all counters of the
      component stay far below 2^53, where [+ 1] is exact).
    - React state variables live in [Vars], refs in [Refs].  A callback
      reads state variables from the render it was created in, so every
      handler takes the captured [Vars] as an argument [c]; refs are read
      from the live world; [setX] writes to the live world.
    - [await], [promise.then], [setTimeout] and [setInterval] are explicit:
      a suspended continuation is a [Task] in the world and is run by a
      later event.  An [await] on a notification that carries only
      [forUser] text resumes in the same task, before any other handler,
      and is not a suspension point of the model.
    - An event of the page finds the component rendered with the state the
      previous event left ([step]); the effects of the renders an event
      causes run after its handler, in the order of their declaration.
    - Audio ([soundService.ts]), console output, the resize listener and
      the effect that forwards score and level to the chat as an invisible
      context line touch no state of the controller and are left out. *)

From Stdlib Require Import ZArith List String Ascii Bool Lia Arith Permutation.
Import ListNotations.
Local Open Scope string_scope.
Local Open Scope Z_scope.

(** ** JavaScript string primitives *)

Module Js.

Definition code (ch : ascii) : nat := nat_of_ascii ch.

Definition between (lo hi n : nat) : bool := (lo <=? n)%nat && (n <=? hi)%nat.

(** [\s] restricted to code units below 256: TAB, LF, VT, FF, CR, SPACE
    and NO-BREAK SPACE. *)
Definition isWhitespace (ch : ascii) : bool :=
  between 9 13 (code ch) || (code ch =? 32)%nat || (code ch =? 160)%nat.

(** [[a-zA-Z0-9]] *)
Definition isAlnum (ch : ascii) : bool :=
  between 97 122 (code ch) || between 65 90 (code ch) || between 48 57 (code ch).

(** One code unit of [String.prototype.toLowerCase]: A-Z, and the
    Latin-1 capitals U+00C0..U+00DE except the multiplication sign. *)
Definition lowerChar (ch : ascii) : ascii :=
  let n := code ch in
  if between 65 90 n || between 192 214 n || between 216 222 n
  then ascii_of_nat (n + 32) else ch.

Fixpoint filter (keep : ascii -> bool) (s : string) : string :=
  match s with
  | EmptyString => EmptyString
  | String ch rest => if keep ch then String ch (filter keep rest) else filter keep rest
  end.

Fixpoint map (f : ascii -> ascii) (s : string) : string :=
  match s with
  | EmptyString => EmptyString
  | String ch rest => String (f ch) (map f rest)
  end.

(** [s.slice(0, n)] for [0 <= n]. *)
Fixpoint slice0 (n : nat) (s : string) : string :=
  match n, s with
  | O, _ => EmptyString
  | S _, EmptyString => EmptyString
  | S k, String ch rest => String ch (slice0 k rest)
  end.

(** [s.replace(/\s/g, '')] *)
Definition stripWhitespace (s : string) : string :=
  filter (fun ch => negb (isWhitespace ch)) s.

(** [s.replace(/[^a-zA-Z0-9]/g, '')] *)
Definition stripNonAlnum (s : string) : string := filter isAlnum s.

Definition toLowerCase (s : string) : string := map lowerChar s.

(** [!s] on a string: only the empty string is falsy. *)
Definition falsy (s : string) : bool :=
  match s with EmptyString => true | String _ _ => false end.

End Js.

(** ** Data of the component *)

(** [types.ts]: [enum GameStatus]. *)
Inductive GameStatus := IDLE | LOADING | PLAYING | WON | LOST.

Definition GameStatus_eqb (a b : GameStatus) : bool :=
  match a, b with
  | IDLE, IDLE | LOADING, LOADING | PLAYING, PLAYING | WON, WON | LOST, LOST => true
  | _, _ => false
  end.

(** The record resolved by [getNewGameData]. *)
Module GameData.
Record t := mk { concept : string; explanation : string; imageUrl : string }.
End GameData.

Definition ROUND_TIME : Z := 30.

(** The [useState] variables of [App] ([isAboutModalOpen] only drives the
    About dialog and is not modelled). *)
Record Vars := mkVars {
  pastConcepts : list string;
  gameStatus : GameStatus;
  imageUrl : string;
  imageStyle : string;
  answer : string;
  explanation : string;
  guessValue : string;
  isWrongGuess : bool;
  timeLeft : Z;
  error : option string;
  loadingMessage : string;
  score : Z;
  level : Z;
  prefetchedGameData : option GameData.t
}.

(** The [useRef] cells of [App]: a promise and an interval are named by
    a number. *)
Record Refs := mkRefs {
  nextGamePromiseRef : option nat;
  roundIdRef : Z;
  timerRef : option nat;
  isMounted : bool
}.

(** *** Messages handed to the chat panel

    The template strings of [App.tsx], kept structured: a constructor per
    template, an argument per interpolated value. *)

Inductive UserText :=
| Correct                       (* '✅ Correct.' *)
| ReachedLevel (newLevel : Z)   (* `⭐️ You've reached Level ${newLevel}!` *)
| TimeRanOut                    (* `Time ran out.` *)
| NextRound                     (* 'Next round.' *)
| StartingOnLevel1.             (* 'Starting on Level 1.' *)

Inductive AIText :=
(* `Game Event: User guessed correctly. The answer was "${answer}". Here's
   the explanation for the image: ${explanation}.${aiCongratulation}`,
   where aiCongratulation is empty or names the level just reached *)
| GuessedCorrectly (answer explanation : string) (aiCongratulation : option Z)
(* `Game Event: Time ran out. The answer was "${answer}". Here's the
   explanation for the image: ${explanation}` *)
| TimeRanOutAI (answer explanation : string)
(* `Game Event: I have just created an image. The concept is
   "${gameData.concept}". My idea for creating it was:
   ${gameData.explanation}. Now, please provide ...` *)
| ImageCreated (concept explanation : string)
(* `Game Event: The user wants a new round. Please respond with a short
   message (3-6 words) saying you're thinking of a new movie ...` *)
| WantsNewRound.

Record GameEvent := mkEvent { forUser : option UserText; forAI : option AIText }.

(** What the component asks of the chat panel. *)
Inductive Output :=
| SendGameEvent (e : GameEvent)   (* chatPanelRef.current.sendGameEvent *)
| ChatReset.                      (* chatPanelRef.current.reset *)

(** A call [getNewGameData(conceptsToExclude, style)] and the promise it
    returned. *)
Record Request := mkRequest {
  promise : nat;
  conceptsToExclude : list string;
  style : string
}.

(** What a rejected promise carries: an [Error] with its message, or
    anything else. *)
Inductive Reason := ErrorObject (message : string) | NotAnError.

Inductive Settled := Fulfilled (data : GameData.t) | Rejected (e : Reason).

(** [promiseToAwait] of [startNewGame]: [Promise.resolve(data)] or a
    provider promise. *)
Inductive Awaited := Resolved (data : GameData.t) | Handle (promise : nat).

(** Suspended continuations. *)
Inductive Task :=
| AwaitGameData (roundId : Z) (promiseToAwait : Awaited)   (* startNewGame at [await promiseToAwait] *)
| PrefetchReaction (promise : nat)                         (* the then/catch pair of prefetchNextRound *)
| WrongGuessTimeout (delay : Z).                           (* setTimeout of handleIncorrectGuess *)

Record World := mkWorld {
  vars : Vars;
  refs : Refs;
  pending : list Task;             (* in registration order *)
  settled : list (nat * Settled);  (* provider promises that have settled *)
  intervals : list nat;            (* live setInterval handles *)
  trace : list Output;             (* calls on the chat panel, oldest first *)
  requests : list Request;         (* calls of the provider, oldest first *)
  nextId : nat                     (* next interval handle *)
}.

(** ** A state monad over the world *)

Definition M (A : Type) : Type := World -> A * World.

Definition ret {A} (a : A) : M A := fun w => (a, w).

Definition bind {A B} (m : M A) (k : A -> M B) : M B :=
  fun w => let (a, w') := m w in k a w'.

Declare Scope m_scope.
Delimit Scope m_scope with M.
Notation "x <- m ;; k" := (bind m (fun x => k))
  (at level 61, m at next level, right associativity) : m_scope.
Notation "m ;; k" := (bind m (fun _ => k))
  (at level 61, right associativity) : m_scope.
Local Open Scope m_scope.

Definition exec {A} (m : M A) (w : World) : World := snd (m w).

Definition skip : M unit := ret tt.

Definition when (b : bool) (m : M unit) : M unit := if b then m else skip.

(** Reading the live refs ([xRef.current]). *)
Definition current : M Refs := fun w => (refs w, w).

Definition onVars (f : Vars -> Vars) : M unit :=
  fun w => (tt, mkWorld (f (vars w)) (refs w) (pending w) (settled w) (intervals w) (trace w) (requests w) (nextId w)).

Definition onRefs (f : Refs -> Refs) : M unit :=
  fun w => (tt, mkWorld (vars w) (f (refs w)) (pending w) (settled w) (intervals w) (trace w) (requests w) (nextId w)).

(** Appending to the list of collaborator calls. *)
Definition emit (o : Output) : M unit :=
  fun w => (tt, mkWorld (vars w) (refs w) (pending w) (settled w) (intervals w) (trace w ++ [o]) (requests w) (nextId w)).

(** Registering a continuation. *)
Definition suspend (t : Task) : M unit :=
  fun w => (tt, mkWorld (vars w) (refs w) (pending w ++ [t]) (settled w) (intervals w) (trace w) (requests w) (nextId w)).

(** *** The setters returned by [useState] *)

Definition setPastConcepts (v : list string) : M unit :=
  onVars (fun s => mkVars v (gameStatus s) (imageUrl s) (imageStyle s) (answer s) (explanation s) (guessValue s) (isWrongGuess s) (timeLeft s) (error s) (loadingMessage s) (score s) (level s) (prefetchedGameData s)).

Definition setGameStatus (v : GameStatus) : M unit :=
  onVars (fun s => mkVars (pastConcepts s) v (imageUrl s) (imageStyle s) (answer s) (explanation s) (guessValue s) (isWrongGuess s) (timeLeft s) (error s) (loadingMessage s) (score s) (level s) (prefetchedGameData s)).

Definition setImageUrl (v : string) : M unit :=
  onVars (fun s => mkVars (pastConcepts s) (gameStatus s) v (imageStyle s) (answer s) (explanation s) (guessValue s) (isWrongGuess s) (timeLeft s) (error s) (loadingMessage s) (score s) (level s) (prefetchedGameData s)).

Definition setImageStyle (v : string) : M unit :=
  onVars (fun s => mkVars (pastConcepts s) (gameStatus s) (imageUrl s) v (answer s) (explanation s) (guessValue s) (isWrongGuess s) (timeLeft s) (error s) (loadingMessage s) (score s) (level s) (prefetchedGameData s)).

Definition setAnswer (v : string) : M unit :=
  onVars (fun s => mkVars (pastConcepts s) (gameStatus s) (imageUrl s) (imageStyle s) v (explanation s) (guessValue s) (isWrongGuess s) (timeLeft s) (error s) (loadingMessage s) (score s) (level s) (prefetchedGameData s)).

Definition setExplanation (v : string) : M unit :=
  onVars (fun s => mkVars (pastConcepts s) (gameStatus s) (imageUrl s) (imageStyle s) (answer s) v (guessValue s) (isWrongGuess s) (timeLeft s) (error s) (loadingMessage s) (score s) (level s) (prefetchedGameData s)).

Definition setGuessValue (v : string) : M unit :=
  onVars (fun s => mkVars (pastConcepts s) (gameStatus s) (imageUrl s) (imageStyle s) (answer s) (explanation s) v (isWrongGuess s) (timeLeft s) (error s) (loadingMessage s) (score s) (level s) (prefetchedGameData s)).

Definition setIsWrongGuess (v : bool) : M unit :=
  onVars (fun s => mkVars (pastConcepts s) (gameStatus s) (imageUrl s) (imageStyle s) (answer s) (explanation s) (guessValue s) v (timeLeft s) (error s) (loadingMessage s) (score s) (level s) (prefetchedGameData s)).

Definition setTimeLeft (v : Z) : M unit :=
  onVars (fun s => mkVars (pastConcepts s) (gameStatus s) (imageUrl s) (imageStyle s) (answer s) (explanation s) (guessValue s) (isWrongGuess s) v (error s) (loadingMessage s) (score s) (level s) (prefetchedGameData s)).

Definition setError (v : option string) : M unit :=
  onVars (fun s => mkVars (pastConcepts s) (gameStatus s) (imageUrl s) (imageStyle s) (answer s) (explanation s) (guessValue s) (isWrongGuess s) (timeLeft s) v (loadingMessage s) (score s) (level s) (prefetchedGameData s)).

Definition setLoadingMessage (v : string) : M unit :=
  onVars (fun s => mkVars (pastConcepts s) (gameStatus s) (imageUrl s) (imageStyle s) (answer s) (explanation s) (guessValue s) (isWrongGuess s) (timeLeft s) (error s) v (score s) (level s) (prefetchedGameData s)).

Definition setScore (v : Z) : M unit :=
  onVars (fun s => mkVars (pastConcepts s) (gameStatus s) (imageUrl s) (imageStyle s) (answer s) (explanation s) (guessValue s) (isWrongGuess s) (timeLeft s) (error s) (loadingMessage s) v (level s) (prefetchedGameData s)).

Definition setLevel (v : Z) : M unit :=
  onVars (fun s => mkVars (pastConcepts s) (gameStatus s) (imageUrl s) (imageStyle s) (answer s) (explanation s) (guessValue s) (isWrongGuess s) (timeLeft s) (error s) (loadingMessage s) (score s) v (prefetchedGameData s)).

Definition setPrefetchedGameData (v : option GameData.t) : M unit :=
  onVars (fun s => mkVars (pastConcepts s) (gameStatus s) (imageUrl s) (imageStyle s) (answer s) (explanation s) (guessValue s) (isWrongGuess s) (timeLeft s) (error s) (loadingMessage s) (score s) (level s) v).

(** [setPastConcepts(prev => [...prev, concept])] *)
Definition appendPastConcept (concept : string) : M unit :=
  onVars (fun s => mkVars (pastConcepts s ++ [concept]) (gameStatus s) (imageUrl s) (imageStyle s) (answer s) (explanation s) (guessValue s) (isWrongGuess s) (timeLeft s) (error s) (loadingMessage s) (score s) (level s) (prefetchedGameData s)).

(** [setTimeLeft(prev => prev - 1)] *)
Definition decrementTimeLeft : M unit :=
  onVars (fun s => mkVars (pastConcepts s) (gameStatus s) (imageUrl s) (imageStyle s) (answer s) (explanation s) (guessValue s) (isWrongGuess s) (timeLeft s - 1) (error s) (loadingMessage s) (score s) (level s) (prefetchedGameData s)).

(** *** Assignments to [xRef.current] *)

Definition assignNextGamePromiseRef (v : option nat) : M unit :=
  onRefs (fun r => mkRefs v (roundIdRef r) (timerRef r) (isMounted r)).

Definition assignRoundIdRef (v : Z) : M unit :=
  onRefs (fun r => mkRefs (nextGamePromiseRef r) v (timerRef r) (isMounted r)).

Definition assignTimerRef (v : option nat) : M unit :=
  onRefs (fun r => mkRefs (nextGamePromiseRef r) (roundIdRef r) v (isMounted r)).

Definition assignIsMounted (v : bool) : M unit :=
  onRefs (fun r => mkRefs (nextGamePromiseRef r) (roundIdRef r) (timerRef r) v).

(** ** Browser and provider primitives *)

Definition nat_eq_opt (a : option nat) (p : nat) : bool :=
  match a with Some q => Nat.eqb q p | None => false end.

Definition isSome {A} (o : option A) : bool :=
  match o with Some _ => true | None => false end.

(** [setInterval(cb, 1000)]: a new live handle. *)
Definition setInterval : M nat :=
  fun w =>
    (nextId w,
     mkWorld (vars w) (refs w) (pending w) (settled w)
             (intervals w ++ [nextId w]) (trace w) (requests w) (S (nextId w))).

(** [clearInterval(id)] *)
Definition clearInterval (id : nat) : M unit :=
  fun w =>
    (tt,
     mkWorld (vars w) (refs w) (pending w) (settled w)
             (List.filter (fun i => negb (Nat.eqb i id)) (intervals w))
             (trace w) (requests w) (nextId w)).

(** [getNewGameData(conceptsToExclude, imageStyle)] of [geminiService]:
    the call is recorded and returns a new pending promise, numbered by
    the calls made before it. *)
Definition getNewGameData (conceptsToExclude : list string) (style : string) : M nat :=
  fun w =>
    let p := List.length (requests w) in
    (p,
     mkWorld (vars w) (refs w) (pending w) (settled w) (intervals w) (trace w)
             (requests w ++ [mkRequest p conceptsToExclude style]) (nextId w)).

(** ** The callbacks of [App] *)

Definition cleanupTimer : M unit :=
  r <- current ;;
  match timerRef r with
  | Some id => clearInterval id ;; assignTimerRef None
  | None => skip
  end.

(** [handleGameEvent]: the chat panel is rendered by [App] itself, so
    [chatPanelRef.current] is set whenever a callback runs. *)
Definition handleGameEvent (e : GameEvent) : M unit := emit (SendGameEvent e).

Definition toUser (t : UserText) : GameEvent := mkEvent (Some t) None.
Definition toAI (t : AIText) : GameEvent := mkEvent None (Some t).

(** [handleCorrectGuess].  The two awaited events carry only [forUser]
    text, which [sendGameEvent] handles without suspending, so the body
    runs to its last statement within one task. *)
Definition handleCorrectGuess (c : Vars) : M unit :=
  if negb (GameStatus_eqb (gameStatus c) PLAYING) then skip else
  setGameStatus WON ;;
  cleanupTimer ;;
  let newScore := score c + 1 in
  setScore newScore ;;
  let oldLevel := level c in
  let newLevel := newScore / 5 + 1 in
  handleGameEvent (toUser Correct) ;;
  aiCongratulation <-
    (if newLevel >? oldLevel then
       setLevel newLevel ;;
       handleGameEvent (toUser (ReachedLevel newLevel)) ;;
       ret (Some newLevel)
     else ret None) ;;
  handleGameEvent (toAI (GuessedCorrectly (answer c) (explanation c) aiCongratulation)).

(** The callback given to [setTimeout] by [handleIncorrectGuess]. *)
Definition wrongGuessTimeout : M unit :=
  r <- current ;;
  if negb (isMounted r) then skip else
  setGuessValue "" ;;
  setIsWrongGuess false.

Definition handleIncorrectGuess : M unit :=
  setIsWrongGuess true ;;
  suspend (WrongGuessTimeout 1000).

Definition handleTimeUp (c : Vars) : M unit :=
  setGameStatus LOST ;;
  cleanupTimer ;;
  handleGameEvent (mkEvent (Some TimeRanOut) (Some (TimeRanOutAI (answer c) (explanation c)))).

(** The body of the guess evaluation effect. *)
Definition evaluateGuess (c : Vars) : M unit :=
  if negb (GameStatus_eqb (gameStatus c) PLAYING) || Js.falsy (answer c) || isWrongGuess c
  then skip else
  let answerSanitized := Js.stripWhitespace (answer c) in
  if (String.length (guessValue c) =? String.length answerSanitized)%nat then
    if String.eqb (Js.toLowerCase (guessValue c)) (Js.toLowerCase answerSanitized)
    then handleCorrectGuess c
    else handleIncorrectGuess
  else skip.

(** The reactions registered on the prefetch promise. *)
Definition prefetchFulfilled (promise : nat) (data : GameData.t) : M unit :=
  r <- current ;;
  if isMounted r && nat_eq_opt (nextGamePromiseRef r) promise
  then setPrefetchedGameData (Some data) else skip.

Definition prefetchRejected (promise : nat) : M unit :=
  r <- current ;;
  if isMounted r && nat_eq_opt (nextGamePromiseRef r) promise
  then assignNextGamePromiseRef None else skip.

Definition prefetchNextRound (c : Vars) : M unit :=
  r <- current ;;
  if isSome (nextGamePromiseRef r) then skip else
  let conceptsToExclude :=
    if Js.falsy (answer c) then pastConcepts c else (pastConcepts c ++ [answer c])%list in
  promise <- getNewGameData conceptsToExclude (imageStyle c) ;;
  assignNextGamePromiseRef (Some promise) ;;
  suspend (PrefetchReaction promise).

(** [roundIdRef.current !== roundId], guarded by [isMounted], as written
    three times in [startNewGame]. *)
Definition stale (roundId : Z) (r : Refs) : bool :=
  negb (isMounted r) || negb (roundIdRef r =? roundId).

(** [handleGameData], local to [startNewGame]. *)
Definition handleGameData (roundId : Z) (gameData : GameData.t) : M unit :=
  r <- current ;;
  if stale roundId r then skip else
  setImageUrl (GameData.imageUrl gameData) ;;
  setAnswer (GameData.concept gameData) ;;
  setExplanation (GameData.explanation gameData) ;;
  setTimeLeft ROUND_TIME ;;
  appendPastConcept (GameData.concept gameData) ;;
  handleGameEvent (toAI (ImageCreated (GameData.concept gameData) (GameData.explanation gameData))) ;;
  setGameStatus PLAYING.

(** [startNewGame] from [await promiseToAwait] on, when the promise
    fulfils. *)
Definition startNewGame_fulfilled (roundId : Z) (data : GameData.t) : M unit :=
  r <- current ;;
  if stale roundId r then skip else
  handleGameData roundId data.

(** The [catch] block of [startNewGame]. *)
Definition startNewGame_rejected (roundId : Z) (e : Reason) : M unit :=
  r <- current ;;
  if stale roundId r then skip else
  setError (Some (match e with
                  | ErrorObject message => message
                  | NotAnError => "An unknown error occurred."
                  end)) ;;
  setGameStatus IDLE ;;
  setPrefetchedGameData None ;;
  assignNextGamePromiseRef None.

(** [startNewGame] up to [await promiseToAwait].  The awaited events
    before it carry only [forUser] text and do not suspend. *)
Definition startNewGame (c : Vars) : M unit :=
  r0 <- current ;;
  let roundId := roundIdRef r0 + 1 in
  assignRoundIdRef roundId ;;
  if GameStatus_eqb (gameStatus c) LOADING then skip else
  let wasRoundFinished :=
    GameStatus_eqb (gameStatus c) WON || GameStatus_eqb (gameStatus c) LOST in
  let isFirstGame := (List.length (pastConcepts c) =? 0)%nat in
  setGameStatus LOADING ;;
  setLoadingMessage "thinking" ;;
  when wasRoundFinished (handleGameEvent (toUser NextRound)) ;;
  cleanupTimer ;;
  setError None ;;
  setGuessValue "" ;;
  setIsWrongGuess false ;;
  setImageUrl "" ;;
  when isFirstGame (handleGameEvent (toUser StartingOnLevel1)) ;;
  handleGameEvent (toAI WantsNewRound) ;;
  promiseToAwait <-
    (match prefetchedGameData c with
     | Some data =>
         setPrefetchedGameData None ;;
         assignNextGamePromiseRef None ;;
         ret (Resolved data)
     | None =>
         r1 <- current ;;
         match nextGamePromiseRef r1 with
         | Some promise =>
             assignNextGamePromiseRef None ;;
             ret (Handle promise)
         | None =>
             promise <- getNewGameData (pastConcepts c) (imageStyle c) ;;
             ret (Handle promise)
         end
     end) ;;
  r2 <- current ;;
  if stale roundId r2 then skip else
  setLoadingMessage "generating" ;;
  suspend (AwaitGameData roundId promiseToAwait).

Definition handleResetGame : M unit :=
  r <- current ;;
  assignRoundIdRef (roundIdRef r + 1) ;;
  cleanupTimer ;;
  setGameStatus IDLE ;;
  setImageUrl "" ;;
  setAnswer "" ;;
  setExplanation "" ;;
  setGuessValue "" ;;
  setIsWrongGuess false ;;
  setTimeLeft ROUND_TIME ;;
  setError None ;;
  setLoadingMessage "" ;;
  setPastConcepts [] ;;
  setScore 0 ;;
  setLevel 1 ;;
  emit ChatReset.

Definition handleGuessChange (c : Vars) (value : string) : M unit :=
  if isWrongGuess c then skip else setGuessValue value.

(** ** [GuessInput] of [ChatPanel.tsx] *)

Definition isDisabled (c : Vars) : bool :=
  GameStatus_eqb (gameStatus c) IDLE || GameStatus_eqb (gameStatus c) LOADING
  || GameStatus_eqb (gameStatus c) WON || GameStatus_eqb (gameStatus c) LOST.

Definition answerSanitizedLength (c : Vars) : nat :=
  String.length (Js.stripWhitespace (answer c)).

(** [handleInput], with [onGuessChange] bound to [handleGuessChange]. *)
Definition handleInput (c : Vars) (rawValue : string) : M unit :=
  if isDisabled c || isWrongGuess c then skip else
  let sanitizedValue := Js.stripNonAlnum rawValue in
  let truncatedValue := Js.slice0 (answerSanitizedLength c) sanitizedValue in
  handleGuessChange c truncatedValue.

(** ** The effects of [App]

    [useEffect(body, deps)] runs [body] after a render in which one of
    [deps] differs from the previous render.  [prev] and [cur] are the
    state variables of the previous and of the current render; a
    [useCallback] value differs when one of its own dependencies does.
    Strings and numbers are compared by value, as [Object.is] does;
    [pastConcepts] is compared by value too: the only assignment that
    gives it an equal value is the one of [handleResetGame], after which
    the status is [IDLE] and the effect that depends on it does nothing. *)

Definition strings_eqb (a b : list string) : bool :=
  if list_eq_dec string_dec a b then true else false.

(** [handleTimeUp]: [answer, cleanupTimer, explanation, handleGameEvent] *)
Definition same_handleTimeUp (prev cur : Vars) : bool :=
  String.eqb (answer prev) (answer cur) && String.eqb (explanation prev) (explanation cur).

(** [handleCorrectGuess]: [answer, cleanupTimer, explanation, gameStatus,
    handleGameEvent, score, level] *)
Definition same_handleCorrectGuess (prev cur : Vars) : bool :=
  String.eqb (answer prev) (answer cur) && String.eqb (explanation prev) (explanation cur)
  && GameStatus_eqb (gameStatus prev) (gameStatus cur)
  && (score prev =? score cur) && (level prev =? level cur).

(** [prefetchNextRound]: [pastConcepts, answer, imageStyle] *)
Definition same_prefetchNextRound (prev cur : Vars) : bool :=
  strings_eqb (pastConcepts prev) (pastConcepts cur)
  && String.eqb (answer prev) (answer cur)
  && String.eqb (imageStyle prev) (imageStyle cur).

(** "This effect invalidates prefetched data if the style changes":
    [imageStyle] *)
Definition invalidatePrefetch (c : Vars) : M unit :=
  r <- current ;;
  if isSome (prefetchedGameData c) || isSome (nextGamePromiseRef r) then
    setPrefetchedGameData None ;;
    assignNextGamePromiseRef None
  else skip.

Definition styleEffect (prev cur : Vars) : M unit :=
  if String.eqb (imageStyle prev) (imageStyle cur) then skip else invalidatePrefetch cur.

(** The countdown: [gameStatus, timeLeft, handleTimeUp].  The clean-up of
    the previous run comes first. *)
Definition timerEffect (prev cur : Vars) : M unit :=
  if GameStatus_eqb (gameStatus prev) (gameStatus cur) && (timeLeft prev =? timeLeft cur)
     && same_handleTimeUp prev cur
  then skip else
  r <- current ;;
  match timerRef r with Some id => clearInterval id | None => skip end ;;
  if GameStatus_eqb (gameStatus cur) PLAYING && (timeLeft cur >? 0) then
    id <- setInterval ;;
    assignTimerRef (Some id)
  else if (timeLeft cur <=? 0) && GameStatus_eqb (gameStatus cur) PLAYING then
    handleTimeUp cur
  else skip.

(** Guess evaluation: [guessValue, answer, gameStatus, handleCorrectGuess,
    handleIncorrectGuess, isWrongGuess] ([handleIncorrectGuess] never
    changes). *)
Definition guessEffect (prev cur : Vars) : M unit :=
  if String.eqb (guessValue prev) (guessValue cur) && String.eqb (answer prev) (answer cur)
     && GameStatus_eqb (gameStatus prev) (gameStatus cur)
     && same_handleCorrectGuess prev cur
     && Bool.eqb (isWrongGuess prev) (isWrongGuess cur)
  then skip else evaluateGuess cur.

(** "Effect to trigger the prefetch when a round finishes":
    [gameStatus, prefetchNextRound] *)
Definition prefetchEffect (prev cur : Vars) : M unit :=
  if GameStatus_eqb (gameStatus prev) (gameStatus cur) && same_prefetchNextRound prev cur
  then skip else
  if GameStatus_eqb (gameStatus cur) WON || GameStatus_eqb (gameStatus cur) LOST
  then prefetchNextRound cur else skip.

(** One commit: the effects in the order they are declared.  Only the
    countdown has a clean-up, and it touches nothing the effects declared
    before it read. *)
Definition effects (prev cur : Vars) : M unit :=
  styleEffect prev cur ;;
  timerEffect prev cur ;;
  guessEffect prev cur ;;
  prefetchEffect prev cur.

(** Renders follow one another while effects change state variables. *)
Fixpoint render (passes : nat) (prev : Vars) (w : World) : World :=
  match passes with
  | O => w
  | S n => render n (vars w) (exec (effects prev (vars w)) w)
  end.

(** ** The event loop *)

Inductive Event :=
| ClickStart                              (* onStartNewGame, onNextGame *)
| ClickReset                              (* onResetGame *)
| TypeGuess (rawValue : string)           (* onInput of the hidden input *)
| ChangeStyle (style : string)            (* onStyleChange *)
| Tick (id : nat)                         (* the interval callback *)
| Settle (promise : nat) (s : Settled)    (* the provider answers *)
| Microtask                               (* an await on a settled promise resumes *)
| Timeout                                 (* the oldest setTimeout callback *)
| Unmount.

Definition onPending (f : list Task -> list Task) : M unit :=
  fun w => (tt, mkWorld (vars w) (refs w) (f (pending w)) (settled w) (intervals w) (trace w) (requests w) (nextId w)).

Definition recordSettled (p : nat) (s : Settled) : M unit :=
  fun w => (tt, mkWorld (vars w) (refs w) (pending w) (settled w ++ [(p, s)]) (intervals w) (trace w) (requests w) (nextId w)).

Definition issued (p : nat) (w : World) : bool :=
  (p <? List.length (requests w))%nat.

Fixpoint outcome (p : nat) (l : list (nat * Settled)) : option Settled :=
  match l with
  | [] => None
  | (q, s) :: rest => if Nat.eqb q p then Some s else outcome p rest
  end.

Definition isAwait (t : Task) : bool :=
  match t with AwaitGameData _ _ => true | _ => false end.

Definition awaits (p : nat) (t : Task) : bool :=
  match t with
  | AwaitGameData _ (Handle q) => Nat.eqb q p
  | PrefetchReaction q => Nat.eqb q p
  | _ => false
  end.

(** The continuation of a task whose promise settled with [s]. *)
Definition resume (s : Settled) (t : Task) : M unit :=
  match t, s with
  | AwaitGameData roundId _, Fulfilled data => startNewGame_fulfilled roundId data
  | AwaitGameData roundId _, Rejected e => startNewGame_rejected roundId e
  | PrefetchReaction promise, Fulfilled data => prefetchFulfilled promise data
  | PrefetchReaction promise, Rejected _ => prefetchRejected promise
  | WrongGuessTimeout _, _ => wrongGuessTimeout
  end.

Fixpoint resumeAll (s : Settled) (ts : list Task) : M unit :=
  match ts with
  | [] => skip
  | t :: rest => resume s t ;; resumeAll s rest
  end.

(** Reactions run in registration order; on rejection the [catch] of the
    prefetch sits one promise further down the chain and runs after the
    awaiting [startNewGame]. *)
Definition reactions (p : nat) (s : Settled) (ts : list Task) : list Task :=
  let waiting := List.filter (awaits p) ts in
  match s with
  | Fulfilled _ => waiting
  | Rejected _ => List.filter isAwait waiting ++ List.filter (fun t => negb (isAwait t)) waiting
  end.

Definition settle (p : nat) (s : Settled) : M unit :=
  fun w =>
    if issued p w && negb (isSome (outcome p (settled w))) then
      (recordSettled p s ;;
       onPending (List.filter (fun t => negb (awaits p t))) ;;
       resumeAll s (reactions p s (pending w))) w
    else (tt, w).

(** The first task satisfying [ready], and the others. *)
Fixpoint pick (ready : Task -> bool) (ts : list Task) : option (Task * list Task) :=
  match ts with
  | [] => None
  | t :: rest =>
      if ready t then Some (t, rest)
      else match pick ready rest with
           | Some (t', rest') => Some (t', t :: rest')
           | None => None
           end
  end.

Definition available (l : list (nat * Settled)) (t : Task) : option Settled :=
  match t with
  | AwaitGameData _ (Resolved data) => Some (Fulfilled data)
  | AwaitGameData _ (Handle p) => outcome p l
  | _ => None
  end.

Definition microtask : M unit :=
  fun w =>
    match pick (fun t => isSome (available (settled w) t)) (pending w) with
    | Some (t, rest) =>
        match available (settled w) t with
        | Some s => (onPending (fun _ => rest) ;; resume s t) w
        | None => (tt, w)
        end
    | None => (tt, w)
    end.

Definition isTimeout (t : Task) : bool :=
  match t with WrongGuessTimeout _ => true | _ => false end.

Definition timeout : M unit :=
  fun w =>
    match pick isTimeout (pending w) with
    | Some (_, rest) => (onPending (fun _ => rest) ;; wrongGuessTimeout) w
    | None => (tt, w)
    end.

Definition tick (id : nat) : M unit :=
  fun w => if existsb (Nat.eqb id) (intervals w) then decrementTimeLeft w else (tt, w).

(** The clean-up of the mount effect. *)
Definition unmount : M unit :=
  assignIsMounted false ;;
  cleanupTimer.

Definition handle (e : Event) (c : Vars) : M unit :=
  match e with
  | ClickStart => startNewGame c
  | ClickReset => handleResetGame
  | TypeGuess rawValue => handleInput c rawValue
  | ChangeStyle style => setImageStyle style
  | Tick id => tick id
  | Settle p s => settle p s
  | Microtask => microtask
  | Timeout => timeout
  | Unmount => unmount
  end.

(** The events only a mounted component receives. *)
Definition fromPage (e : Event) : bool :=
  match e with
  | ClickStart | ClickReset | TypeGuess _ | ChangeStyle _ | Tick _ | Unmount => true
  | _ => false
  end.

(** One event: its handler, seeing the last render, then the renders it
    causes ([render_settles]: two commits are enough).  A component that
    is no longer mounted renders nothing and receives no events from the
    page; the continuations of its promises and timeouts still run. *)
Definition step (e : Event) (w : World) : World :=
  if isMounted (refs w) then
    match e with
    | Unmount => exec unmount w
    | _ => render 2 (vars w) (exec (handle e (vars w)) w)
    end
  else if fromPage e then w
  else exec (handle e (vars w)) w.

Definition run (es : list Event) (w : World) : World :=
  fold_left (fun w e => step e w) es w.

(** The world after the first render. *)
Definition initialVars : Vars :=
  mkVars [] IDLE "" "pixel art" "" "" "" false ROUND_TIME None "" 0 1 None.

Definition initialRefs : Refs := mkRefs None 0 None true.

Definition initial : World := mkWorld initialVars initialRefs [] [] [] [] [] O.

(** ** Worlds used in examples *)

Definition up : GameData.t := GameData.mk "Up" "a house lifted by balloons" "data:up".
Definition jaws : GameData.t := GameData.mk "Jaws" "a fin above the water" "data:jaws".
Definition dieHard : GameData.t := GameData.mk "Die Hard" "a tower and an air vent" "data:diehard".

(** A round on "Die Hard" is being played. *)
Definition dieHardRound : list Event := [ClickStart; Settle 0 (Fulfilled dieHard)].

Definition playingDieHard : World := run dieHardRound initial.

(** A round on "Up" has been won and the prefetch for the next round has
    delivered "Jaws". *)
Definition wonWithPrefetch : World :=
  run [ClickStart; Settle 0 (Fulfilled up); TypeGuess "up"; Settle 1 (Fulfilled jaws)] initial.

(** A round on "Up" has been won and the prefetch is still on its way. *)
Definition wonPrefetching : World :=
  run [ClickStart; Settle 0 (Fulfilled up); TypeGuess "up"] initial.


(** A wrong guess on "Up", then a reset and a new round on "Jaws" in which
    two letters have been typed while the timeout of the wrong guess is
    still to come. *)
Definition wrongThenNewRound : World :=
  run [ClickStart; Settle 0 (Fulfilled up); TypeGuess "ab"; ClickReset;
       ClickStart; Settle 1 (Fulfilled jaws); TypeGuess "ja"] initial.


(** Four rounds won, the fifth being played. *)
Definition fifthRound : list Event :=
  [ClickStart; Settle 0 (Fulfilled up); TypeGuess "up";
   ClickStart; Settle 1 (Fulfilled jaws); TypeGuess "jaws";
   ClickStart; Settle 2 (Fulfilled dieHard); TypeGuess "diehard";
   ClickStart; Settle 3 (Fulfilled up); TypeGuess "up";
   ClickStart; Settle 4 (Fulfilled jaws)].

(** Two restarts while the first fetch is on its way. *)
Definition restartedTwice : World := run [ClickStart; ClickReset; ClickStart] initial.

(** The state variables the effects depend on. *)
Definition sameDeps (prev cur : Vars) : Prop :=
  pastConcepts prev = pastConcepts cur /\ gameStatus prev = gameStatus cur
  /\ imageStyle prev = imageStyle cur /\ answer prev = answer cur
  /\ explanation prev = explanation cur /\ guessValue prev = guessValue cur
  /\ isWrongGuess prev = isWrongGuess cur /\ timeLeft prev = timeLeft cur
  /\ score prev = score cur /\ level prev = level cur.

(** ** Invariants of the event loop *)

(** [level = Math.floor(score / 5) + 1] *)
Definition LevelInv (c : Vars) : Prop := level c = score c / 5 + 1.

(** The guess fits the letter boxes of the answer. *)
Definition Bounded (c : Vars) : Prop :=
  (String.length (guessValue c) <= answerSanitizedLength c)%nat.

(** The only live interval is the one [timerRef] holds. *)
Definition TimerInv (w : World) : Prop :=
  forall id, In id (intervals w) -> timerRef (refs w) = Some id.

(** The round numbers captured by the suspended [startNewGame] calls. *)
Fixpoint awaitedRounds (ts : list Task) : list Z :=
  match ts with
  | [] => []
  | AwaitGameData roundId _ :: rest => roundId :: awaitedRounds rest
  | _ :: rest => awaitedRounds rest
  end.

(** The state variables a content fetch writes when it is committed. *)
Definition sameRound (a b : Vars) : Prop :=
  answer a = answer b /\ explanation a = explanation b /\ imageUrl a = imageUrl b
  /\ pastConcepts a = pastConcepts b /\ gameStatus a = gameStatus b.

(** The invariant of the event loop, stated for the round numbers [rs]
    of the [startNewGame] calls that have not resumed yet. *)
Record InvR (rs : list Z) (w : World) : Prop := mkInv {
  inv_level : LevelInv (vars w);
  inv_timer : TimerInv w;
  inv_rounds_le : forall r, In r rs -> r <= roundIdRef (refs w);
  inv_rounds_nodup : NoDup rs;
  inv_bounded : Bounded (vars w);
  inv_loading :
    In (roundIdRef (refs w)) rs ->
    gameStatus (vars w) = LOADING /\ guessValue (vars w) = ""
}.

Definition Inv (w : World) : Prop := InvR (awaitedRounds (pending w)) w.

(** Within one commit the effects see the state variables [cur] of the
    render, while the effects declared before them have already written to
    the world. *)
Definition Link (cur : Vars) (w : World) : Prop :=
  score (vars w) = score cur /\ level (vars w) = level cur
  /\ (In (roundIdRef (refs w)) (awaitedRounds (pending w)) -> gameStatus cur = LOADING).

(** What the effects of one commit may have done to the state variables
    [cur] of the render they ran in. *)
Record Moved (cur v : Vars) : Prop := mkMoved {
  moved_style : imageStyle v = imageStyle cur;
  moved_answer : answer v = answer cur;
  moved_explanation : explanation v = explanation cur;
  moved_guess : guessValue v = guessValue cur;
  moved_time : timeLeft v = timeLeft cur;
  moved_past : pastConcepts v = pastConcepts cur;
  moved_status : gameStatus v = gameStatus cur \/ gameStatus v = WON \/ gameStatus v = LOST;
  moved_score : score v <> score cur \/ level v <> level cur -> gameStatus v = WON;
  moved_flag : isWrongGuess v <> isWrongGuess cur -> isWrongGuess v = true
}.

Definition SameScore (c v : Vars) : Prop := score v = score c /\ level v = level c.

(** [w'] has the state variables and the notifications of [w]. *)
Definition Quiet (w w' : World) : Prop := vars w' = vars w /\ trace w' = trace w.

(** [w] with another guess. *)
Definition withGuess (value : string) (w : World) : World :=
  exec (setGuessValue value) w.

(** ** The countdown and the mount flag *)

(** What a step can change on a component that is no longer mounted:
    the bookkeeping of promises and timeouts, nothing else. *)
Record Frozen (w w' : World) : Prop := mkFrozen {
  frozen_vars : vars w' = vars w;
  frozen_refs : refs w' = refs w;
  frozen_intervals : intervals w' = intervals w;
  frozen_trace : trace w' = trace w;
  frozen_requests : requests w' = requests w
}.

(** The render [c] asks for a countdown. *)
Definition counting (c : Vars) (w : World) : bool :=
  isMounted (refs w) && GameStatus_eqb (gameStatus c) PLAYING && (timeLeft c >? 0).

(** One interval, held by [timerRef], when the render asks for a
    countdown; none otherwise. *)
Definition Counting (c : Vars) (w : World) : Prop :=
  if counting c w
  then exists id, intervals w = [id] /\ timerRef (refs w) = Some id
  else intervals w = [].

Record Clock (w : World) : Prop := mkClock {
  clock_counting : Counting (vars w) w;
  clock_range : 0 <= timeLeft (vars w) <= ROUND_TIME;
  clock_playing : gameStatus (vars w) = PLAYING -> 0 < timeLeft (vars w)
}.

(** The dependencies of the countdown effect are unchanged. *)
Definition sameTimerDeps (prev cur : Vars) : bool :=
  GameStatus_eqb (gameStatus prev) (gameStatus cur) && (timeLeft prev =? timeLeft cur)
  && same_handleTimeUp prev cur.

(** Changes that leave the countdown alone. *)
Record ClockStep (w w' : World) : Prop := mkClockStep {
  cs_intervals : intervals w' = intervals w;
  cs_timerRef : timerRef (refs w') = timerRef (refs w);
  cs_isMounted : isMounted (refs w') = isMounted (refs w);
  cs_timeLeft :
    timeLeft (vars w') = timeLeft (vars w) \/ timeLeft (vars w') = ROUND_TIME
}.

(** Changes that touch neither the countdown nor what it depends on. *)
Record Untimed (w w' : World) : Prop := mkUntimed {
  ut_intervals : intervals w' = intervals w;
  ut_timerRef : timerRef (refs w') = timerRef (refs w);
  ut_isMounted : isMounted (refs w') = isMounted (refs w);
  ut_status : gameStatus (vars w') = gameStatus (vars w);
  ut_timeLeft : timeLeft (vars w') = timeLeft (vars w)
}.

(** What a commit finds: the countdown is as the previous render left it
    unless the handler changed what the countdown depends on. *)
Record Due (prev : Vars) (w : World) : Prop := mkDue {
  due_range : 0 <= timeLeft (vars w) <= ROUND_TIME;
  due_same :
    sameTimerDeps prev (vars w) = true ->
    Counting (vars w) w /\ (gameStatus (vars w) = PLAYING -> 0 < timeLeft (vars w))
}.

(** The interval that [timerRef] holds fires once. *)
Definition countdownFires (w : World) : World :=
  match timerRef (refs w) with
  | Some id => step (Tick id) w
  | None => w
  end.

Fixpoint seconds (n : nat) (w : World) : World :=
  match n with
  | O => w
  | S k => seconds k (countdownFires w)
  end.

(** The notification of [handleTimeUp]. *)
Definition timeUpEvent (c : Vars) : Output :=
  SendGameEvent (mkEvent (Some TimeRanOut) (Some (TimeRanOutAI (answer c) (explanation c)))).

(** ** Invariants of the state variables *)

(** Every code unit of [s] satisfies [f]. *)
Fixpoint allChars (f : ascii -> bool) (s : string) : bool :=
  match s with
  | EmptyString => true
  | String ch rest => f ch && allChars f rest
  end.

(** What holds of the state variables between any two callbacks. *)
Record Sound (c : Vars) : Prop := mkSound {
  sound_error : error c <> None -> gameStatus c = IDLE;
  sound_score_lo : 0 <= score c;
  sound_score : score c <= Z.of_nat (List.length (pastConcepts c));
  sound_playing :
    gameStatus c = PLAYING -> score c < Z.of_nat (List.length (pastConcepts c));
  sound_guess : allChars Js.isAlnum (guessValue c) = true;
  sound_answer : List.last (pastConcepts c) "" = answer c;
  sound_won :
    gameStatus c = WON -> allChars Js.isAlnum (Js.stripWhitespace (answer c)) = true
}.

(** Within one commit: what the world still shares with the render [cur]
    whose effects are running. *)
Record Linked (cur : Vars) (w : World) : Prop := mkLinked {
  linked_past : pastConcepts (vars w) = pastConcepts cur;
  linked_answer : answer (vars w) = answer cur;
  linked_error : error (vars w) = error cur;
  linked_guess : guessValue (vars w) = guessValue cur;
  linked_score : score (vars w) = score cur;
  linked_status : gameStatus (vars w) = gameStatus cur \/ gameStatus (vars w) = LOST
}.

(** ** How the status moves *)

(** The moves of [gameStatus] over one event. *)
Definition allowed (before after : GameStatus) : bool :=
  match before, after with
  | _, IDLE => true
  | LOADING, LOADING | LOADING, PLAYING | LOADING, WON => true
  | IDLE, LOADING | PLAYING, LOADING | WON, LOADING | LOST, LOADING => true
  | PLAYING, PLAYING | PLAYING, WON | PLAYING, LOST => true
  | WON, WON | LOST, LOST => true
  | _, _ => false
  end.

(** What a continuation does to status and time. *)
Definition resumed (v v' : Vars) : Prop :=
  (gameStatus v' = gameStatus v /\ timeLeft v' = timeLeft v)
  \/ (gameStatus v = LOADING
      /\ (gameStatus v' = IDLE \/ (gameStatus v' = PLAYING /\ timeLeft v' = ROUND_TIME))).

(** What a handler does to status and time. *)
Definition handled (v v' : Vars) : Prop :=
  resumed v v'
  \/ (gameStatus v <> LOADING /\ gameStatus v' = LOADING)
  \/ gameStatus v' = IDLE
  \/ (gameStatus v' = gameStatus v /\ timeLeft v' = timeLeft v - 1).

(** What the effects of one commit do to status and time. *)
Definition committed (cur v' : Vars) : Prop :=
  timeLeft v' = timeLeft cur
  /\ (gameStatus v' = gameStatus cur
      \/ (gameStatus cur = PLAYING
          /\ (gameStatus v' = WON \/ (gameStatus v' = LOST /\ timeLeft cur <= 0)))).

(** ** [GamePanel.tsx] *)

Module GamePanel.

(** The children of the overlay. *)
Inductive Overlay :=
| StartGame                   (* the button "Start game" *)
| TryAgain (error : string)   (* the error text and the button "Try Again" *)
| Thinking
| Generating.

(** What the panel shows: the image, if any, and the overlay with its
    children, if any. *)
Record View := mkView { image : option string; overlay : option (list Overlay) }.

Definition showInitialOverlay (gameStatus : GameStatus) : bool :=
  GameStatus_eqb gameStatus IDLE || GameStatus_eqb gameStatus LOADING.

Definition showImage (gameStatus : GameStatus) : bool :=
  GameStatus_eqb gameStatus PLAYING || GameStatus_eqb gameStatus WON
  || GameStatus_eqb gameStatus LOST.

(** [error ? ... : ...] on a [string | null]. *)
Definition truthy (error : option string) : bool :=
  match error with
  | Some e => negb (Js.falsy e)
  | None => false
  end.

Definition view (gameStatus : GameStatus) (imageUrl : string) (error : option string)
    (loadingMessage : string) : View :=
  mkView
    (if showImage gameStatus && negb (Js.falsy imageUrl) then Some imageUrl else None)
    (if showInitialOverlay gameStatus then
       Some ((if GameStatus_eqb gameStatus IDLE then
                [match error with
                 | Some e => if Js.falsy e then StartGame else TryAgain e
                 | None => StartGame
                 end]
              else [])
             ++ (if GameStatus_eqb gameStatus LOADING then
                   [if String.eqb loadingMessage "thinking" then Thinking else Generating]
                 else []))%list
     else None).

(** The panel as [App] renders it. *)
Definition ofVars (c : Vars) : View :=
  view (gameStatus c) (imageUrl c) (error c) (loadingMessage c).

End GamePanel.

(** ** More worlds used in examples *)

(** A round on "Up" is won. *)
Definition upWon : list Event := [ClickStart; Settle 0 (Fulfilled up); TypeGuess "up"].

(** The first fetch fails. *)
Definition firstFetchFails : list Event :=
  [ClickStart; Settle 0 (Rejected (ErrorObject "quota exceeded"))].


(** ** The letter boxes of [GuessInput] ([ChatPanel.tsx]) *)

Module GuessInput.

(** [s.split(sep)] for a separator of one code unit. *)
Fixpoint split (sep : ascii) (s : string) : list string :=
  match s with
  | EmptyString => [EmptyString]
  | String ch rest =>
      if Ascii.eqb ch sep then EmptyString :: split sep rest
      else match split sep rest with
           | word :: words => String ch word :: words
           | [] => [String ch EmptyString]
           end
  end.











End GuessInput.



(** ** [ChatPanel.tsx] *)

From Stdlib Require DecimalString.

Module ChatPanel.

(** [types.ts]: [enum Role]. *)
Inductive Role := USER | MODEL | SYSTEM | GAME_EVENT.

(** The strings the panel handles: plain text, and the templates of
    [App.tsx] and of the panel itself, kept structured. *)
Inductive Str :=
| Plain (s : string)
| Greeting               (* "Hi! ... I'll think of a movie and create an image of it. ..." *)
| UserLine (t : UserText)
| AILine (t : AIText)
| ContextLine (score level : Z).   (* `Game Context Update: The user's score is now ...` *)

Record ChatMessage := mkMessage { role : Role; content : Str }.

(** The [useState] variables of the panel. *)
Record State := mkState {
  messages : list ChatMessage;
  input : string;
  isLoading : bool
}.

(** The panel, its chat session and what it has asked of it: [sent]
    holds every [chatRef.current.sendMessage] with its session, oldest
    first; [waiting] the calls of [sendMessage] whose answer has not come
    (a call is named by its position in [sent]). *)
Record Chat := mkChat {
  state : State;
  chatRef : option nat;
  created : nat;                 (* sessions made by createChat so far *)
  sent : list (nat * Str);
  waiting : list nat
}.

Definition setMessages (f : list ChatMessage -> list ChatMessage) (w : Chat) : Chat :=
  mkChat (mkState (f (messages (state w))) (input (state w)) (isLoading (state w)))
         (chatRef w) (created w) (sent w) (waiting w).

Definition setInput (v : string) (w : Chat) : Chat :=
  mkChat (mkState (messages (state w)) v (isLoading (state w)))
         (chatRef w) (created w) (sent w) (waiting w).

Definition setIsLoading (v : bool) (w : Chat) : Chat :=
  mkChat (mkState (messages (state w)) (input (state w)) v)
         (chatRef w) (created w) (sent w) (waiting w).

(** [setMessages(prev => [...prev, m])] *)
Definition append (m : ChatMessage) : Chat -> Chat :=
  setMessages (fun prev => prev ++ [m])%list.

(** [chatRef.current = createChat()] *)
Definition createChat (w : Chat) : Chat :=
  mkChat (state w) (Some (created w)) (S (created w)) (sent w) (waiting w).

(** [String.prototype.trim] on code units below 256. *)
Fixpoint trimStart (s : string) : string :=
  match s with
  | EmptyString => EmptyString
  | String ch rest => if Js.isWhitespace ch then trimStart rest else s
  end.

Fixpoint trimEnd (s : string) : string :=
  match s with
  | EmptyString => EmptyString
  | String ch rest =>
      match trimEnd rest with
      | EmptyString => if Js.isWhitespace ch then EmptyString else String ch EmptyString
      | kept => String ch kept
      end
  end.

Definition trim (s : string) : string := trimEnd (trimStart s).

Definition greeting : list ChatMessage := [mkMessage MODEL Greeting].

(** The panel after its first render and its mount effect. *)
Definition initial : Chat :=
  createChat (mkChat (mkState greeting "" false) None 0 [] []).

Definition handleReset (w : Chat) : Chat :=
  createChat (setIsLoading false (setInput "" (setMessages (fun _ => greeting) w))).

(** [sendMessage] up to [await chatRef.current.sendMessage]; [c] is the
    render the callback was made in. *)
Definition sendMessage (c : State) (message : Str) (isUserMessage : bool) (w : Chat) : Chat :=
  match chatRef w with
  | None => w
  | Some session =>
      if isLoading c then w else
      let w1 := setIsLoading true w in
      let w2 := if isUserMessage
                then append (mkMessage USER message) (setInput "" w1)
                else w1 in
      mkChat (state w2) (chatRef w2) (created w2) (sent w2 ++ [(session, message)])%list
             (waiting w2 ++ [List.length (sent w2)])%list
  end.

(** [sendMessage] from the answer on: [response.text] may be missing. *)
Definition answered (responseText : option string) (w : Chat) : Chat :=
  let w1 :=
    match responseText with
    | Some text =>
        if negb (Js.falsy text) && negb (Js.falsy (trim text))
        then append (mkMessage MODEL (Plain text)) w
        else w
    | None => w
    end in
  setIsLoading false w1.

(** The [catch] and [finally] blocks of [sendMessage]. *)
Definition failed (error : Reason) (w : Chat) : Chat :=
  let errorMessage :=
    match error with
    | ErrorObject message => message
    | NotAnError => "Sorry, I encountered an error."
    end in
  setIsLoading false (append (mkMessage SYSTEM (Plain errorMessage)) w).

Definition sendGameEvent (c : State) (event : GameEvent) (w : Chat) : Chat :=
  let w1 :=
    match forUser event with
    | Some text => append (mkMessage GAME_EVENT (UserLine text)) w
    | None => w
    end in
  match forAI event with
  | Some text => sendMessage c (AILine text) false w1
  | None => w1
  end.

(** The answer and the failure of this call are both ignored. *)
Definition sendSystemContext (context : Str) (w : Chat) : Chat :=
  match chatRef w with
  | None => w
  | Some session =>
      mkChat (state w) (chatRef w) (created w) (sent w ++ [(session, context)])%list (waiting w)
  end.

Definition handleSubmit (c : State) (w : Chat) : Chat :=
  if negb (Js.falsy (trim (input c))) && negb (isLoading c)
  then sendMessage c (Plain (trim (input c))) true w
  else w.

Definition handleClue (c : State) (gameStatus : GameStatus) (w : Chat) : Chat :=
  if negb (isLoading c) && GameStatus_eqb gameStatus PLAYING
  then sendMessage c (Plain "give me a clue") true w
  else w.

Definition isGameOver (gameStatus : GameStatus) : bool :=
  GameStatus_eqb gameStatus WON || GameStatus_eqb gameStatus LOST.

(** What the chat session does with a call. *)
Inductive Outcome := Answer (responseText : option string) | Failure (error : Reason).

Inductive Event :=
| Type_ (value : string)                  (* onChange of the text input *)
| Submit
| Clue (gameStatus : GameStatus)
| Reset                                   (* ref.reset *)
| GameEvent_ (event : GameEvent)          (* ref.sendGameEvent *)
| SystemContext (context : Str)           (* ref.sendSystemContext *)
| Reply (call : nat) (outcome : Outcome).

(** One event; the callbacks are those of the last render.  An answer
    resumes the call that waits for it, once. *)
Definition step (e : Event) (w : Chat) : Chat :=
  match e with
  | Type_ value => setInput value w
  | Submit => handleSubmit (state w) w
  | Clue gameStatus => handleClue (state w) gameStatus w
  | Reset => handleReset w
  | GameEvent_ event => sendGameEvent (state w) event w
  | SystemContext context => sendSystemContext context w
  | Reply call outcome =>
      if existsb (Nat.eqb call) (waiting w) then
        let w1 := mkChat (state w) (chatRef w) (created w) (sent w)
                         (List.filter (fun i => negb (Nat.eqb i call)) (waiting w)) in
        match outcome with
        | Answer responseText => answered responseText w1
        | Failure error => failed error w1
        end
      else w
  end.

Definition run (es : list Event) (w : Chat) : Chat :=
  fold_left (fun w e => step e w) es w.

(** The lines for the user among game events. *)
Fixpoint userLines (events : list GameEvent) : list ChatMessage :=
  match events with
  | [] => []
  | event :: rest =>
      match forUser event with
      | Some text => mkMessage GAME_EVENT (UserLine text) :: userLines rest
      | None => userLines rest
      end
  end.

(** Game events handed to the panel one after the other, each through the
    callback of some render. *)
Definition deliverAll (deliveries : list (State * GameEvent)) (w : Chat) : Chat :=
  fold_left (fun w d => sendGameEvent (fst d) (snd d) w) deliveries w.


(** [timeLeft.toString()] for an integer. *)
Definition toString (n : Z) : string :=
  DecimalString.NilZero.string_of_int (Z.to_int n).

Fixpoint repeatChar (n : nat) (ch : ascii) : string :=
  match n with
  | O => EmptyString
  | S k => String ch (repeatChar k ch)
  end.

(** [s.padStart(targetLength, padChar)] for a pad of one code unit. *)
Definition padStart (targetLength : nat) (padChar : ascii) (s : string) : string :=
  String.append (repeatChar (targetLength - String.length s) padChar) s.

(** The clock: [`0:${timeLeft.toString().padStart(2, '0')}`] *)
Definition timeText (timeLeft : Z) : string :=
  String.append "0:" (padStart 2 "0" (toString timeLeft)).

(** The decimal digit [d]. *)
Definition digit (d : Z) : ascii := ascii_of_nat (48 + Z.to_nat d).

End ChatPanel.


(** ** [geminiService.ts]: [getNewGameData] *)

Module GeminiService.

(** A property of the parsed JSON, as the code looks at it. *)
Inductive Field :=
| Missing                 (* undefined *)
| FNull
| FBool (b : bool)
| FNumber (n : Z)         (* a number, here an integer *)
| FString (s : string)
| FObject.                (* an object or an array *)

(** [!field] is false. *)
Definition truthy (f : Field) : bool :=
  match f with
  | Missing | FNull => false
  | FBool b => b
  | FNumber n => negb (n =? 0)
  | FString s => negb (Js.falsy s)
  | FObject => true
  end.

(** What [JSON.parse(conceptJsonText)] makes of the text, and what
    reading the three properties of the result gives. *)
Inductive Parsed :=
| SyntaxError                                        (* JSON.parse throws *)
| ParsedNull                                         (* reading a property throws *)
| ParsedObject (concept explanation imagePrompt : Field)
| ParsedOther.                                       (* a number, a string, a boolean, an array:
                                                        the three properties are undefined *)

(** What is thrown, or what a promise is rejected with. *)
Inductive Thrown :=
| NewError (message : string)     (* new Error(message), made by this function *)
| TypeError                       (* a property of undefined or null is read *)
| JsonSyntaxError                 (* thrown by JSON.parse *)
| FromApi (e : Reason).           (* what the API call was rejected with *)

(** The answer of [ai.models.generateContent]: a rejection, or a
    response whose [text] may be undefined, with what [JSON.parse] makes
    of the trimmed text. *)
Inductive ConceptResponse :=
| ContentRejected (e : Reason)
| Content (text : option string) (parsed : Parsed).

(** An element of [generatedImages]: [image] may be undefined, and so
    may [image.imageBytes]. *)
Inductive GeneratedImage :=
| NoImage
| Image (imageBytes : option string).

(** The answer of [ai.models.generateImages]. *)
Inductive ImageResponse :=
| ImagesRejected (e : Reason)
| Images (generatedImages : option (list GeneratedImage)).

(** The calls of the API. *)
Inductive Call :=
| GenerateContent (imageStyle : string) (exclusionPrompt : string)
| GenerateImages (prompt : Field).

Inductive Result :=
| Returned (concept explanation : Field) (imageUrl : string)
| Threw (e : Thrown).

Definition newline : string := String (ascii_of_nat 10) EmptyString.

(** [pastConcepts.join(', ')] *)
Definition join (pastConcepts : list string) : string := String.concat ", " pastConcepts.

Definition exclusionPrompt (pastConcepts : list string) : string :=
  match pastConcepts with
  | [] => ""
  | _ :: _ =>
      String.append newline (String.append newline
        (String.append
           "IMPORTANT: Do not choose any of the following movie titles that have already been used: "
           (String.append (join pastConcepts) ".")))
  end.

Definition invalidConcept : string := "The AI returned an invalid concept. Please try again.".
Definition invalidStructure : string := "Invalid data structure for concept from API".
Definition noImage : string := "The AI failed to generate an image. Please try again.".

(** The [try] block: the parsed data, or what it throws. *)
Definition validate (parsed : Parsed) : Field * Field * Field + Thrown :=
  match parsed with
  | SyntaxError => inr JsonSyntaxError
  | ParsedNull => inr TypeError
  | ParsedOther => inr (NewError invalidStructure)
  | ParsedObject concept explanation imagePrompt =>
      if negb (truthy concept) || negb (truthy explanation) || negb (truthy imagePrompt)
      then inr (NewError invalidStructure)
      else inl (concept, explanation, imagePrompt)
  end.

(** [`data:image/jpeg;base64,${base64ImageBytes}`] *)
Definition dataUrl (imageBytes : option string) : string :=
  String.append "data:image/jpeg;base64,"
    (match imageBytes with Some bytes => bytes | None => "undefined" end).

(** The calls made, in order, and the outcome. *)
Definition getNewGameData (pastConcepts : list string) (imageStyle : string)
    (conceptResponse : ConceptResponse) (imageResponse : ImageResponse)
  : list Call * Result :=
  let first := GenerateContent imageStyle (exclusionPrompt pastConcepts) in
  match conceptResponse with
  | ContentRejected e => ([first], Threw (FromApi e))
  | Content None _ => ([first], Threw TypeError)
  | Content (Some _) parsed =>
      match validate parsed with
      | inr _ => ([first], Threw (NewError invalidConcept))
      | inl (concept, explanation, imagePrompt) =>
          let second := GenerateImages imagePrompt in
          match imageResponse with
          | ImagesRejected e => ([first; second], Threw (FromApi e))
          | Images None | Images (Some []) => ([first; second], Threw (NewError noImage))
          | Images (Some (NoImage :: _)) => ([first; second], Threw TypeError)
          | Images (Some (Image imageBytes :: _)) =>
              ([first; second], Returned concept explanation (dataUrl imageBytes))
          end
      end
  end.

End GeminiService.

(** ** [StyleSelector.tsx] and the header of [App.tsx] *)

Module StyleSelector.

(** [STYLES]: value and label. *)
Definition STYLES : list (string * string) :=
  [("wood carving", "Wood Carving"); ("pixel art", "Pixel Art");
   ("claymation", "Claymation"); ("charcoal sketch", "Charcoal Sketch")].

Definition CUSTOM_VALUE_KEY : string := "custom-style".

(** [STYLES.some(s => s.value === selectedStyle)] *)
Definition isPredefined (selectedStyle : string) : bool :=
  existsb (fun s => String.eqb (fst s) selectedStyle) STYLES.

(** The values of the options of the select, in order. *)
Definition options : list string := (List.map fst STYLES ++ [CUSTOM_VALUE_KEY])%list.

Definition selectValue (selectedStyle : string) : string :=
  if isPredefined selectedStyle then selectedStyle else CUSTOM_VALUE_KEY.

(** The text input is rendered. *)
Definition showsInput (selectedStyle : string) : bool := negb (isPredefined selectedStyle).

(** The selector: its prop [selectedStyle], which is [imageStyle] of
    [App], and its own state. *)
Record Selector := mkSelector { selectedStyle : string; lastCustomStyle : string }.

(** The body of the effect that remembers the custom style. *)
Definition remember (w : Selector) : Selector :=
  if negb (isPredefined (selectedStyle w)) && negb (Js.falsy (selectedStyle w))
  then mkSelector (selectedStyle w) (selectedStyle w)
  else w.

(** The effect, with its dependencies [selectedStyle, isPredefined]. *)
Definition effect (prev : string) (w : Selector) : Selector :=
  if String.eqb prev (selectedStyle w)
     && Bool.eqb (isPredefined prev) (isPredefined (selectedStyle w))
  then w else remember w.

(** What [handleSelectChange] passes to [onStyleChange]. *)
Definition handleSelectChange (w : Selector) (value : string) : string :=
  if negb (String.eqb value CUSTOM_VALUE_KEY) then value
  else if Js.falsy (lastCustomStyle w) then "" else lastCustomStyle w.

Definition handleInputChange (value : string) : string := value.

Inductive Event :=
| Select (value : string)      (* onChange of the select *)
| Input (value : string).      (* onChange of the text input *)

(** The event can come from what is rendered: the select offers its
    options, the text input exists for a custom style only. *)
Definition offered (w : Selector) (e : Event) : bool :=
  match e with
  | Select value => existsb (String.eqb value) options
  | Input _ => showsInput (selectedStyle w)
  end.

(** One event: [onStyleChange] is [setImageStyle]; the render that
    follows runs the effect. *)
Definition step (e : Event) (w : Selector) : Selector :=
  let style :=
    match e with
    | Select value => handleSelectChange w value
    | Input value => handleInputChange value
    end in
  effect (selectedStyle w) (mkSelector style (lastCustomStyle w)).

Definition run (es : list Event) (w : Selector) : Selector :=
  fold_left (fun w e => step e w) es w.

(** The selector after the first render of [App] and the mount effect. *)
Definition initial : Selector := remember (mkSelector "pixel art" "").

(** The header disables the selector while a round is loading or being
    played. *)
Definition isDisabled (gameStatus : GameStatus) : bool :=
  GameStatus_eqb gameStatus PLAYING || GameStatus_eqb gameStatus LOADING.

End StyleSelector.

(** The remembered custom style is no predefined one, and it is the
    selected style when that is a custom style. *)
Definition Remembered (w : StyleSelector.Selector) : Prop :=
  StyleSelector.isPredefined (StyleSelector.lastCustomStyle w) = false
  /\ (StyleSelector.isPredefined (StyleSelector.selectedStyle w) = false ->
      StyleSelector.selectedStyle w <> "" ->
      StyleSelector.lastCustomStyle w = StyleSelector.selectedStyle w).

(** ** The events the rendered page offers *)

(** [GamePanel] renders a button bound to [onStartNewGame]. *)
Definition offersStart (v : GamePanel.View) : bool :=
  match GamePanel.overlay v with
  | Some children =>
      existsb (fun child => match child with
                            | GamePanel.StartGame | GamePanel.TryAgain _ => true
                            | _ => false
                            end) children
  | None => false
  end.

(** The event can come from what the render [c] shows: a start button of
    [GamePanel] or the button "Next" of [ChatPanel] for [ClickStart], an
    enabled style selector for [ChangeStyle]. *)
Definition offers (c : Vars) (e : Event) : bool :=
  match e with
  | ClickStart => offersStart (GamePanel.ofVars c) || ChatPanel.isGameOver (gameStatus c)
  | ChangeStyle _ => negb (StyleSelector.isDisabled (gameStatus c))
  | _ => true
  end.

(** Every event of the run is offered by the render it meets. *)
Fixpoint offeredAll (es : list Event) (w : World) : bool :=
  match es with
  | [] => true
  | e :: rest => offers (vars w) e && offeredAll rest (step e w)
  end.

(** A round that is loading on a mounted component has its fetch
    awaited. *)
Definition Live (w : World) : Prop :=
  isMounted (refs w) = true -> gameStatus (vars w) = LOADING ->
  In (roundIdRef (refs w)) (awaitedRounds (pending w)).

(** ** The prefetch slot and the style *)

(** What is in the prefetch slot belongs to the selected style: a handle
    names a call of the provider made with that style, and ready content
    is what the provider answered to the call the handle names. *)
Record Slot (w : World) : Prop := mkSlot {
  slot_handle :
    forall p, nextGamePromiseRef (refs w) = Some p ->
    exists r, nth_error (requests w) p = Some r /\ style r = imageStyle (vars w);
  slot_ready :
    forall data, prefetchedGameData (vars w) = Some data ->
    exists p, nextGamePromiseRef (refs w) = Some p
              /\ outcome p (settled w) = Some (Fulfilled data)
}.

(** Changes that leave the slot and what it refers to alone. *)
Record SameSlot (w w' : World) : Prop := mkSameSlot {
  ss_requests : requests w' = requests w;
  ss_settled : settled w' = settled w;
  ss_handle : nextGamePromiseRef (refs w') = nextGamePromiseRef (refs w);
  ss_ready : prefetchedGameData (vars w') = prefetchedGameData (vars w);
  ss_style : imageStyle (vars w') = imageStyle (vars w)
}.

(** What a commit finds: the slot is in order unless the style has just
    changed. *)
Definition SlotDue (prev : Vars) (w : World) : Prop :=
  imageStyle prev = imageStyle (vars w) -> Slot w.

(** A round on "Up" is won and the next round, on "Die Hard", arrives
    ahead of time. *)
Definition upPrefetched : list Event := upWon ++ [Settle 1 (Fulfilled dieHard)].

(** * Properties *)

(** ** Strings *)

Lemma length_slice0 n s :
  String.length (Js.slice0 n s) = Nat.min n (String.length s).
Proof.
  revert s; induction n as [|k IH]; intros [|ch rest]; simpl; auto.
Qed.

Lemma GameStatus_eqb_spec a b : reflect (a = b) (GameStatus_eqb a b).
Proof. destruct a, b; simpl; constructor; congruence. Qed.

Lemma GameStatus_eqb_refl a : GameStatus_eqb a a = true.
Proof. destruct a; reflexivity. Qed.

Lemma strings_eqb_refl l : strings_eqb l l = true.
Proof. unfold strings_eqb; destruct (list_eq_dec string_dec l l); congruence. Qed.

(** ** Renders without a change *)

Lemma effects_unchanged c w : exec (effects c c) w = w.
Proof.
  unfold effects, styleEffect, timerEffect, guessEffect, prefetchEffect,
    same_handleTimeUp, same_handleCorrectGuess, same_prefetchNextRound, exec, bind.
  rewrite !String.eqb_refl, !GameStatus_eqb_refl, !Z.eqb_refl, strings_eqb_refl, Bool.eqb_reflx.
  simpl. destruct w; reflexivity.
Qed.

Lemma render_unchanged n w : render n (vars w) w = w.
Proof.
  induction n as [|n IH]; simpl; [reflexivity|].
  rewrite effects_unchanged. exact IH.
Qed.

(** ** Running the monad in proofs *)

Ltac simple_scrutinee x :=
  lazymatch x with
  | context [if _ then _ else _] => fail
  | context [match _ with _ => _ end] => fail
  | _ => idtac
  end.

(** Case analysis on the innermost conditions, simplifying in between. *)
Ltac break :=
  repeat (cbn; match goal with
  | |- context [if ?b then _ else _] => simple_scrutinee b; destruct b eqn:?
  | |- context [match ?x with _ => _ end] => simple_scrutinee x; destruct x eqn:?
  end).

Ltac run_m := unfold exec, bind, skip, ret, when; cbn.

Lemma exec_bind {A B} (m : M A) (k : A -> M B) w :
  exec (bind m k) w = exec (k (fst (m w))) (snd (m w)).
Proof. unfold exec, bind. destruct (m w); reflexivity. Qed.

Lemma exec_seq {B} (m : M unit) (k : M B) w :
  exec (m ;; k) w = exec k (exec m w).
Proof. apply exec_bind. Qed.

(** ** The round number guard *)

Lemma stale_iff roundId r :
  stale roundId r = false <-> isMounted r = true /\ roundIdRef r = roundId.
Proof.
  unfold stale. destruct (isMounted r); simpl.
  - destruct (Z.eqb_spec (roundIdRef r) roundId); simpl; intuition congruence.
  - intuition congruence.
Qed.

Lemma stale_other roundId r : roundIdRef r <> roundId -> stale roundId r = true.
Proof.
  intros H. destruct (stale roundId r) eqn:E; [reflexivity|].
  apply stale_iff in E. tauto.
Qed.

Lemma resume_stale w roundId s a :
  roundIdRef (refs w) <> roundId ->
  exec (resume s (AwaitGameData roundId a)) w = w.
Proof.
  intros H. destruct s; simpl;
  unfold startNewGame_fulfilled, startNewGame_rejected, exec, bind; simpl;
  rewrite (stale_other _ _ H); reflexivity.
Qed.

Lemma resume_unmounted w s t :
  isMounted (refs w) = false -> exec (resume s t) w = w.
Proof.
  intros H. destruct t, s; simpl;
  unfold startNewGame_fulfilled, startNewGame_rejected, prefetchFulfilled,
    prefetchRejected, wrongGuessTimeout, stale, exec, bind; simpl;
  rewrite H; reflexivity.
Qed.

(** The world a committed fetch leaves behind. *)
Lemma resume_fulfilled_current w a data :
  isMounted (refs w) = true ->
  exec (resume (Fulfilled data) (AwaitGameData (roundIdRef (refs w)) a)) w =
  mkWorld
    (mkVars (pastConcepts (vars w) ++ [GameData.concept data]) PLAYING
            (GameData.imageUrl data) (imageStyle (vars w)) (GameData.concept data)
            (GameData.explanation data) (guessValue (vars w)) (isWrongGuess (vars w))
            ROUND_TIME (error (vars w)) (loadingMessage (vars w)) (score (vars w))
            (level (vars w)) (prefetchedGameData (vars w)))
    (refs w) (pending w) (settled w) (intervals w)
    (trace w ++ [SendGameEvent
                   (toAI (ImageCreated (GameData.concept data) (GameData.explanation data)))])
    (requests w) (nextId w).
Proof.
  intros H. destruct w as [v [g i t m] ? ? ? ? ? ?]; simpl in H; subst m.
  simpl. unfold startNewGame_fulfilled, handleGameData, stale, exec, bind; simpl.
  rewrite Z.eqb_refl; simpl. rewrite Z.eqb_refl. reflexivity.
Qed.

Lemma resume_rejected_current w a e :
  isMounted (refs w) = true ->
  exec (resume (Rejected e) (AwaitGameData (roundIdRef (refs w)) a)) w =
  mkWorld
    (mkVars (pastConcepts (vars w)) IDLE (imageUrl (vars w)) (imageStyle (vars w))
            (answer (vars w)) (explanation (vars w)) (guessValue (vars w))
            (isWrongGuess (vars w)) (timeLeft (vars w))
            (Some (match e with
                   | ErrorObject message => message
                   | NotAnError => "An unknown error occurred."
                   end))
            (loadingMessage (vars w)) (score (vars w)) (level (vars w)) None)
    (mkRefs None (roundIdRef (refs w)) (timerRef (refs w)) (isMounted (refs w)))
    (pending w) (settled w) (intervals w) (trace w) (requests w) (nextId w).
Proof.
  intros H. destruct w as [v [g i t m] ? ? ? ? ? ?]; simpl in H; subst m.
  simpl. unfold startNewGame_rejected, stale, exec, bind; simpl.
  rewrite Z.eqb_refl. reflexivity.
Qed.

(** ** Preservation of the invariant *)

Lemma awaitedRounds_app a b :
  awaitedRounds (a ++ b) = (awaitedRounds a ++ awaitedRounds b)%list.
Proof.
  induction a as [|t a IH]; simpl; [reflexivity|].
  destruct t; simpl; rewrite IH; reflexivity.
Qed.

Lemma NoDup_snoc (x : Z) l : NoDup l -> ~ In x l -> NoDup (l ++ [x]).
Proof.
  intros Hl Hx. apply NoDup_app; [assumption | repeat constructor; auto | ].
  intros y Hy [<-|[]]. contradiction.
Qed.

Lemma in_filter_neq (id i : nat) l :
  In i (List.filter (fun j => negb (Nat.eqb j id)) l) -> In i l /\ i <> id.
Proof.
  intros H. apply filter_In in H. destruct H as [H1 H2]. split; [assumption|].
  apply negb_true_iff in H2. apply Nat.eqb_neq in H2. assumption.
Qed.

Lemma TimerInv_cleared w w' id :
  TimerInv w -> timerRef (refs w) = Some id ->
  intervals w' = List.filter (fun j => negb (Nat.eqb j id)) (intervals w) ->
  TimerInv w'.
Proof.
  intros Ht E Hi i H. rewrite Hi in H. apply in_filter_neq in H as [H1 H2].
  apply Ht in H1. congruence.
Qed.

Lemma TimerInv_none w w' :
  TimerInv w -> timerRef (refs w) = None -> intervals w' = intervals w -> TimerInv w'.
Proof.
  intros Ht E Hi i H. rewrite Hi in H. apply Ht in H. congruence.
Qed.

Lemma TimerInv_same w w' :
  TimerInv w -> timerRef (refs w') = timerRef (refs w) -> intervals w' = intervals w ->
  TimerInv w'.
Proof. intros Ht E Hi i H. rewrite Hi in H. rewrite E. auto. Qed.

Lemma InvR_perm rs rs' w : Permutation rs rs' -> InvR rs w -> InvR rs' w.
Proof.
  intros P [Hl Ht Hle Hnd Hb Hlo]. constructor; auto.
  - intros r Hr. apply Hle. eapply Permutation_in; [symmetry|]; eassumption.
  - eapply Permutation_NoDup; eassumption.
  - intros H. apply Hlo. eapply Permutation_in; [symmetry|]; eassumption.
Qed.

Lemma InvR_tail r rs w : InvR (r :: rs) w -> InvR rs w.
Proof.
  intros [Hl Ht Hle Hnd Hb Hlo]. constructor; auto.
  - intros x Hx. apply Hle. right; assumption.
  - inversion Hnd; assumption.
  - intros H. apply Hlo. right; assumption.
Qed.

(** Solves the six parts of [InvR] after a handler has been run on a
    world given by its fields. *)
Ltac inv_parts Hl Ht Hle Hnd Hb Hlo :=
  constructor; cbn; rewrite ?awaitedRounds_app; cbn; rewrite ?app_nil_r;
  [ try assumption; try reflexivity
  | first [ assumption
          | eapply TimerInv_cleared; [exact Ht | cbn; eassumption | reflexivity]
          | eapply TimerInv_none; [exact Ht | cbn; eassumption | reflexivity]
          | eapply TimerInv_same; [exact Ht | reflexivity | reflexivity]
          | idtac ]
  | first [ assumption
          | intros x Hx; apply Hle in Hx; lia
          | intros x Hx; apply in_app_iff in Hx; destruct Hx as [Hx|[Hx|[]]];
            [apply Hle in Hx; lia | lia]
          | idtac ]
  | first [ assumption
          | apply NoDup_snoc; [assumption | intros Hx; apply Hle in Hx; lia]
          | idtac ]
  | first [ assumption
          | unfold Bounded, answerSanitizedLength; cbn; lia
          | idtac ]
  | first [ assumption
          | intros Hx; apply Hle in Hx; lia
          | intros Hx; apply in_app_iff in Hx; destruct Hx as [Hx|[Hx|[]]];
            [apply Hle in Hx; lia | auto]
          | idtac ] ].

Lemma startNewGame_inv w : Inv w -> Inv (exec (startNewGame (vars w)) w).
Proof.
  intros [Hl Ht Hle Hnd Hb Hlo]. unfold Inv.
  unfold startNewGame, cleanupTimer, getNewGameData, handleGameEvent, stale. run_m.
  destruct w as [v r p s i t q n]; cbn in *.
  break; rewrite ?awaitedRounds_app; cbn; rewrite ?app_nil_r.
  all: inv_parts Hl Ht Hle Hnd Hb Hlo.
Qed.

Lemma handleResetGame_inv w : Inv w -> Inv (exec handleResetGame w).
Proof.
  intros [Hl Ht Hle Hnd Hb Hlo]. unfold Inv.
  unfold handleResetGame, cleanupTimer. run_m.
  destruct w as [v r p s i t q n]; cbn in *.
  break; inv_parts Hl Ht Hle Hnd Hb Hlo.
Qed.

Lemma slice0_bounded n s : (String.length (Js.slice0 n s) <= n)%nat.
Proof. rewrite length_slice0. lia. Qed.

Lemma handleInput_inv w rawValue : Inv w -> Inv (exec (handleInput (vars w) rawValue) w).
Proof.
  intros [Hl Ht Hle Hnd Hb Hlo]. unfold Inv.
  unfold handleInput, handleGuessChange, isDisabled. run_m.
  destruct w as [v r p s i t q n]; cbn in *.
  break; try (constructor; assumption).
  constructor; cbn; try assumption.
  - apply slice0_bounded.
  - intros Hx. apply Hlo in Hx as [Hx _]. rewrite Hx in *. discriminate.
Qed.

Lemma setImageStyle_inv w style : Inv w -> Inv (exec (setImageStyle style) w).
Proof.
  intros [Hl Ht Hle Hnd Hb Hlo]. unfold Inv. run_m.
  destruct w as [v r p s i t q n]; cbn in *.
  inv_parts Hl Ht Hle Hnd Hb Hlo.
Qed.

Lemma tick_inv w id : Inv w -> Inv (exec (tick id) w).
Proof.
  intros [Hl Ht Hle Hnd Hb Hlo]. unfold Inv, tick, exec.
  destruct (existsb (Nat.eqb id) (intervals w)); [|constructor; assumption].
  destruct w as [v r p s i t q n]; cbn in *.
  inv_parts Hl Ht Hle Hnd Hb Hlo.
Qed.

Lemma unmount_inv w : Inv w -> Inv (exec unmount w).
Proof.
  intros [Hl Ht Hle Hnd Hb Hlo]. unfold Inv, unmount, cleanupTimer. run_m.
  destruct w as [v r p s i t q n]; cbn in *.
  break; inv_parts Hl Ht Hle Hnd Hb Hlo.
Qed.

(** *** Continuations *)

Lemma resume_pending s t w : pending (exec (resume s t) w) = pending w.
Proof.
  destruct t, s; simpl;
  unfold startNewGame_fulfilled, startNewGame_rejected, handleGameData, prefetchFulfilled,
    prefetchRejected, wrongGuessTimeout, handleGameEvent; run_m; break; reflexivity.
Qed.

Lemma resume_await_inv s roundId a rs w :
  InvR (roundId :: rs) w -> InvR rs (exec (resume s (AwaitGameData roundId a)) w).
Proof.
  intros H. destruct (Z.eq_dec (roundIdRef (refs w)) roundId) as [<-|Hne].
  - destruct (isMounted (refs w)) eqn:Hm.
    + destruct H as [Hl Ht Hle Hnd Hb Hlo].
      destruct (Hlo (or_introl eq_refl)) as [Hs Hg].
      assert (Hfresh : ~ In (roundIdRef (refs w)) rs) by (inversion Hnd; assumption).
      assert (Hrs : NoDup rs) by (inversion Hnd; assumption).
      destruct s; [rewrite resume_fulfilled_current by assumption
                  |rewrite resume_rejected_current by assumption].
      all: constructor; cbn;
        [ exact Hl
        | eapply TimerInv_same; [exact Ht | reflexivity | reflexivity]
        | intros x Hx; apply Hle; right; assumption
        | exact Hrs
        | unfold Bounded; cbn; rewrite Hg; cbn; lia
        | intros Hx; contradiction ].
    + rewrite resume_unmounted by assumption. eapply InvR_tail; eassumption.
  - rewrite resume_stale by assumption. eapply InvR_tail; eassumption.
Qed.

Lemma resume_other_inv s t rs w :
  isAwait t = false -> InvR rs w -> InvR rs (exec (resume s t) w).
Proof.
  intros Ha [Hl Ht Hle Hnd Hb Hlo].
  destruct t; [discriminate| |]; destruct s; simpl;
  unfold prefetchFulfilled, prefetchRejected, wrongGuessTimeout; run_m;
  destruct w as [v r p0 s0 i t0 q n]; cbn in *;
  break; try (constructor; assumption);
  inv_parts Hl Ht Hle Hnd Hb Hlo.
  all: intros Hx; apply Hlo in Hx; tauto.
Qed.

Lemma InvR_frame rs w w' :
  vars w' = vars w -> refs w' = refs w -> intervals w' = intervals w ->
  InvR rs w -> InvR rs w'.
Proof.
  intros Hv Hr Hi [Hl Ht Hle Hnd Hb Hlo].
  constructor; rewrite ?Hv, ?Hr; auto.
  intros id H. rewrite Hi in H. rewrite Hr. auto.
Qed.

Lemma resumeAll_pending s ts w : pending (exec (resumeAll s ts) w) = pending w.
Proof.
  revert w; induction ts as [|t ts IH]; intros w; simpl; [reflexivity|].
  rewrite exec_seq, IH. apply resume_pending.
Qed.

Lemma resumeAll_inv s ts rs w :
  InvR (awaitedRounds ts ++ rs) w -> InvR rs (exec (resumeAll s ts) w).
Proof.
  revert w; induction ts as [|t ts IH]; intros w H; simpl; [exact H|].
  rewrite exec_seq. apply IH.
  destruct t as [roundId a|q|d]; simpl in H |- *.
  - apply (resume_await_inv s roundId a) in H. exact H.
  - apply (resume_other_inv s (PrefetchReaction q)); auto.
  - apply (resume_other_inv s (WrongGuessTimeout d)); auto.
Qed.

Lemma awaitedRounds_split f ts :
  Permutation (awaitedRounds ts)
    (awaitedRounds (List.filter f ts)
     ++ awaitedRounds (List.filter (fun t => negb (f t)) ts)).
Proof.
  induction ts as [|t ts IH]; simpl; [constructor|].
  destruct (f t); simpl; destruct t; simpl; auto.
  apply Permutation_cons_app. exact IH.
Qed.

Lemma awaitedRounds_reactions p s ts :
  Permutation (awaitedRounds (List.filter (awaits p) ts)) (awaitedRounds (reactions p s ts)).
Proof.
  unfold reactions. destruct s; [reflexivity|].
  rewrite awaitedRounds_app. apply awaitedRounds_split.
Qed.

Lemma settle_inv p s w : Inv w -> Inv (exec (settle p s) w).
Proof.
  intros H. unfold settle, exec.
  destruct (issued p w && negb (isSome (outcome p (settled w)))); [|exact H].
  change (Inv (exec (recordSettled p s ;;
                     onPending (List.filter (fun t => negb (awaits p t))) ;;
                     resumeAll s (reactions p s (pending w))) w)).
  rewrite !exec_seq. unfold Inv. rewrite resumeAll_pending.
  apply resumeAll_inv.
  eapply InvR_frame with (w := w); try reflexivity.
  eapply InvR_perm; [|exact H].
  etransitivity; [apply (awaitedRounds_split (awaits p))|].
  apply Permutation_app; [apply awaitedRounds_reactions|reflexivity].
Qed.

Lemma pick_split ready ts t rest :
  pick ready ts = Some (t, rest) -> Permutation (awaitedRounds ts) (awaitedRounds (t :: rest)).
Proof.
  revert t rest; induction ts as [|x ts IH]; intros t rest; simpl; [discriminate|].
  destruct (ready x).
  - intros [= <- <-]. reflexivity.
  - destruct (pick ready ts) as [[t' rest']|]; [|discriminate].
    intros [= <- <-]. specialize (IH _ _ eq_refl).
    destruct x, t'; simpl in *; auto.
    + etransitivity; [apply perm_skip, IH|]. apply perm_swap.
Qed.

Lemma resume_picked_inv s t rest w :
  Permutation (awaitedRounds (pending w)) (awaitedRounds (t :: rest)) ->
  Inv w -> Inv (exec (onPending (fun _ => rest) ;; resume s t) w).
Proof.
  intros P H. rewrite exec_seq. unfold Inv. rewrite resume_pending.
  change (pending (exec (onPending (fun _ => rest)) w)) with rest.
  eapply InvR_perm in H; [|exact P].
  apply InvR_frame with (w' := exec (onPending (fun _ => rest)) w) in H; try reflexivity.
  destruct t as [roundId a|q|d]; simpl awaitedRounds in H.
  - apply (resume_await_inv s roundId a) in H. exact H.
  - apply (resume_other_inv s (PrefetchReaction q)); auto.
  - apply (resume_other_inv s (WrongGuessTimeout d)); auto.
Qed.

Lemma microtask_inv w : Inv w -> Inv (exec microtask w).
Proof.
  intros H. unfold microtask, exec.
  destruct (pick _ (pending w)) as [[t rest]|] eqn:E; [|exact H].
  destruct (available (settled w) t) as [s|]; [|exact H].
  apply resume_picked_inv; [eapply pick_split; eassumption | exact H].
Qed.

Lemma timeout_inv w : Inv w -> Inv (exec timeout w).
Proof.
  intros H. unfold timeout, exec.
  destruct (pick isTimeout (pending w)) as [[t rest]|] eqn:E; [|exact H].
  apply (resume_picked_inv (Rejected NotAnError) (WrongGuessTimeout 0)); [|exact H].
  etransitivity; [eapply pick_split; eassumption|].
  assert (Ht : isTimeout t = true).
  { clear H. revert t rest E. induction (pending w) as [|x ts IH]; simpl; [discriminate|].
    intros t rest. destruct (isTimeout x) eqn:Ex.
    - intros [= <- <-]. exact Ex.
    - destruct (pick isTimeout ts) as [[t' rest']|]; [|discriminate].
      intros [= <- <-]. eapply IH; reflexivity. }
  destruct t; try discriminate. reflexivity.
Qed.

Lemma level_after_win sc lv :
  lv = sc / 5 + 1 -> ((sc + 1) / 5 + 1 >? lv) = false -> lv = (sc + 1) / 5 + 1.
Proof.
  intros -> H. rewrite Z.gtb_ltb, Z.ltb_ge in H.
  assert (sc / 5 <= (sc + 1) / 5) by (apply Z.div_le_mono; lia).
  lia.
Qed.

(** *** Effects *)

Lemma Link_start w : Inv w -> Link (vars w) w.
Proof. intros H. repeat split. intros Hx. apply (inv_loading _ _ H) in Hx. tauto. Qed.

Lemma styleEffect_pass prev cur w :
  Inv w -> Link cur w ->
  Inv (exec (styleEffect prev cur) w) /\ Link cur (exec (styleEffect prev cur) w).
Proof.
  intros [Hl Ht Hle Hnd Hb Hlo] (L1 & L2 & L3). unfold Inv, Link.
  unfold styleEffect, invalidatePrefetch. run_m.
  destruct w as [v r p s i t q n]; cbn in *.
  break; (split; [inv_parts Hl Ht Hle Hnd Hb Hlo | cbn; auto]).
Qed.

Ltac timer_tac Ht :=
  let id := fresh "id" in
  let Hin := fresh "Hin" in
  intros id Hin; cbn in Hin |- *;
  repeat match goal with
  | H : In _ (_ ++ _) |- _ => apply in_app_iff in H; destruct H as [H|H]
  | H : In _ (List.filter _ _) |- _ => apply in_filter_neq in H; destruct H as [H ?]
  | H : In _ [_] |- _ => destruct H as [H|[]]
  end;
  try (apply Ht in Hin; cbn in Hin); congruence.

(** The render saw a status other than [LOADING], so no suspended call
    holds the current round number. *)
Ltac not_loading L3 :=
  let Hx := fresh "Hx" in
  intros Hx; apply L3 in Hx; rewrite Hx in *; cbn in *;
  rewrite ?andb_false_r in *; discriminate.

Lemma timerEffect_pass prev cur w :
  Inv w -> Link cur w ->
  Inv (exec (timerEffect prev cur) w) /\ Link cur (exec (timerEffect prev cur) w).
Proof.
  intros [Hl Ht Hle Hnd Hb Hlo] (L1 & L2 & L3). unfold Inv, Link.
  unfold timerEffect, handleTimeUp, cleanupTimer, handleGameEvent. run_m.
  destruct w as [v r p s i t q n]; cbn in *.
  break; (split; [inv_parts Hl Ht Hle Hnd Hb Hlo | cbn; auto]).
  all: first [timer_tac Ht | not_loading L3].
Qed.

Lemma guessEffect_inv prev cur w :
  Inv w -> Link cur w -> Inv (exec (guessEffect prev cur) w).
Proof.
  intros [Hl Ht Hle Hnd Hb Hlo] (L1 & L2 & L3). unfold Inv.
  unfold guessEffect, evaluateGuess, handleCorrectGuess, handleIncorrectGuess,
    cleanupTimer, handleGameEvent. run_m.
  destruct w as [v r p s i t q n]; cbn in *.
  break; inv_parts Hl Ht Hle Hnd Hb Hlo.
  all: try (timer_tac Ht).
  all: try (not_loading L3).
  all: unfold LevelInv in *; cbn; rewrite L2; apply level_after_win;
    [rewrite <- L1, <- L2; assumption | assumption].
Qed.

Lemma prefetchEffect_inv prev cur w :
  Inv w -> Inv (exec (prefetchEffect prev cur) w).
Proof.
  intros [Hl Ht Hle Hnd Hb Hlo]. unfold Inv.
  unfold prefetchEffect, prefetchNextRound, getNewGameData. run_m.
  destruct w as [v r p s i t q n]; cbn in *.
  break; inv_parts Hl Ht Hle Hnd Hb Hlo.
Qed.

Lemma effects_inv prev w : Inv w -> Inv (exec (effects prev (vars w)) w).
Proof.
  intros H. pose proof (Link_start w H) as L. unfold effects.
  rewrite !exec_seq.
  destruct (styleEffect_pass prev (vars w) w H L) as [H1 L1].
  destruct (timerEffect_pass prev (vars w) _ H1 L1) as [H2 L2].
  apply prefetchEffect_inv, guessEffect_inv; assumption.
Qed.

Lemma render_inv n prev w : Inv w -> Inv (render n prev w).
Proof.
  revert prev w; induction n as [|n IH]; intros prev w H; simpl; [exact H|].
  apply IH, effects_inv, H.
Qed.

Lemma handle_inv e w : Inv w -> Inv (exec (handle e (vars w)) w).
Proof.
  destruct e; simpl.
  - apply startNewGame_inv.
  - apply handleResetGame_inv.
  - apply handleInput_inv.
  - apply setImageStyle_inv.
  - apply tick_inv.
  - apply settle_inv.
  - apply microtask_inv.
  - apply timeout_inv.
  - apply unmount_inv.
Qed.

Lemma step_inv e w : Inv w -> Inv (step e w).
Proof.
  intros H. unfold step. destruct (isMounted (refs w)).
  - destruct e; try (apply render_inv, handle_inv, H). apply unmount_inv, H.
  - destruct (fromPage e); [exact H | apply handle_inv, H].
Qed.

Lemma initial_inv : Inv initial.
Proof.
  constructor; simpl.
  - reflexivity.
  - intros id [].
  - intros r [].
  - constructor.
  - unfold Bounded; simpl; lia.
  - intros [].
Qed.

Lemma run_inv es w : Inv w -> Inv (run es w).
Proof.
  revert w; induction es as [|e es IH]; intros w H; simpl; [exact H|].
  apply IH, step_inv, H.
Qed.

Lemma reachable_inv es : Inv (run es initial).
Proof. apply run_inv, initial_inv. Qed.

(** ** Renders come to rest *)

Lemma Moved_refl c : Moved c c.
Proof. constructor; auto; intros; tauto. Qed.

Ltac moved_parts H :=
  destruct H as [M1 M2 M3 M4 M5 M6 M7 M8 M9];
  constructor; cbn in *; auto; try tauto; try congruence.

Lemma styleEffect_moved prev cur c w :
  Moved c (vars w) /\ SameScore c (vars w) ->
  Moved c (vars (exec (styleEffect prev cur) w))
  /\ SameScore c (vars (exec (styleEffect prev cur) w)).
Proof.
  intros [H [S1 S2]]. unfold SameScore, styleEffect, invalidatePrefetch. run_m.
  destruct w as [v r p s i t q n]; cbn in *.
  break; (split; [try exact H; moved_parts H | cbn; auto]).
Qed.

Lemma timerEffect_moved prev cur c w :
  Moved c (vars w) /\ SameScore c (vars w) ->
  Moved c (vars (exec (timerEffect prev cur) w))
  /\ SameScore c (vars (exec (timerEffect prev cur) w)).
Proof.
  intros [H [S1 S2]]. unfold SameScore, timerEffect, handleTimeUp, cleanupTimer, handleGameEvent.
  run_m. destruct w as [v r p s i t q n]; cbn in *.
  break; (split; [try exact H; moved_parts H | cbn; auto]).
Qed.

Lemma guessEffect_moved prev c w :
  Moved c (vars w) /\ SameScore c (vars w) ->
  Moved c (vars (exec (guessEffect prev c) w)).
Proof.
  intros [H [S1 S2]]. unfold guessEffect, evaluateGuess, handleCorrectGuess,
    handleIncorrectGuess, cleanupTimer, handleGameEvent.
  run_m. destruct w as [v r p s i t q n]; cbn in *.
  break; try exact H; moved_parts H.
Qed.

Lemma prefetchEffect_vars prev cur w :
  vars (exec (prefetchEffect prev cur) w) = vars w
  /\ trace (exec (prefetchEffect prev cur) w) = trace w.
Proof.
  unfold prefetchEffect, prefetchNextRound, getNewGameData. run_m.
  break; split; reflexivity.
Qed.

Lemma effects_moved prev w : Moved (vars w) (vars (exec (effects prev (vars w)) w)).
Proof.
  unfold effects. rewrite !exec_seq, (proj1 (prefetchEffect_vars _ _ _)).
  apply guessEffect_moved, timerEffect_moved, styleEffect_moved.
  split; [apply Moved_refl | split; reflexivity].
Qed.

Lemma Quiet_trans a b c : Quiet a b -> Quiet b c -> Quiet a c.
Proof. intros [V1 T1] [V2 T2]. split; congruence. Qed.

Lemma styleEffect_quiet prev cur w :
  Moved prev cur -> Quiet w (exec (styleEffect prev cur) w).
Proof.
  intros H. unfold styleEffect. rewrite <- (moved_style _ _ H), String.eqb_refl.
  split; reflexivity.
Qed.

Lemma timerEffect_quiet prev cur w :
  Moved prev cur -> Quiet w (exec (timerEffect prev cur) w).
Proof.
  intros H. unfold Quiet, timerEffect, same_handleTimeUp, handleTimeUp, cleanupTimer,
    handleGameEvent.
  destruct H as [M1 M2 M3 M4 M5 M6 M7 M8 M9].
  rewrite M2, M3, M5, !String.eqb_refl, Z.eqb_refl.
  destruct M7 as [M7|[M7|M7]]; rewrite M7; rewrite ?GameStatus_eqb_refl; cbn;
  run_m; break;
  first [ split; reflexivity
        | match goal with
          | H : _ && false = true |- _ => rewrite andb_false_r in H; discriminate H
          end ].
Qed.

Lemma guessEffect_quiet prev cur w :
  Moved prev cur -> Quiet w (exec (guessEffect prev cur) w).
Proof.
  intros H. unfold Quiet, guessEffect, same_handleCorrectGuess, evaluateGuess.
  destruct H as [M1 M2 M3 M4 M5 M6 M7 M8 M9].
  rewrite M2, M3, M4, !String.eqb_refl.
  destruct (GameStatus_eqb_spec (gameStatus cur) PLAYING) as [E|E]; cbn;
    [|break; split; reflexivity].
  destruct (isWrongGuess cur) eqn:F; rewrite ?orb_true_r; [break; split; reflexivity|].
  assert (S1 : score cur = score prev /\ level cur = level prev).
  { destruct (Z.eq_dec (score cur) (score prev)), (Z.eq_dec (level cur) (level prev));
      try tauto; assert (gameStatus cur = WON) by (apply M8; tauto); congruence. }
  assert (F1 : isWrongGuess prev = false).
  { destruct (isWrongGuess prev) eqn:F1; [|reflexivity].
    assert (false = true) by (apply M9; discriminate). discriminate. }
  assert (G1 : gameStatus prev = PLAYING).
  { destruct M7 as [M7|[M7|M7]]; congruence. }
  destruct S1 as [-> ->]. rewrite F1, G1, E, !Z.eqb_refl. split; reflexivity.
Qed.

Lemma effects_quiet prev cur w :
  Moved prev cur -> Quiet w (exec (effects prev cur) w).
Proof.
  intros H. unfold effects. rewrite !exec_seq.
  eapply Quiet_trans; [apply styleEffect_quiet, H|].
  eapply Quiet_trans; [apply timerEffect_quiet, H|].
  eapply Quiet_trans; [apply guessEffect_quiet, H|].
  apply prefetchEffect_vars.
Qed.

(** Two commits after a handler reach a render whose effects have
    nothing left to do: further commits change nothing. *)
Lemma render_settles n prev w : render (2 + n) prev w = render 2 prev w.
Proof.
  simpl.
  set (w1 := exec (effects prev (vars w)) w).
  set (w2 := exec (effects (vars w) (vars w1)) w1).
  assert (E : vars w2 = vars w1) by (apply effects_quiet, effects_moved).
  rewrite <- E. apply render_unchanged.
Qed.

(** The state variables and the notifications of an event are those of
    its handler and the first commit. *)
Lemma render_first_commit prev w :
  Quiet (exec (effects prev (vars w)) w) (render 2 prev w).
Proof. apply effects_quiet, effects_moved. Qed.

(** ** Commits that leave the dependencies of every effect alone *)

Lemma timerEffect_skip prev cur w :
  gameStatus prev = gameStatus cur -> timeLeft prev = timeLeft cur ->
  answer prev = answer cur -> explanation prev = explanation cur ->
  exec (timerEffect prev cur) w = w.
Proof.
  intros E0 E3 E1 E2. unfold timerEffect, same_handleTimeUp.
  rewrite E0, E1, E2, E3, GameStatus_eqb_refl, Z.eqb_refl, !String.eqb_refl. reflexivity.
Qed.

Lemma guessEffect_skip prev cur w :
  gameStatus prev = gameStatus cur -> guessValue prev = guessValue cur ->
  answer prev = answer cur -> explanation prev = explanation cur ->
  score prev = score cur -> level prev = level cur ->
  isWrongGuess prev = isWrongGuess cur ->
  exec (guessEffect prev cur) w = w.
Proof.
  intros E1 E2 E3 E4 E5 E6 E7. unfold guessEffect, same_handleCorrectGuess.
  rewrite E1, E2, E3, E4, E5, E6, E7, GameStatus_eqb_refl, !Z.eqb_refl, !String.eqb_refl,
    Bool.eqb_reflx.
  reflexivity.
Qed.

Lemma prefetchEffect_skip prev cur w :
  gameStatus prev = gameStatus cur -> pastConcepts prev = pastConcepts cur ->
  answer prev = answer cur -> imageStyle prev = imageStyle cur ->
  exec (prefetchEffect prev cur) w = w.
Proof.
  intros E1 E2 E3 E4. unfold prefetchEffect, same_prefetchNextRound.
  rewrite E1, E2, E3, E4, GameStatus_eqb_refl, strings_eqb_refl, !String.eqb_refl.
  reflexivity.
Qed.

Lemma effects_skip prev cur w : sameDeps prev cur -> exec (effects prev cur) w = w.
Proof.
  intros (E1 & E2 & E3 & E4 & E5 & E6 & E7 & E8 & E9 & E10).
  unfold effects. rewrite !exec_seq.
  unfold styleEffect at 1. rewrite E3, String.eqb_refl.
  change (exec skip w) with w.
  rewrite timerEffect_skip, guessEffect_skip, prefetchEffect_skip by assumption.
  reflexivity.
Qed.

Lemma invalidatePrefetch_clears c w :
  prefetchedGameData (vars w) = prefetchedGameData c ->
  let w' := exec (invalidatePrefetch c) w in
  prefetchedGameData (vars w') = None /\ nextGamePromiseRef (refs w') = None
  /\ requests w' = requests w /\ sameDeps (vars w) (vars w').
Proof.
  intros E. unfold invalidatePrefetch. run_m.
  destruct w as [v [g i t m] pd sd iv tr q n]; cbn in *.
  destruct (prefetchedGameData c) as [d|], g as [p|]; cbn; rewrite ?E; repeat split.
Qed.

Lemma prefetchEffect_slot prev cur w :
  nextGamePromiseRef (refs w) = None ->
  let w' := exec (prefetchEffect prev cur) w in
  vars w' = vars w
  /\ (nextGamePromiseRef (refs w') = None
      \/ nextGamePromiseRef (refs w') = Some (List.length (requests w))).
Proof.
  intros E. destruct w as [v [g i t m] pd sd iv tr q n]; cbn in E; subst g.
  unfold prefetchEffect, prefetchNextRound, getNewGameData. run_m.
  break; cbn; auto.
Qed.

Lemma render_2 prev w :
  render 2 prev w =
  exec (effects (vars w) (vars (exec (effects prev (vars w)) w)))
       (exec (effects prev (vars w)) w).
Proof. reflexivity. Qed.

Lemma styleEffect_changed prev cur :
  imageStyle prev <> imageStyle cur -> styleEffect prev cur = invalidatePrefetch cur.
Proof.
  intros H. unfold styleEffect.
  destruct (String.eqb_spec (imageStyle prev) (imageStyle cur)); [contradiction|reflexivity].
Qed.

(** The commit after a change of style, and of nothing else. *)
Lemma style_commit prev w :
  imageStyle prev <> imageStyle (vars w) ->
  gameStatus prev = gameStatus (vars w) -> timeLeft prev = timeLeft (vars w) ->
  answer prev = answer (vars w) -> explanation prev = explanation (vars w) ->
  guessValue prev = guessValue (vars w) -> isWrongGuess prev = isWrongGuess (vars w) ->
  score prev = score (vars w) -> level prev = level (vars w) ->
  let w' := exec (effects prev (vars w)) w in
  prefetchedGameData (vars w') = None
  /\ sameDeps (vars w) (vars w')
  /\ (nextGamePromiseRef (refs w') = None
      \/ nextGamePromiseRef (refs w') = Some (List.length (requests w))).
Proof.
  intros Hne E1 E2 E3 E4 E5 E6 E7 E8 w'. subst w'.
  unfold effects. rewrite !exec_seq, styleEffect_changed by exact Hne.
  destruct (invalidatePrefetch_clears (vars w) w eq_refl) as (A1 & A2 & A3 & A4).
  rewrite timerEffect_skip, guessEffect_skip by assumption.
  destruct (prefetchEffect_slot prev (vars w) _ A2) as (B1 & B2).
  split; [rewrite B1; exact A1|]. split; [rewrite B1; exact A4|].
  rewrite A3 in B2. exact B2.
Qed.

(** A change of style leaves no handle issued before it in the slot. *)
Lemma style_change_drops_handle w style p :
  isMounted (refs w) = true ->
  style <> imageStyle (vars w) ->
  (p < List.length (requests w))%nat ->
  nextGamePromiseRef (refs (step (ChangeStyle style) w)) <> Some p
  /\ prefetchedGameData (vars (step (ChangeStyle style) w)) = None.
Proof.
  intros Hm Hne Hp. unfold step. rewrite Hm.
  change (handle (ChangeStyle style) (vars w)) with (setImageStyle style).
  rewrite render_2.
  destruct (style_commit (vars w) (exec (setImageStyle style) w)) as (A1 & A2 & A3);
    try reflexivity.
  { cbn. congruence. }
  rewrite effects_skip by exact A2.
  split; [|exact A1].
  destruct A3 as [A3|A3]; rewrite A3; [discriminate|].
  intros [= H]. change (requests (exec (setImageStyle style) w)) with (requests w) in H.
  lia.
Qed.

(** ** Handlers and events, as equations *)

Lemma startNewGame_loading w :
  gameStatus (vars w) = LOADING ->
  exec (startNewGame (vars w)) w =
  mkWorld (vars w)
          (mkRefs (nextGamePromiseRef (refs w)) (roundIdRef (refs w) + 1)
                  (timerRef (refs w)) (isMounted (refs w)))
          (pending w) (settled w) (intervals w) (trace w) (requests w) (nextId w).
Proof.
  intros H. unfold startNewGame, exec, bind; simpl. rewrite H. reflexivity.
Qed.

Lemma handleResetGame_vars w :
  vars (exec handleResetGame w) =
  mkVars [] IDLE "" (imageStyle (vars w)) "" "" "" false ROUND_TIME None "" 0 1
         (prefetchedGameData (vars w)).
Proof. unfold handleResetGame, cleanupTimer. run_m. break; reflexivity. Qed.

Lemma handleResetGame_refs w :
  refs (exec handleResetGame w) =
  mkRefs (nextGamePromiseRef (refs w)) (roundIdRef (refs w) + 1) None (isMounted (refs w)).
Proof. unfold handleResetGame, cleanupTimer. run_m. break; reflexivity. Qed.

Lemma handleResetGame_intervals w :
  TimerInv w -> intervals (exec handleResetGame w) = [].
Proof.
  intros Ht.
  assert (H : forall id, ~ In id (intervals (exec handleResetGame w))).
  { unfold handleResetGame, cleanupTimer. run_m. break; cbn; intros id Hin.
    - apply in_filter_neq in Hin as [Hin Hne]. apply Ht in Hin. congruence.
    - apply Ht in Hin. congruence. }
  destruct (intervals (exec handleResetGame w)) as [|id l]; [reflexivity|].
  exfalso. apply (H id). left; reflexivity.
Qed.

(** A commit in which the render is [IDLE], no interval is referenced and
    the style is the one of the previous render runs no effect. *)
Lemma effects_idle prev cur w :
  gameStatus cur = IDLE -> imageStyle prev = imageStyle cur ->
  timerRef (refs w) = None ->
  exec (effects prev cur) w = w.
Proof.
  intros Hs Hi Ht. unfold effects. rewrite !exec_seq.
  assert (S : styleEffect prev cur = skip).
  { unfold styleEffect. rewrite Hi, String.eqb_refl. reflexivity. }
  rewrite S. change (exec skip w) with w.
  assert (T : exec (timerEffect prev cur) w = w).
  { destruct w as [v [g i t m] pd sd iv tr q n]; cbn in Ht; subst t.
    unfold timerEffect. rewrite Hs. run_m.
    destruct (_ && _); cbn; [reflexivity|].
    rewrite andb_false_r. reflexivity. }
  rewrite T.
  assert (G : exec (guessEffect prev cur) w = w).
  { unfold guessEffect, evaluateGuess. rewrite Hs. destruct (_ && _); reflexivity. }
  rewrite G.
  unfold prefetchEffect. rewrite Hs. destruct (_ && _); reflexivity.
Qed.

Lemma step_ClickReset w :
  isMounted (refs w) = true -> step ClickReset w = exec handleResetGame w.
Proof.
  intros Hm. unfold step. rewrite Hm. simpl handle. rewrite render_2.
  assert (V := handleResetGame_vars w). assert (R := handleResetGame_refs w).
  assert (E : exec (effects (vars w) (vars (exec handleResetGame w))) (exec handleResetGame w)
              = exec handleResetGame w).
  { apply effects_idle; rewrite ?V, ?R; reflexivity. }
  rewrite E. apply effects_unchanged.
Qed.




Lemma evaluateGuess_full c w :
  gameStatus c = PLAYING -> answer c <> "" -> isWrongGuess c = false ->
  String.length (guessValue c) = String.length (Js.stripWhitespace (answer c)) ->
  exec (evaluateGuess c) w =
  if String.eqb (Js.toLowerCase (guessValue c)) (Js.toLowerCase (Js.stripWhitespace (answer c)))
  then exec (handleCorrectGuess c) w
  else exec handleIncorrectGuess w.
Proof.
  intros Hs Ha Hf Hl. unfold evaluateGuess.
  rewrite Hs, Hf, Hl, Nat.eqb_refl. simpl.
  destruct (answer c) as [|ch rest] eqn:E; [contradiction|]. simpl.
  destruct (String.eqb _ _); reflexivity.
Qed.

Lemma handleInput_accepted w rawValue :
  gameStatus (vars w) = PLAYING -> isWrongGuess (vars w) = false ->
  exec (handleInput (vars w) rawValue) w =
  withGuess (Js.slice0 (answerSanitizedLength (vars w)) (Js.stripNonAlnum rawValue)) w.
Proof.
  intros Hs Hf. unfold handleInput, handleGuessChange, isDisabled.
  rewrite Hs, Hf. reflexivity.
Qed.

Lemma handleInput_changed w rawValue :
  guessValue (vars (exec (handleInput (vars w) rawValue) w)) <> guessValue (vars w) ->
  gameStatus (vars w) = PLAYING /\ isWrongGuess (vars w) = false.
Proof.
  unfold handleInput, handleGuessChange, isDisabled. intros H.
  destruct (isWrongGuess (vars w)); [rewrite orb_true_r in H; contradiction|].
  split; [|reflexivity].
  destruct (gameStatus (vars w)); simpl in H; try contradiction. reflexivity.
Qed.

Lemma guessEffect_changed prev cur :
  guessValue prev <> guessValue cur -> guessEffect prev cur = evaluateGuess cur.
Proof.
  intros H. unfold guessEffect.
  destruct (String.eqb_spec (guessValue prev) (guessValue cur)); [contradiction|reflexivity].
Qed.

(** The commit after a change of the guess, and of nothing else. *)
Lemma guess_commit value w :
  value <> guessValue (vars w) ->
  exec (effects (vars w) (vars (withGuess value w))) (withGuess value w)
  = exec (evaluateGuess (vars (withGuess value w))) (withGuess value w).
Proof.
  intros H. unfold effects. rewrite !exec_seq.
  assert (S : styleEffect (vars w) (vars (withGuess value w)) = skip).
  { unfold styleEffect. cbn. rewrite String.eqb_refl. reflexivity. }
  rewrite S. change (exec skip (withGuess value w)) with (withGuess value w).
  rewrite timerEffect_skip by reflexivity.
  rewrite guessEffect_changed by (cbn; congruence).
  apply prefetchEffect_skip; reflexivity.
Qed.

Lemma answer_nonempty c : (0 < answerSanitizedLength c)%nat -> answer c <> "".
Proof. unfold answerSanitizedLength. intros H E. rewrite E in H. simpl in H. lia. Qed.

(** An input that brings the guess to full length while a round is
    played: what it finds, and the commit that follows. *)
Lemma full_guess_commit w rawValue :
  Bounded (vars w) ->
  let w1 := exec (handleInput (vars w) rawValue) w in
  guessValue (vars w1) <> guessValue (vars w) ->
  String.length (guessValue (vars w1)) = answerSanitizedLength (vars w) ->
  gameStatus (vars w) = PLAYING
  /\ isWrongGuess (vars w) = false
  /\ answer (vars w) <> ""
  /\ guessValue (vars w1)
     = Js.slice0 (answerSanitizedLength (vars w)) (Js.stripNonAlnum rawValue)
  /\ exec (effects (vars w) (vars w1)) w1
     = if String.eqb (Js.toLowerCase (guessValue (vars w1)))
                     (Js.toLowerCase (Js.stripWhitespace (answer (vars w))))
       then exec (handleCorrectGuess (vars w1)) w1
       else exec handleIncorrectGuess w1.
Proof.
  intros Hb w1 Hc Hl.
  destruct (handleInput_changed w rawValue Hc) as [Hs Hf].
  pose proof (handleInput_accepted w rawValue Hs Hf) as E. fold w1 in E.
  set (typed := Js.slice0 (answerSanitizedLength (vars w)) (Js.stripNonAlnum rawValue)) in *.
  assert (G : guessValue (vars w1) = typed) by (rewrite E; reflexivity).
  assert (Hpos : (0 < answerSanitizedLength (vars w))%nat).
  { destruct (answerSanitizedLength (vars w)) eqn:N; [|lia].
    exfalso. apply Hc. rewrite G. unfold typed. simpl.
    unfold Bounded in Hb. rewrite N in Hb.
    destruct (guessValue (vars w)); [reflexivity|simpl in Hb; lia]. }
  split; [exact Hs|]. split; [exact Hf|]. split; [apply answer_nonempty, Hpos|].
  split; [exact G|].
  clearbody w1. subst w1.
  rewrite guess_commit by (intros X; apply Hc; rewrite G, X; reflexivity).
  apply (evaluateGuess_full (vars (withGuess typed w)) (withGuess typed w)).
  - exact Hs.
  - exact (answer_nonempty _ Hpos).
  - exact Hf.
  - exact Hl.
Qed.

(** What the whole event leaves: the state variables and notifications of
    that commit. *)
Lemma step_TypeGuess_first_commit w rawValue :
  isMounted (refs w) = true ->
  let w1 := exec (handleInput (vars w) rawValue) w in
  Quiet (exec (effects (vars w) (vars w1)) w1) (step (TypeGuess rawValue) w).
Proof.
  intros Hm w1. unfold step. rewrite Hm. simpl handle. apply render_first_commit.
Qed.

(** The commit after the wrong-guess flag has been set, and nothing else
    has changed. *)
Lemma flag_commit prev w :
  isWrongGuess (vars w) = true ->
  pastConcepts prev = pastConcepts (vars w) -> gameStatus prev = gameStatus (vars w) ->
  imageStyle prev = imageStyle (vars w) -> answer prev = answer (vars w) ->
  explanation prev = explanation (vars w) -> timeLeft prev = timeLeft (vars w) ->
  exec (effects prev (vars w)) w = w.
Proof.
  intros Hf E1 E2 E3 E4 E5 E6. unfold effects. rewrite !exec_seq.
  assert (S : styleEffect prev (vars w) = skip).
  { unfold styleEffect. rewrite E3, String.eqb_refl. reflexivity. }
  rewrite S. change (exec skip w) with w.
  rewrite timerEffect_skip by assumption.
  assert (G : exec (guessEffect prev (vars w)) w = w).
  { unfold guessEffect, evaluateGuess. rewrite Hf, !orb_true_r.
    destruct (_ && _); reflexivity. }
  rewrite G. apply prefetchEffect_skip; assumption.
Qed.

Lemma step_wrong_guess w rawValue :
  Bounded (vars w) ->
  isMounted (refs w) = true ->
  let w1 := exec (handleInput (vars w) rawValue) w in
  guessValue (vars w1) <> guessValue (vars w) ->
  String.length (guessValue (vars w1)) = answerSanitizedLength (vars w) ->
  Js.toLowerCase (guessValue (vars w1))
    <> Js.toLowerCase (Js.stripWhitespace (answer (vars w))) ->
  step (TypeGuess rawValue) w = exec handleIncorrectGuess w1.
Proof.
  intros Hb Hm w1 Hc Hl Hne.
  destruct (full_guess_commit w rawValue Hb Hc Hl) as (Hs & Hf & Ha & G & E).
  fold w1 in E, G.
  destruct (String.eqb_spec (Js.toLowerCase (guessValue (vars w1)))
              (Js.toLowerCase (Js.stripWhitespace (answer (vars w))))) as [X|_];
    [contradiction|].
  unfold step. rewrite Hm. simpl handle. fold w1. rewrite render_2, E.
  apply flag_commit; reflexivity.
Qed.

Lemma step_right_guess w rawValue :
  Bounded (vars w) ->
  isMounted (refs w) = true ->
  let w1 := exec (handleInput (vars w) rawValue) w in
  guessValue (vars w1) <> guessValue (vars w) ->
  String.length (guessValue (vars w1)) = answerSanitizedLength (vars w) ->
  Js.toLowerCase (guessValue (vars w1))
    = Js.toLowerCase (Js.stripWhitespace (answer (vars w))) ->
  exec (effects (vars w) (vars w1)) w1 = exec (handleCorrectGuess (vars w1)) w1
  /\ Quiet (exec (handleCorrectGuess (vars w1)) w1) (step (TypeGuess rawValue) w)
  /\ vars w1 = vars (withGuess (guessValue (vars w1)) w)
  /\ trace w1 = trace w.
Proof.
  intros Hb Hm w1 Hc Hl He.
  destruct (full_guess_commit w rawValue Hb Hc Hl) as (Hs & Hf & Ha & G & E).
  fold w1 in E, G.
  rewrite He, String.eqb_refl in E.
  split; [exact E|]. split.
  - rewrite <- E. apply step_TypeGuess_first_commit, Hm.
  - subst w1. rewrite (handleInput_accepted w rawValue Hs Hf). split; reflexivity.
Qed.

Lemma handleCorrectGuess_playing c w :
  gameStatus c = PLAYING ->
  let newLevel := (score c + 1) / 5 + 1 in
  vars (exec (handleCorrectGuess c) w) =
    mkVars (pastConcepts (vars w)) WON (imageUrl (vars w)) (imageStyle (vars w))
           (answer (vars w)) (explanation (vars w)) (guessValue (vars w))
           (isWrongGuess (vars w)) (timeLeft (vars w)) (error (vars w))
           (loadingMessage (vars w)) (score c + 1)
           (if newLevel >? level c then newLevel else level (vars w))
           (prefetchedGameData (vars w))
  /\ trace (exec (handleCorrectGuess c) w) =
     (trace w
      ++ [SendGameEvent (toUser Correct)]
      ++ (if newLevel >? level c then [SendGameEvent (toUser (ReachedLevel newLevel))] else [])
      ++ [SendGameEvent
            (toAI (GuessedCorrectly (answer c) (explanation c)
                     (if newLevel >? level c then Some newLevel else None)))])%list.
Proof.
  intros Hs newLevel. subst newLevel.
  unfold handleCorrectGuess, cleanupTimer, handleGameEvent. rewrite Hs. run_m.
  break; cbn; rewrite <- ?app_assoc; split; reflexivity.
Qed.

Lemma prefetch_reaction_other w p s :
  nextGamePromiseRef (refs w) <> Some p -> exec (resume s (PrefetchReaction p)) w = w.
Proof.
  intros H.
  assert (E : nat_eq_opt (nextGamePromiseRef (refs w)) p = false).
  { unfold nat_eq_opt. destruct (nextGamePromiseRef (refs w)) as [q|]; [|reflexivity].
    destruct (Nat.eqb_spec q p); [subst; contradiction|reflexivity]. }
  destruct s; simpl; unfold prefetchFulfilled, prefetchRejected, exec, bind; simpl;
  rewrite E, andb_false_r; reflexivity.
Qed.

Lemma prefetch_reaction_current w p :
  nextGamePromiseRef (refs w) = Some p -> isMounted (refs w) = true ->
  (forall data,
     exec (resume (Fulfilled data) (PrefetchReaction p)) w =
     mkWorld (mkVars (pastConcepts (vars w)) (gameStatus (vars w)) (imageUrl (vars w))
                     (imageStyle (vars w)) (answer (vars w)) (explanation (vars w))
                     (guessValue (vars w)) (isWrongGuess (vars w)) (timeLeft (vars w))
                     (error (vars w)) (loadingMessage (vars w)) (score (vars w))
                     (level (vars w)) (Some data))
             (refs w) (pending w) (settled w) (intervals w) (trace w) (requests w) (nextId w))
  /\ (forall e,
        exec (resume (Rejected e) (PrefetchReaction p)) w =
        mkWorld (vars w)
                (mkRefs None (roundIdRef (refs w)) (timerRef (refs w)) (isMounted (refs w)))
                (pending w) (settled w) (intervals w) (trace w) (requests w) (nextId w)).
Proof.
  intros Hp Hm. destruct w as [v [g i t m] pd sd iv tr q n]; simpl in Hp, Hm; subst g m.
  split; intros x; simpl;
  unfold prefetchFulfilled, prefetchRejected, exec, bind, nat_eq_opt; simpl;
  rewrite Nat.eqb_refl; reflexivity.
Qed.

(** ** The claims *)

(** C1. Whatever calls of [startNewGame] and other events came before,
    only the fetch result whose captured round number equals
    [roundIdRef.current] is committed: a completion, fulfilled or
    rejected, whose captured number differs leaves the whole world as it
    was (no state variable, ref, notification or error changes); a
    completion that changes [answer], [explanation], [imageUrl],
    [pastConcepts] or [gameStatus] carries the current number, and the
    fulfilled completion that carries it on a mounted component commits
    exactly these five; in every reachable world the suspended calls hold
    pairwise distinct round numbers, none above the current one, so at
    most one of them can still commit. *)
Theorem stale_fetch_result_is_discarded :
  forall (es : list Event) (w : World) (roundId : Z) (a : Awaited) (s : Settled),
    (roundIdRef (refs w) <> roundId ->
       exec (resume s (AwaitGameData roundId a)) w = w)
    /\ (~ sameRound (vars w) (vars (exec (resume s (AwaitGameData roundId a)) w)) ->
        roundIdRef (refs w) = roundId)
    /\ (roundIdRef (refs w) = roundId ->
        isMounted (refs w) = true ->
        forall data : GameData.t,
          let w' := exec (resume (Fulfilled data) (AwaitGameData roundId a)) w in
          answer (vars w') = GameData.concept data
          /\ explanation (vars w') = GameData.explanation data
          /\ imageUrl (vars w') = GameData.imageUrl data
          /\ pastConcepts (vars w') = (pastConcepts (vars w) ++ [GameData.concept data])%list
          /\ gameStatus (vars w') = PLAYING)
    /\ NoDup (awaitedRounds (pending (run es initial)))
    /\ (forall r : Z,
          In r (awaitedRounds (pending (run es initial))) ->
          r <= roundIdRef (refs (run es initial))).
Proof.
  intros es w roundId a s. split; [|split; [|split; [|split]]].
  - apply resume_stale.
  - intros Hc. destruct (Z.eq_dec (roundIdRef (refs w)) roundId) as [|Hne]; [assumption|].
    rewrite resume_stale in Hc by assumption.
    exfalso. apply Hc. repeat split.
  - intros <- Hm data w'. subst w'. rewrite resume_fulfilled_current by exact Hm.
    repeat split.
  - exact (inv_rounds_nodup _ _ (reachable_inv es)).
  - exact (inv_rounds_le _ _ (reachable_inv es)).
Qed.

Lemma stale_fetch_result_is_discarded_witness :
  roundIdRef (refs restartedTwice) <> 1
  /\ pending restartedTwice = [AwaitGameData 1 (Handle 0); AwaitGameData 3 (Handle 1)]
  /\ exec (resume (Fulfilled up) (AwaitGameData 1 (Handle 0))) restartedTwice = restartedTwice.
Proof.
  assert (H : roundIdRef (refs restartedTwice) <> 1) by (vm_compute; discriminate).
  split; [exact H|]. split; [reflexivity|].
  exact (proj1 (stale_fetch_result_is_discarded [] restartedTwice 1 (Handle 0) (Fulfilled up)) H).
Defined.


(** C3, as amended. In every reachable world [handleResetGame] sets the
    status to [IDLE], the score to 0, the level to 1, [pastConcepts] to
    the empty list, empties the content and the guess, sets the time to
    [ROUND_TIME], stops the timer, and raises the round number by exactly
    one; it keeps the style and leaves both halves of the prefetch slot
    (ready content and pending handle) as they were; a second reset gives
    the same state variables as the first and raises the round number
    once more; the renders that follow a click on the reset button add
    nothing to what the handler did. *)
Theorem handleResetGame_result :
  forall es : list Event,
    let w := run es initial in
    let w1 := exec handleResetGame w in
    let w2 := exec handleResetGame w1 in
    vars w1 = mkVars [] IDLE "" (imageStyle (vars w)) "" "" "" false ROUND_TIME None "" 0 1
                     (prefetchedGameData (vars w))
    /\ roundIdRef (refs w1) = roundIdRef (refs w) + 1
    /\ timerRef (refs w1) = None
    /\ intervals w1 = []
    /\ prefetchedGameData (vars w1) = prefetchedGameData (vars w)
    /\ nextGamePromiseRef (refs w1) = nextGamePromiseRef (refs w)
    /\ vars w2 = vars w1
    /\ roundIdRef (refs w2) = roundIdRef (refs w1) + 1
    /\ (isMounted (refs w) = true -> step ClickReset w = w1).
Proof.
  intros es w w1 w2. subst w2 w1.
  rewrite !handleResetGame_vars, !handleResetGame_refs. cbn.
  repeat split.
  - apply handleResetGame_intervals. exact (inv_timer _ _ (reachable_inv es)).
  - apply step_ClickReset.
Qed.

Lemma handleResetGame_result_witness :
  isMounted (refs (run fifthRound initial)) = true
  /\ gameStatus (vars (run fifthRound initial)) = PLAYING
  /\ score (vars (run fifthRound initial)) = 4
  /\ step ClickReset (run fifthRound initial) = exec handleResetGame (run fifthRound initial)
  /\ score (vars (exec handleResetGame (run fifthRound initial))) = 0.
Proof.
  assert (Hm : isMounted (refs (run fifthRound initial)) = true) by (vm_compute; reflexivity).
  pose proof (handleResetGame_result fifthRound) as H. cbv zeta in H.
  destruct H as (Hv & _ & _ & _ & _ & _ & _ & _ & Hstep).
  split; [exact Hm|]. split; [vm_compute; reflexivity|]. split; [vm_compute; reflexivity|].
  split; [exact (Hstep Hm)|]. rewrite Hv. reflexivity.
Defined.

(** C3, the claim as stated fails: after a won round whose prefetch has
    delivered, a reset keeps the ready content and the handle. *)
Lemma handleResetGame_keeps_prefetch_slot :
  gameStatus (vars wonWithPrefetch) = WON
  /\ prefetchedGameData (vars (exec handleResetGame wonWithPrefetch)) = Some jaws
  /\ nextGamePromiseRef (refs (exec handleResetGame wonWithPrefetch)) = Some 1%nat
  /\ ~ (prefetchedGameData (vars (exec handleResetGame wonWithPrefetch)) = None
        /\ nextGamePromiseRef (refs (exec handleResetGame wonWithPrefetch)) = None).
Proof.
  vm_compute. repeat split; try reflexivity. intros [H _]; discriminate H.
Qed.

(** C4, as amended. [handleIncorrectGuess] sets the flag and schedules
    one callback with a delay of 1000 ms, touching nothing else; the
    guard of the callback is [isMounted]: on a mounted component it sets
    the guess to the empty string and the flag to false and changes
    nothing else; on an unmounted one it does nothing; running it twice
    is running it once. *)
Theorem wrong_guess_timeout_is_guarded_by_mount_only :
  forall w : World,
    exec handleIncorrectGuess w =
      mkWorld (mkVars (pastConcepts (vars w)) (gameStatus (vars w)) (imageUrl (vars w))
                      (imageStyle (vars w)) (answer (vars w)) (explanation (vars w))
                      (guessValue (vars w)) true (timeLeft (vars w)) (error (vars w))
                      (loadingMessage (vars w)) (score (vars w)) (level (vars w))
                      (prefetchedGameData (vars w)))
              (refs w) (pending w ++ [WrongGuessTimeout 1000]) (settled w) (intervals w)
              (trace w) (requests w) (nextId w)
    /\ exec wrongGuessTimeout w =
       (if isMounted (refs w) then
          mkWorld (mkVars (pastConcepts (vars w)) (gameStatus (vars w)) (imageUrl (vars w))
                          (imageStyle (vars w)) (answer (vars w)) (explanation (vars w))
                          "" false (timeLeft (vars w)) (error (vars w))
                          (loadingMessage (vars w)) (score (vars w)) (level (vars w))
                          (prefetchedGameData (vars w)))
                  (refs w) (pending w) (settled w) (intervals w)
                  (trace w) (requests w) (nextId w)
        else w)
    /\ exec wrongGuessTimeout (exec wrongGuessTimeout w) = exec wrongGuessTimeout w.
Proof.
  intros w. unfold handleIncorrectGuess, wrongGuessTimeout. run_m.
  destruct w as [v [g i t m] p s iv tr q n]; cbn. destruct m; cbn; repeat split.
Qed.

(** C4, the claim as stated fails: the callback scheduled by a wrong
    guess in round 1 fires in round 3 and erases the two letters typed
    there. *)
Lemma wrong_guess_timeout_clears_a_later_round :
  roundIdRef (refs (run [ClickStart; Settle 0 (Fulfilled up); TypeGuess "ab"] initial)) = 1
  /\ pending (run [ClickStart; Settle 0 (Fulfilled up); TypeGuess "ab"] initial)
     = [WrongGuessTimeout 1000]
  /\ roundIdRef (refs wrongThenNewRound) = 3
  /\ gameStatus (vars wrongThenNewRound) = PLAYING
  /\ answer (vars wrongThenNewRound) = "Jaws"
  /\ isWrongGuess (vars wrongThenNewRound) = false
  /\ guessValue (vars wrongThenNewRound) = "ja"
  /\ pending wrongThenNewRound = [WrongGuessTimeout 1000]
  /\ guessValue (vars (step Timeout wrongThenNewRound)) = ""
  /\ guessValue (vars (step Timeout wrongThenNewRound)) <> guessValue (vars wrongThenNewRound).
Proof. vm_compute. repeat split; try reflexivity. discriminate. Qed.

(** C5. A call of [startNewGame] that passes the guard on a mounted
    component resolves its content in this order: ready prefetched
    content is awaited as an already resolved promise, no provider call
    is made and the slot is emptied; otherwise a pending prefetch handle
    is awaited itself, no provider call is made and the handle leaves the
    slot; otherwise exactly one provider call is made, with
    [pastConcepts] and the style, and its promise is awaited. *)
Theorem content_resolution_order :
  forall w : World,
    gameStatus (vars w) <> LOADING ->
    isMounted (refs w) = true ->
    let w' := exec (startNewGame (vars w)) w in
    let roundId := roundIdRef (refs w) + 1 in
    match prefetchedGameData (vars w), nextGamePromiseRef (refs w) with
    | Some data, _ =>
        requests w' = requests w
        /\ pending w' = (pending w ++ [AwaitGameData roundId (Resolved data)])%list
        /\ prefetchedGameData (vars w') = None
        /\ nextGamePromiseRef (refs w') = None
    | None, Some p =>
        requests w' = requests w
        /\ pending w' = (pending w ++ [AwaitGameData roundId (Handle p)])%list
        /\ nextGamePromiseRef (refs w') = None
    | None, None =>
        requests w' =
          (requests w
           ++ [mkRequest (List.length (requests w)) (pastConcepts (vars w)) (imageStyle (vars w))])%list
        /\ pending w' =
           (pending w ++ [AwaitGameData roundId (Handle (List.length (requests w)))])%list
    end.
Proof.
  intros w Hs Hm w' roundId. subst w' roundId.
  unfold startNewGame, cleanupTimer, getNewGameData, handleGameEvent, stale. run_m.
  destruct w as [v [g i t m] p s iv tr q n]; cbn in *. subst m.
  destruct (GameStatus_eqb_spec (gameStatus v) LOADING) as [E|_]; [contradiction|].
  destruct (prefetchedGameData v) as [data|]; [|destruct g as [pr|]];
    break; rewrite ?Z.eqb_refl in *; cbn in *; try discriminate; repeat split.
Qed.

Lemma content_resolution_order_witness :
  gameStatus (vars wonPrefetching) <> LOADING
  /\ isMounted (refs wonPrefetching) = true
  /\ prefetchedGameData (vars wonPrefetching) = None
  /\ nextGamePromiseRef (refs wonPrefetching) = Some 1%nat
  /\ requests (exec (startNewGame (vars wonPrefetching)) wonPrefetching) = requests wonPrefetching
  /\ pending (exec (startNewGame (vars wonPrefetching)) wonPrefetching)
     = (pending wonPrefetching ++ [AwaitGameData 2 (Handle 1)])%list
  /\ nextGamePromiseRef (refs (exec (startNewGame (vars wonPrefetching)) wonPrefetching)) = None.
Proof.
  assert (H1 : gameStatus (vars wonPrefetching) <> LOADING) by (vm_compute; discriminate).
  assert (H2 : isMounted (refs wonPrefetching) = true) by reflexivity.
  split; [exact H1|]. split; [exact H2|]. split; [reflexivity|]. split; [reflexivity|].
  exact (content_resolution_order wonPrefetching H1 H2).
Defined.



(** C7. In every reachable world, and after any further input, the
    guess is no longer than the answer without its whitespace; an
    accepted input replaces the guess by the input without its
    non-alphanumeric characters, cut to that length. *)
Theorem guess_fits_the_answer :
  forall (es : list Event) (rawValue : string),
    let w := run es initial in
    Bounded (vars w)
    /\ Bounded (vars (step (TypeGuess rawValue) w))
    /\ (gameStatus (vars w) = PLAYING ->
        isWrongGuess (vars w) = false ->
        guessValue (vars (exec (handleInput (vars w) rawValue) w))
        = Js.slice0 (String.length (Js.stripWhitespace (answer (vars w))))
                    (Js.stripNonAlnum rawValue)).
Proof.
  intros es rawValue w. split; [|split].
  - exact (inv_bounded _ _ (reachable_inv es)).
  - exact (inv_bounded _ _ (step_inv (TypeGuess rawValue) w (reachable_inv es))).
  - intros Hs Hf. unfold handleInput, handleGuessChange, isDisabled. run_m.
    rewrite Hs, Hf. reflexivity.
Qed.

Lemma guess_fits_the_answer_witness :
  gameStatus (vars (run dieHardRound initial)) = PLAYING
  /\ isWrongGuess (vars (run dieHardRound initial)) = false
  /\ guessValue (vars (exec (handleInput (vars (run dieHardRound initial)) "die hard, with a vengeance")
                            (run dieHardRound initial)))
     = "diehard".
Proof.
  assert (Hs : gameStatus (vars (run dieHardRound initial)) = PLAYING)
    by (vm_compute; reflexivity).
  assert (Hf : isWrongGuess (vars (run dieHardRound initial)) = false)
    by (vm_compute; reflexivity).
  pose proof (guess_fits_the_answer dieHardRound "die hard, with a vengeance") as H.
  cbv zeta in H. destruct H as (_ & _ & H).
  split; [exact Hs|]. split; [exact Hf|].
  rewrite (H Hs Hf). vm_compute. reflexivity.
Defined.

(** C8. In every reachable world with status [PLAYING], when an input
    brings the guess to exactly the length of the answer without its
    whitespace, the commit that follows compares the two in lower case:
    if they are equal it runs [handleCorrectGuess] and nothing else, and
    the status is [WON]; if not it runs [handleIncorrectGuess] and nothing
    else, and the round goes on with the flag set; "Die Hard" has the
    sanitized form "DieHard" of length 7 and typing "diehard" wins the
    round. *)
Theorem full_length_guess_is_compared :
  forall (es : list Event) (rawValue : string),
    let w := run es initial in
    let w1 := exec (handleInput (vars w) rawValue) w in
    let w' := step (TypeGuess rawValue) w in
    isMounted (refs w) = true ->
    gameStatus (vars w) = PLAYING ->
    guessValue (vars w1) <> guessValue (vars w) ->
    String.length (guessValue (vars w1))
      = String.length (Js.stripWhitespace (answer (vars w))) ->
    (Js.toLowerCase (guessValue (vars w1))
       = Js.toLowerCase (Js.stripWhitespace (answer (vars w))) ->
       exec (effects (vars w) (vars w1)) w1 = exec (handleCorrectGuess (vars w1)) w1
       /\ gameStatus (vars w') = WON)
    /\ (Js.toLowerCase (guessValue (vars w1))
          <> Js.toLowerCase (Js.stripWhitespace (answer (vars w))) ->
        exec (effects (vars w) (vars w1)) w1 = exec handleIncorrectGuess w1
        /\ w' = exec handleIncorrectGuess w1
        /\ gameStatus (vars w') = PLAYING
        /\ isWrongGuess (vars w') = true)
    /\ Js.stripWhitespace "Die Hard" = "DieHard"
    /\ String.length (Js.stripWhitespace "Die Hard") = 7%nat
    /\ answer (vars playingDieHard) = "Die Hard"
    /\ gameStatus (vars playingDieHard) = PLAYING
    /\ guessValue (vars (step (TypeGuess "diehard") playingDieHard)) = "diehard"
    /\ gameStatus (vars (step (TypeGuess "diehard") playingDieHard)) = WON.
Proof.
  intros es rawValue w w1 w' Hm Hs Hc Hl.
  pose proof (inv_bounded _ _ (reachable_inv es)) as Hb. fold w in Hb.
  split; [|split].
  - intros He.
    destruct (step_right_guess w rawValue Hb Hm Hc Hl He) as (E & [Q _] & V & _).
    fold w1 in E, Q, V.
    split; [exact E|]. subst w'. rewrite Q.
    assert (Hs1 : gameStatus (vars w1) = PLAYING) by (rewrite V; exact Hs).
    rewrite (proj1 (handleCorrectGuess_playing (vars w1) w1 Hs1)). reflexivity.
  - intros Hne.
    pose proof (step_wrong_guess w rawValue Hb Hm Hc Hl Hne) as S. fold w1 in S.
    destruct (full_guess_commit w rawValue Hb Hc Hl) as (_ & Hf & _ & G & E).
    fold w1 in E, G.
    destruct (String.eqb_spec (Js.toLowerCase (guessValue (vars w1)))
                (Js.toLowerCase (Js.stripWhitespace (answer (vars w))))) as [X|_];
      [contradiction|].
    split; [exact E|]. split; [exact S|]. subst w'. rewrite S.
    assert (V : gameStatus (vars w1) = gameStatus (vars w)).
    { subst w1. rewrite (handleInput_accepted w rawValue Hs Hf). reflexivity. }
    split; [cbn; rewrite V; exact Hs | reflexivity].
  - vm_compute. repeat split; reflexivity.
Qed.

Lemma full_length_guess_is_compared_witness :
  isMounted (refs (run dieHardRound initial)) = true
  /\ gameStatus (vars (run dieHardRound initial)) = PLAYING
  /\ guessValue (vars (exec (handleInput (vars (run dieHardRound initial)) "Die-HARD!")
                            (run dieHardRound initial)))
     = "DieHARD"
  /\ gameStatus (vars (step (TypeGuess "Die-HARD!") (run dieHardRound initial))) = WON.
Proof.
  assert (Hm : isMounted (refs (run dieHardRound initial)) = true)
    by (vm_compute; reflexivity).
  assert (Hs : gameStatus (vars (run dieHardRound initial)) = PLAYING)
    by (vm_compute; reflexivity).
  assert (Hc : guessValue (vars (exec (handleInput (vars (run dieHardRound initial)) "Die-HARD!")
                                      (run dieHardRound initial)))
               <> guessValue (vars (run dieHardRound initial)))
    by (vm_compute; discriminate).
  assert (Hl : String.length
                 (guessValue (vars (exec (handleInput (vars (run dieHardRound initial))
                                                      "Die-HARD!")
                                         (run dieHardRound initial))))
               = String.length (Js.stripWhitespace (answer (vars (run dieHardRound initial)))))
    by (vm_compute; reflexivity).
  assert (He : Js.toLowerCase
                 (guessValue (vars (exec (handleInput (vars (run dieHardRound initial))
                                                      "Die-HARD!")
                                         (run dieHardRound initial))))
               = Js.toLowerCase (Js.stripWhitespace (answer (vars (run dieHardRound initial)))))
    by (vm_compute; reflexivity).
  split; [exact Hm|]. split; [exact Hs|]. split; [vm_compute; reflexivity|].
  exact (proj2 (proj1 (full_length_guess_is_compared dieHardRound "Die-HARD!"
                         Hm Hs Hc Hl) He)).
Defined.

(** C9. In every reachable world [level = floor(score / 5) + 1], so
    scores 0 to 4 have level 1 and scores 5 to 9 level 2;
    [handleCorrectGuess], called for a render with status [PLAYING], sets
    the status to [WON], adds exactly 1 to the score, and sends, in this
    order, the "Correct" line, then the level-up line if the level rises,
    then the message for the AI with the answer and the explanation; a
    winning input leaves the status [WON], the score one higher, the
    level equation intact and exactly these notifications in this order,
    the level-up line being there if and only if the level rose. *)
Theorem win_path_score_level_and_notices :
  forall (es : list Event) (rawValue : string),
    let w := run es initial in
    let w1 := exec (handleInput (vars w) rawValue) w in
    let w' := step (TypeGuess rawValue) w in
    let levelUp := level (vars w') >? level (vars w) in
    level (vars w) = score (vars w) / 5 + 1
    /\ (0 <= score (vars w) <= 4 -> level (vars w) = 1)
    /\ (5 <= score (vars w) <= 9 -> level (vars w) = 2)
    /\ (forall (c : Vars) (live : World),
          gameStatus c = PLAYING ->
          let newLevel := (score c + 1) / 5 + 1 in
          gameStatus (vars (exec (handleCorrectGuess c) live)) = WON
          /\ score (vars (exec (handleCorrectGuess c) live)) = score c + 1
          /\ trace (exec (handleCorrectGuess c) live) =
             (trace live
              ++ [SendGameEvent (toUser Correct)]
              ++ (if newLevel >? level c
                  then [SendGameEvent (toUser (ReachedLevel newLevel))] else [])
              ++ [SendGameEvent
                    (toAI (GuessedCorrectly (answer c) (explanation c)
                             (if newLevel >? level c then Some newLevel else None)))])%list)
    /\ (isMounted (refs w) = true ->
        guessValue (vars w1) <> guessValue (vars w) ->
        String.length (guessValue (vars w1))
          = String.length (Js.stripWhitespace (answer (vars w))) ->
        Js.toLowerCase (guessValue (vars w1))
          = Js.toLowerCase (Js.stripWhitespace (answer (vars w))) ->
        gameStatus (vars w') = WON
        /\ score (vars w') = score (vars w) + 1
        /\ level (vars w') = score (vars w') / 5 + 1
        /\ trace w' =
           (trace w
            ++ [SendGameEvent (toUser Correct)]
            ++ (if levelUp
                then [SendGameEvent (toUser (ReachedLevel (level (vars w'))))] else [])
            ++ [SendGameEvent
                  (toAI (GuessedCorrectly (answer (vars w)) (explanation (vars w))
                           (if levelUp then Some (level (vars w')) else None)))])%list).
Proof.
  intros es rawValue w w1 w' levelUp.
  assert (Hl : level (vars w) = score (vars w) / 5 + 1)
    by exact (inv_level _ _ (reachable_inv es)).
  split; [exact Hl|]. split; [|split; [|split]].
  - intros H. rewrite Hl, Z.div_small by lia. reflexivity.
  - intros H. rewrite Hl. replace (score (vars w) / 5) with 1; [reflexivity|].
    apply Z.div_unique with (r := score (vars w) - 5); lia.
  - intros c live Hs newLevel.
    destruct (handleCorrectGuess_playing c live Hs) as [Hv Ht].
    rewrite Hv, Ht. repeat split.
  - intros Hm Hc Hlen He.
    pose proof (inv_bounded _ _ (reachable_inv es)) as Hb. fold w in Hb.
    destruct (step_right_guess w rawValue Hb Hm Hc Hlen He) as (_ & [Q T] & V & Tw).
    fold w1 in Q, T, V, Tw. fold w' in Q, T.
    destruct (handleInput_changed w rawValue Hc) as [Hs Hf].
    assert (Hs1 : gameStatus (vars w1) = PLAYING) by (rewrite V; exact Hs).
    destruct (handleCorrectGuess_playing (vars w1) w1 Hs1) as [Hv Ht].
    cbv zeta in Hv, Ht.
    assert (S1 : score (vars w1) = score (vars w)) by (rewrite V; reflexivity).
    assert (L1 : level (vars w1) = level (vars w)) by (rewrite V; reflexivity).
    assert (A1 : answer (vars w1) = answer (vars w)) by (rewrite V; reflexivity).
    assert (X1 : explanation (vars w1) = explanation (vars w)) by (rewrite V; reflexivity).
    subst levelUp. rewrite T, Q, Ht, Hv, Tw. cbn. rewrite S1, L1, A1, X1.
    destruct ((score (vars w) + 1) / 5 + 1 >? level (vars w)) eqn:E.
    + rewrite E. repeat split.
    + rewrite Z.gtb_ltb, Z.ltb_irrefl.
      repeat split. apply level_after_win; assumption.
Qed.

Lemma win_path_score_level_and_notices_witness :
  isMounted (refs (run fifthRound initial)) = true
  /\ score (vars (run fifthRound initial)) = 4
  /\ level (vars (run fifthRound initial)) = 1
  /\ score (vars (step (TypeGuess "JAWS") (run fifthRound initial))) = 5
  /\ level (vars (step (TypeGuess "JAWS") (run fifthRound initial))) = 2
  /\ trace (step (TypeGuess "JAWS") (run fifthRound initial))
     = (trace (run fifthRound initial)
        ++ [SendGameEvent (toUser Correct);
            SendGameEvent (toUser (ReachedLevel 2));
            SendGameEvent (toAI (GuessedCorrectly "Jaws" "a fin above the water" (Some 2)))])%list.
Proof.
  assert (Hm : isMounted (refs (run fifthRound initial)) = true) by reflexivity.
  assert (Hc : guessValue (vars (exec (handleInput (vars (run fifthRound initial)) "JAWS")
                                      (run fifthRound initial)))
               <> guessValue (vars (run fifthRound initial))) by (vm_compute; discriminate).
  pose proof (proj2 (proj2 (proj2 (proj2
                (win_path_score_level_and_notices fifthRound "JAWS"))))
              Hm Hc eq_refl eq_refl) as (_ & H2 & _ & H4).
  split; [exact Hm|]. split; [reflexivity|]. split; [reflexivity|].
  split; [rewrite H2; reflexivity|]. split; [reflexivity|].
  rewrite H4. reflexivity.
Defined.

(** C10. A prefetch completion whose handle is not the one in
    [nextGamePromiseRef] changes nothing, fulfilled or rejected; a
    fulfilled completion that stores ready content, and a rejected one
    that clears the handle, both carry the current handle; with the
    current handle on a mounted component the first stores its data and
    the second clears the handle; and after a change of style no handle
    issued before it is current, so its completion is dropped and the slot
    holds no ready content. *)
Theorem prefetch_completion_is_guarded_by_its_handle :
  forall (w : World) (p : nat) (data : GameData.t) (e : Reason),
    (nextGamePromiseRef (refs w) <> Some p ->
       exec (resume (Fulfilled data) (PrefetchReaction p)) w = w
       /\ exec (resume (Rejected e) (PrefetchReaction p)) w = w)
    /\ (prefetchedGameData (vars (exec (resume (Fulfilled data) (PrefetchReaction p)) w))
          <> prefetchedGameData (vars w) ->
        nextGamePromiseRef (refs w) = Some p)
    /\ (nextGamePromiseRef (refs (exec (resume (Rejected e) (PrefetchReaction p)) w))
          <> nextGamePromiseRef (refs w) ->
        nextGamePromiseRef (refs w) = Some p)
    /\ (nextGamePromiseRef (refs w) = Some p ->
        isMounted (refs w) = true ->
        prefetchedGameData (vars (exec (resume (Fulfilled data) (PrefetchReaction p)) w))
          = Some data
        /\ nextGamePromiseRef (refs (exec (resume (Rejected e) (PrefetchReaction p)) w)) = None)
    /\ (forall style : string,
          isMounted (refs w) = true ->
          style <> imageStyle (vars w) ->
          (p < List.length (requests w))%nat ->
          exec (resume (Fulfilled data) (PrefetchReaction p)) (step (ChangeStyle style) w)
            = step (ChangeStyle style) w
          /\ prefetchedGameData (vars (step (ChangeStyle style) w)) = None).
Proof.
  intros w p data e. split; [|split; [|split; [|split]]].
  - intros H. split; apply prefetch_reaction_other, H.
  - intros H. destruct (nextGamePromiseRef (refs w)) as [q|] eqn:E.
    + destruct (Nat.eq_dec q p) as [->|Hne]; [reflexivity|].
      rewrite prefetch_reaction_other in H by (rewrite E; congruence). contradiction.
    + rewrite prefetch_reaction_other in H by (rewrite E; discriminate). contradiction.
  - intros H. destruct (nextGamePromiseRef (refs w)) as [q|] eqn:E.
    + destruct (Nat.eq_dec q p) as [->|Hne]; [reflexivity|].
      rewrite prefetch_reaction_other in H by (rewrite E; congruence).
      rewrite E in H. contradiction.
    + rewrite prefetch_reaction_other in H by (rewrite E; discriminate).
      rewrite E in H. contradiction.
  - intros Hp Hm. destruct (prefetch_reaction_current w p Hp Hm) as [F R].
    rewrite F, R. split; reflexivity.
  - intros style Hm Hne Hp.
    destruct (style_change_drops_handle w style p Hm Hne Hp) as [H1 H2].
    split; [apply prefetch_reaction_other, H1 | exact H2].
Qed.

Lemma prefetch_completion_is_guarded_by_its_handle_witness :
  nextGamePromiseRef (refs wonPrefetching) = Some 1%nat
  /\ isMounted (refs wonPrefetching) = true
  /\ prefetchedGameData
       (vars (exec (resume (Fulfilled jaws) (PrefetchReaction 1)) wonPrefetching)) = Some jaws
  /\ "claymation" <> imageStyle (vars wonPrefetching)
  /\ exec (resume (Fulfilled jaws) (PrefetchReaction 1))
          (step (ChangeStyle "claymation") wonPrefetching)
     = step (ChangeStyle "claymation") wonPrefetching.
Proof.
  assert (Hp : nextGamePromiseRef (refs wonPrefetching) = Some 1%nat) by reflexivity.
  assert (Hm : isMounted (refs wonPrefetching) = true) by reflexivity.
  assert (Hs : "claymation" <> imageStyle (vars wonPrefetching)) by (vm_compute; discriminate).
  assert (Hi : (1 < List.length (requests wonPrefetching))%nat) by (vm_compute; lia).
  pose proof (prefetch_completion_is_guarded_by_its_handle
                wonPrefetching 1 jaws NotAnError) as (_ & _ & _ & H4 & H5).
  split; [exact Hp|]. split; [exact Hm|].
  split; [exact (proj1 (H4 Hp Hm))|]. split; [exact Hs|].
  exact (proj1 (H5 "claymation" Hm Hs Hi)).
Defined.

(** * Further properties of the component *)

(** ** After the component is unmounted *)

Lemma resumeAll_unmounted s ts w :
  isMounted (refs w) = false -> exec (resumeAll s ts) w = w.
Proof.
  intros H. induction ts as [|t ts IH]; simpl; [reflexivity|].
  rewrite exec_seq, resume_unmounted by exact H. exact IH.
Qed.

Lemma step_unmounted e w : isMounted (refs w) = false -> Frozen w (step e w).
Proof.
  intros H. unfold step. rewrite H.
  destruct e as [| |rawValue|style|id|p s| | |]; simpl; try (constructor; reflexivity).
  - unfold settle, exec.
    destruct (issued p w && negb (isSome (outcome p (settled w))));
      [|constructor; reflexivity].
    change (Frozen w (exec (recordSettled p s ;;
                     onPending (List.filter (fun t => negb (awaits p t))) ;;
                     resumeAll s (reactions p s (pending w))) w)).
    rewrite !exec_seq, resumeAll_unmounted by exact H. constructor; reflexivity.
  - unfold microtask, exec.
    destruct (pick _ (pending w)) as [[t rest]|]; [|constructor; reflexivity].
    destruct (available (settled w) t) as [s|]; [|constructor; reflexivity].
    change (Frozen w (exec (onPending (fun _ => rest) ;; resume s t) w)).
    rewrite exec_seq, resume_unmounted by exact H. constructor; reflexivity.
  - unfold timeout, exec.
    destruct (pick isTimeout (pending w)) as [[t rest]|]; [|constructor; reflexivity].
    change (Frozen w (exec (onPending (fun _ => rest) ;; resume (Rejected NotAnError) (WrongGuessTimeout 0)) w)).
    rewrite exec_seq, resume_unmounted by exact H. constructor; reflexivity.
Qed.

Lemma run_unmounted es w : isMounted (refs w) = false -> Frozen w (run es w).
Proof.
  revert w. induction es as [|e es IH]; intros w H; simpl; [constructor; reflexivity|].
  pose proof (step_unmounted e w H) as F.
  assert (H' : isMounted (refs (step e w)) = false) by (rewrite (frozen_refs _ _ F); exact H).
  destruct (IH _ H') as [a b c d e0]. destruct F as [a' b' c' d' e'].
  constructor; congruence.
Qed.

(** ** The mount flag *)

Ltac unfold_callbacks :=
  unfold startNewGame, handleResetGame, handleInput, handleGuessChange, tick,
    startNewGame_fulfilled, startNewGame_rejected, handleGameData, prefetchFulfilled,
    prefetchRejected, wrongGuessTimeout, styleEffect, invalidatePrefetch, timerEffect,
    handleTimeUp, guessEffect, evaluateGuess, handleCorrectGuess, handleIncorrectGuess,
    prefetchEffect, prefetchNextRound, cleanupTimer, getNewGameData, handleGameEvent,
    decrementTimeLeft.

Lemma resume_mounted s t w : isMounted (refs (exec (resume s t) w)) = isMounted (refs w).
Proof.
  destruct t, s; simpl; unfold_callbacks; run_m;
    destruct w as [v [g i tr m] p0 s0 iv t0 q n]; cbn; break; reflexivity.
Qed.

Lemma resumeAll_mounted s ts w :
  isMounted (refs (exec (resumeAll s ts) w)) = isMounted (refs w).
Proof.
  revert w; induction ts as [|t ts IH]; intros w; simpl; [reflexivity|].
  rewrite exec_seq, IH. apply resume_mounted.
Qed.

Lemma handle_mounted e c w :
  e <> Unmount -> isMounted (refs (exec (handle e c) w)) = isMounted (refs w).
Proof.
  intros He. destruct e as [| |rawValue|style|id|p s| | |]; simpl; try congruence.
  - unfold_callbacks; unfold stale; run_m.
    destruct w as [v [g i tr m] p0 s0 iv t0 q n]; cbn; break; reflexivity.
  - unfold_callbacks; run_m.
    destruct w as [v [g i tr m] p0 s0 iv t0 q n]; cbn; break; reflexivity.
  - unfold_callbacks; run_m.
    destruct w as [v [g i tr m] p0 s0 iv t0 q n]; cbn; break; reflexivity.
  - unfold tick, exec. destruct (existsb _ _); reflexivity.
  - unfold settle, exec.
    destruct (issued p w && negb (isSome (outcome p (settled w)))); [|reflexivity].
    change (isMounted (refs (exec (recordSettled p s ;;
                     onPending (List.filter (fun t => negb (awaits p t))) ;;
                     resumeAll s (reactions p s (pending w))) w)) = isMounted (refs w)).
    rewrite !exec_seq, resumeAll_mounted. reflexivity.
  - unfold microtask, exec.
    destruct (pick _ (pending w)) as [[t rest]|]; [|reflexivity].
    destruct (available (settled w) t) as [s|]; [|reflexivity].
    change (isMounted (refs (exec (onPending (fun _ => rest) ;; resume s t) w)) = isMounted (refs w)).
    rewrite exec_seq, resume_mounted. reflexivity.
  - unfold timeout, exec.
    destruct (pick isTimeout (pending w)) as [[t rest]|]; [|reflexivity].
    change (isMounted (refs (exec (onPending (fun _ => rest) ;; wrongGuessTimeout) w)) = isMounted (refs w)).
    rewrite exec_seq.
    rewrite (resume_mounted (Rejected NotAnError) (WrongGuessTimeout 0)). reflexivity.
Qed.

Lemma effects_mounted prev cur w :
  isMounted (refs (exec (effects prev cur) w)) = isMounted (refs w).
Proof.
  unfold effects. rewrite !exec_seq.
  assert (A : forall w, isMounted (refs (exec (styleEffect prev cur) w)) = isMounted (refs w)).
  { intros x. unfold_callbacks; run_m.
    destruct x as [v [g i tr m] p0 s0 iv t0 q n]; cbn; break; reflexivity. }
  assert (B : forall w, isMounted (refs (exec (timerEffect prev cur) w)) = isMounted (refs w)).
  { intros x. unfold_callbacks; run_m.
    destruct x as [v [g i tr m] p0 s0 iv t0 q n]; cbn; break; reflexivity. }
  assert (C : forall w, isMounted (refs (exec (guessEffect prev cur) w)) = isMounted (refs w)).
  { intros x. unfold_callbacks; run_m.
    destruct x as [v [g i tr m] p0 s0 iv t0 q n]; cbn; break; reflexivity. }
  assert (D : forall w, isMounted (refs (exec (prefetchEffect prev cur) w)) = isMounted (refs w)).
  { intros x. unfold_callbacks; run_m.
    destruct x as [v [g i tr m] p0 s0 iv t0 q n]; cbn; break; reflexivity. }
  rewrite D, C, B, A. reflexivity.
Qed.

Lemma render_mounted n prev w : isMounted (refs (render n prev w)) = isMounted (refs w).
Proof.
  revert prev w; induction n as [|n IH]; intros prev w; simpl; [reflexivity|].
  rewrite IH. apply effects_mounted.
Qed.

(** ** The countdown *)

Lemma only_timer_none (iv : list nat) :
  (forall id, In id iv -> @None nat = Some id) -> iv = [].
Proof. destruct iv as [|i iv]; [reflexivity|]. intros H. discriminate (H i (or_introl eq_refl)). Qed.

Lemma only_timer_filter (iv : list nat) i0 :
  (forall id, In id iv -> Some i0 = Some id) ->
  List.filter (fun j => negb (Nat.eqb j i0)) iv = [].
Proof.
  induction iv as [|i iv IH]; intros H; simpl; [reflexivity|].
  assert (E : i0 = i) by (specialize (H i (or_introl eq_refl)); congruence).
  subst i0. rewrite Nat.eqb_refl. simpl. apply IH. intros id Hid. apply H. right; exact Hid.
Qed.

Lemma timerEffect_clock prev cur w :
  isMounted (refs w) = true -> TimerInv w ->
  gameStatus (vars w) = gameStatus cur -> timeLeft (vars w) = timeLeft cur ->
  0 <= timeLeft cur <= ROUND_TIME ->
  (sameTimerDeps prev cur = true ->
   Counting cur w /\ (gameStatus cur = PLAYING -> 0 < timeLeft cur)) ->
  Clock (exec (timerEffect prev cur) w).
Proof.
  intros Hm Ht Hs Htl Hr Hsame.
  unfold timerEffect. fold (sameTimerDeps prev cur).
  destruct (sameTimerDeps prev cur) eqn:E.
  - destruct (Hsame eq_refl) as [Hc Hp]. unfold exec, skip, ret. simpl.
    constructor.
    + unfold Counting, counting in *. rewrite Hs, Htl. exact Hc.
    + rewrite Htl. exact Hr.
    + rewrite Hs, Htl. exact Hp.
  - clear Hsame. unfold handleTimeUp, cleanupTimer, handleGameEvent. run_m.
    destruct w as [v [g i t m] p s iv tr q n]; cbn in *. subst m.
    unfold TimerInv in Ht; cbn in Ht.
    destruct t as [id|].
    + pose proof (only_timer_filter _ _ Ht) as F.
      break; constructor; unfold Counting, counting; cbn;
        rewrite ?Hs, ?Htl, ?F, ?Nat.eqb_refl; cbn;
        repeat match goal with H : _ = true |- _ => rewrite H | H : _ = false |- _ => rewrite H end;
        cbn; eauto; try lia; try discriminate.
      all: intros Hp; rewrite Hp in *; cbn in *; rewrite Z.gtb_ltb in *;
        destruct (Z.ltb_spec 0 (timeLeft cur)); destruct (Z.leb_spec (timeLeft cur) 0);
        cbn in *; try discriminate; lia.
    + pose proof (only_timer_none _ Ht) as F. subst iv.
      break; constructor; unfold Counting, counting; cbn;
        rewrite ?Hs, ?Htl, ?Nat.eqb_refl; cbn;
        repeat match goal with H : _ = true |- _ => rewrite H | H : _ = false |- _ => rewrite H end;
        cbn; eauto; try lia; try discriminate.
      all: intros Hp; rewrite Hp in *; cbn in *; rewrite Z.gtb_ltb in *;
        destruct (Z.ltb_spec 0 (timeLeft cur)); destruct (Z.leb_spec (timeLeft cur) 0);
        cbn in *; try discriminate; lia.
Qed.

Lemma ClockStep_refl w : ClockStep w w.
Proof. constructor; auto. Qed.

Lemma ClockStep_trans a b c : ClockStep a b -> ClockStep b c -> ClockStep a c.
Proof.
  intros [i1 t1 m1 l1] [i2 t2 m2 l2]. constructor; try congruence.
  - destruct l2 as [l2|l2]; [|right; exact l2]. destruct l1 as [l1|l1]; [left; congruence|].
    right; congruence.
Qed.

Lemma Due_of_Clock prev w : Clock w -> Due prev w.
Proof. intros [a b c]. constructor; auto. Qed.

Lemma GameStatus_eqb_eq a b : GameStatus_eqb a b = true -> a = b.
Proof. destruct (GameStatus_eqb_spec a b); [auto|discriminate]. Qed.

Lemma Due_of_ClockStep w w' : ClockStep w w' -> Clock w -> Due (vars w) w'.
Proof.
  intros [i t m l] [a b c]. constructor.
  - destruct l as [l|l]; rewrite l; [exact b | unfold ROUND_TIME; lia].
  - unfold sameTimerDeps. intros H.
    apply andb_true_iff in H as [H _]. apply andb_true_iff in H as [H1 H2].
    apply GameStatus_eqb_eq in H1. apply Z.eqb_eq in H2.
    unfold Counting, counting in *. rewrite i, t, m, <- H1, <- H2. auto.
Qed.

Lemma Untimed_ClockStep w w' : Untimed w w' -> ClockStep w w'.
Proof. intros [i t m s l]. constructor; auto. Qed.

Lemma Untimed_Clock w w' : Untimed w w' -> Clock w -> Clock w'.
Proof.
  intros [i t m s l] [a b c]. constructor; unfold Counting, counting in *;
    rewrite ?i, ?t, ?m, ?s, ?l; auto.
Qed.

Ltac untimed_tac :=
  unfold_callbacks; unfold stale; run_m;
  match goal with w : World |- _ => destruct w as [? [? ? ? ?] ? ? ? ? ? ?] end;
  cbn; break; constructor; reflexivity.

Lemma styleEffect_untimed prev cur w : Untimed w (exec (styleEffect prev cur) w).
Proof. untimed_tac. Qed.

Lemma prefetchEffect_untimed prev cur w : Untimed w (exec (prefetchEffect prev cur) w).
Proof. untimed_tac. Qed.

Lemma handleInput_untimed c rawValue w : Untimed w (exec (handleInput c rawValue) w).
Proof. untimed_tac. Qed.

Lemma setImageStyle_untimed style w : Untimed w (exec (setImageStyle style) w).
Proof. constructor; reflexivity. Qed.

Lemma resume_ClockStep s t w : ClockStep w (exec (resume s t) w).
Proof.
  destruct t, s; simpl; unfold_callbacks; unfold stale; run_m;
    destruct w as [? [? ? ? ?] ? ? ? ? ? ?]; cbn; break; constructor; cbn; auto.
Qed.

Lemma resumeAll_ClockStep s ts w : ClockStep w (exec (resumeAll s ts) w).
Proof.
  revert w; induction ts as [|t ts IH]; intros w; simpl; [apply ClockStep_refl|].
  rewrite exec_seq. eapply ClockStep_trans; [apply resume_ClockStep | apply IH].
Qed.

Lemma settle_ClockStep p s w : ClockStep w (exec (settle p s) w).
Proof.
  unfold settle, exec.
  destruct (issued p w && negb (isSome (outcome p (settled w)))); [|apply ClockStep_refl].
  change (ClockStep w (exec (recordSettled p s ;;
                     onPending (List.filter (fun t => negb (awaits p t))) ;;
                     resumeAll s (reactions p s (pending w))) w)).
  rewrite !exec_seq.
  eapply ClockStep_trans; [|apply resumeAll_ClockStep]. constructor; auto.
Qed.

Lemma microtask_ClockStep w : ClockStep w (exec microtask w).
Proof.
  unfold microtask, exec.
  destruct (pick _ (pending w)) as [[t rest]|]; [|apply ClockStep_refl].
  destruct (available (settled w) t) as [s|]; [|apply ClockStep_refl].
  change (ClockStep w (exec (onPending (fun _ => rest) ;; resume s t) w)).
  rewrite exec_seq. eapply ClockStep_trans; [|apply resume_ClockStep]. constructor; auto.
Qed.

Lemma timeout_ClockStep w : ClockStep w (exec timeout w).
Proof.
  unfold timeout, exec.
  destruct (pick isTimeout (pending w)) as [[t rest]|]; [|apply ClockStep_refl].
  change (ClockStep w (exec (onPending (fun _ => rest) ;;
                             resume (Rejected NotAnError) (WrongGuessTimeout 0)) w)).
  rewrite exec_seq. eapply ClockStep_trans; [|apply resume_ClockStep]. constructor; auto.
Qed.

Ltac clock_goals Ht :=
  match type of Ht with
  | forall id, In id ?iv -> Some ?i0 = Some id =>
      let F := fresh "F" in pose proof (only_timer_filter _ _ Ht) as F
  | forall id, In id ?iv -> None = Some id =>
      let F := fresh "F" in pose proof (only_timer_none _ Ht) as F; subst iv
  end.

Ltac clock_close :=
  constructor; unfold Counting, counting in *; cbn in *;
  rewrite ?andb_false_r in *; cbn in *;
  repeat match goal with
         | F : List.filter _ _ = [] |- _ => rewrite F
         end;
  cbn; try assumption; try reflexivity; try discriminate; try (unfold ROUND_TIME; lia).

Lemma guessEffect_clock prev cur w :
  TimerInv w -> Clock w -> Clock (exec (guessEffect prev cur) w).
Proof.
  intros Ht [a b c].
  unfold guessEffect, evaluateGuess, handleCorrectGuess, handleIncorrectGuess, cleanupTimer,
    handleGameEvent. run_m.
  destruct w as [v [g i t m] p s iv tr q n]; unfold TimerInv in Ht; cbn in *.
  destruct t as [id|]; clock_goals Ht; break; clock_close.
Qed.

Lemma startNewGame_clock c w :
  TimerInv w -> Clock w -> Clock (exec (startNewGame c) w).
Proof.
  intros Ht [a b c0].
  unfold startNewGame, cleanupTimer, getNewGameData, handleGameEvent, stale. run_m.
  destruct w as [v [g i t m] p s iv tr q n]; unfold TimerInv in Ht; cbn in *.
  destruct t as [id|]; clock_goals Ht; break; clock_close.
Qed.

Lemma handleResetGame_clock w :
  TimerInv w -> Clock w -> Clock (exec handleResetGame w).
Proof.
  intros Ht [a b c0].
  unfold handleResetGame, cleanupTimer. run_m.
  destruct w as [v [g i t m] p s iv tr q n]; unfold TimerInv in Ht; cbn in *.
  destruct t as [id|]; clock_goals Ht; break; clock_close.
Qed.

Lemma unmount_clock w : TimerInv w -> Clock w -> Clock (exec unmount w).
Proof.
  intros Ht [a b c0].
  unfold unmount, cleanupTimer. run_m.
  destruct w as [v [g i t m] p s iv tr q n]; unfold TimerInv in Ht; cbn in *.
  destruct t as [id|]; clock_goals Ht; break; clock_close.
Qed.

Lemma tick_due id w : Clock w -> Due (vars w) (exec (tick id) w).
Proof.
  intros H. unfold tick, exec.
  destruct (existsb (Nat.eqb id) (intervals w)) eqn:E; [|apply Due_of_Clock, H].
  destruct H as [a b c]. unfold Counting in a.
  destruct (counting (vars w) w) eqn:Ec.
  - unfold counting in Ec. apply andb_true_iff in Ec as [Ec Hp].
    apply Z.gtb_lt in Hp.
    constructor; cbn; [lia|].
    unfold sameTimerDeps; cbn. intros H.
    apply andb_true_iff in H as [H _]. apply andb_true_iff in H as [_ H].
    apply Z.eqb_eq in H. lia.
  - rewrite a in E. discriminate.
Qed.

Lemma effects_clock prev w :
  isMounted (refs w) = true -> Inv w -> Due prev w ->
  Clock (exec (effects prev (vars w)) w).
Proof.
  intros Hm H [Hr Hs]. pose proof (Link_start w H) as L. unfold effects.
  rewrite !exec_seq.
  destruct (styleEffect_pass prev (vars w) w H L) as [H1 L1].
  destruct (timerEffect_pass prev (vars w) _ H1 L1) as [H2 L2].
  pose proof (styleEffect_untimed prev (vars w) w) as [i t m s l].
  apply (Untimed_Clock _ _ (prefetchEffect_untimed _ _ _)).
  apply guessEffect_clock; [exact (inv_timer _ _ H2)|].
  apply timerEffect_clock.
  - rewrite m. exact Hm.
  - exact (inv_timer _ _ H1).
  - exact s.
  - exact l.
  - exact Hr.
  - intros E. destruct (Hs E) as [C P]. split; [|exact P].
    unfold Counting, counting in *. rewrite i, t, m. exact C.
Qed.

Lemma render_clock n prev w :
  isMounted (refs w) = true -> Inv w -> Due prev w -> Clock (render (S n) prev w).
Proof.
  revert prev w; induction n as [|n IH]; intros prev w Hm H D.
  - simpl. apply effects_clock; assumption.
  - change (Clock (render (S n) (vars w) (exec (effects prev (vars w)) w))).
    apply IH.
    + rewrite effects_mounted. exact Hm.
    + apply effects_inv, H.
    + apply Due_of_Clock, effects_clock; assumption.
Qed.

Lemma handle_due e w :
  e <> Unmount -> Inv w -> Clock w -> Due (vars w) (exec (handle e (vars w)) w).
Proof.
  intros He H C. pose proof (inv_timer _ _ H) as Ht. destruct e; simpl.
  - apply Due_of_Clock, startNewGame_clock; assumption.
  - apply Due_of_Clock, handleResetGame_clock; assumption.
  - apply Due_of_ClockStep; [apply Untimed_ClockStep, handleInput_untimed | exact C].
  - apply Due_of_ClockStep; [apply Untimed_ClockStep, setImageStyle_untimed | exact C].
  - apply tick_due, C.
  - apply Due_of_ClockStep; [apply settle_ClockStep | exact C].
  - apply Due_of_ClockStep; [apply microtask_ClockStep | exact C].
  - apply Due_of_ClockStep; [apply timeout_ClockStep | exact C].
  - congruence.
Qed.

Lemma Frozen_Clock w w' : Frozen w w' -> Clock w -> Clock w'.
Proof.
  intros [v r i t q] [a b c]. constructor; unfold Counting, counting in *;
    rewrite ?v, ?r, ?i; auto.
Qed.

Lemma step_clock e w : Inv w -> Clock w -> Clock (step e w).
Proof.
  intros H C. destruct (isMounted (refs w)) eqn:Hm.
  - assert (R : e <> Unmount ->
                step e w = render 2 (vars w) (exec (handle e (vars w)) w)).
    { intros He. unfold step. rewrite Hm. destruct e; congruence. }
    destruct e; try (rewrite R by discriminate; apply render_clock;
      [rewrite handle_mounted by discriminate; exact Hm
      | apply handle_inv, H
      | apply handle_due; [discriminate | exact H | exact C]]).
    unfold step. rewrite Hm. apply unmount_clock; [exact (inv_timer _ _ H) | exact C].
  - eapply Frozen_Clock; [apply step_unmounted, Hm | exact C].
Qed.

Lemma initial_clock : Clock initial.
Proof. constructor; cbn; [reflexivity | unfold ROUND_TIME; lia | discriminate]. Qed.

Lemma run_clock es w : Inv w -> Clock w -> Clock (run es w).
Proof.
  revert w; induction es as [|e es IH]; intros w H C; simpl; [exact C|].
  apply IH; [apply step_inv, H | apply step_clock; assumption].
Qed.

Lemma reachable_clock es : Clock (run es initial).
Proof. apply run_clock; [apply initial_inv | apply initial_clock]. Qed.

(** The commit after a tick of the countdown in a round that is being
    played. *)
Lemma timerEffect_runs prev cur w id :
  timeLeft prev <> timeLeft cur ->
  intervals w = [id] -> timerRef (refs w) = Some id -> gameStatus cur = PLAYING ->
  exec (timerEffect prev cur) w =
  if timeLeft cur >? 0 then
    mkWorld (vars w)
            (mkRefs (nextGamePromiseRef (refs w)) (roundIdRef (refs w)) (Some (nextId w))
                    (isMounted (refs w)))
            (pending w) (settled w) [nextId w] (trace w) (requests w) (S (nextId w))
  else
    mkWorld (vars (exec (setGameStatus LOST) w))
            (mkRefs (nextGamePromiseRef (refs w)) (roundIdRef (refs w)) None
                    (isMounted (refs w)))
            (pending w) (settled w) [] (trace w ++ [timeUpEvent cur]) (requests w) (nextId w).
Proof.
  intros Hne Hi Ht Hs. unfold timerEffect.
  destruct (Z.eqb_spec (timeLeft prev) (timeLeft cur)) as [|_]; [contradiction|].
  rewrite andb_false_r. cbn [andb].
  unfold handleTimeUp, cleanupTimer, handleGameEvent, timeUpEvent. run_m.
  destruct w as [v [g i t m] p s iv tr q n]; cbn in *. subst iv t.
  rewrite Hs. cbn. rewrite Nat.eqb_refl. cbn.
  destruct (timeLeft cur >? 0) eqn:E; cbn.
  - reflexivity.
  - rewrite Z.gtb_ltb in E. apply Z.ltb_ge in E. apply Z.leb_le in E. rewrite E. cbn.
    rewrite ?Nat.eqb_refl. reflexivity.
Qed.

Lemma step_tick w id :
  Clock w -> isMounted (refs w) = true -> gameStatus (vars w) = PLAYING ->
  timerRef (refs w) = Some id ->
  let w' := step (Tick id) w in
  timeLeft (vars w') = timeLeft (vars w) - 1
  /\ score (vars w') = score (vars w)
  /\ answer (vars w') = answer (vars w)
  /\ explanation (vars w') = explanation (vars w)
  /\ (if timeLeft (vars w) =? 1
      then gameStatus (vars w') = LOST /\ trace w' = (trace w ++ [timeUpEvent (vars w)])%list
      else gameStatus (vars w') = PLAYING /\ trace w' = trace w).
Proof.
  intros [Hc Hr Hp] Hm Hs Ht w'. subst w'.
  specialize (Hp Hs).
  unfold Counting, counting in Hc. rewrite Hm, Hs in Hc. cbn in Hc.
  rewrite (proj2 (Z.gtb_lt _ _) Hp) in Hc. destruct Hc as (id' & Hi & Ht').
  assert (id' = id) by congruence. subst id'.
  unfold step. rewrite Hm. cbn [handle].
  assert (T : exec (tick id) w = exec decrementTimeLeft w).
  { unfold tick, exec. rewrite Hi. cbn. rewrite Nat.eqb_refl. reflexivity. }
  rewrite T. set (w1 := exec decrementTimeLeft w).
  assert (P1 : exec (effects (vars w) (vars w1)) w1
               = exec (timerEffect (vars w) (vars w1)) w1).
  { unfold effects. rewrite !exec_seq.
    unfold styleEffect at 1. change (imageStyle (vars w1)) with (imageStyle (vars w)).
    rewrite String.eqb_refl. change (exec skip w1) with w1.
    rewrite guessEffect_skip, prefetchEffect_skip by reflexivity. reflexivity. }
  rewrite render_2, P1.
  rewrite (timerEffect_runs (vars w) (vars w1) w1 id); try assumption; try reflexivity.
  2:{ cbn. lia. }
  change (timeLeft (vars w1)) with (timeLeft (vars w) - 1).
  destruct (Z.eqb_spec (timeLeft (vars w)) 1) as [E1|E1].
  - rewrite E1. change (1 - 1 >? 0) with false. cbv iota.
    set (w2 := mkWorld _ _ _ _ _ _ _ _).
    assert (S2 : gameStatus (vars w2) = LOST) by reflexivity.
    assert (P2 : exec (guessEffect (vars w1) (vars w2))
                   (exec (timerEffect (vars w1) (vars w2))
                      (exec (styleEffect (vars w1) (vars w2)) w2)) = w2).
    { unfold styleEffect at 1. change (imageStyle (vars w2)) with (imageStyle (vars w1)).
      rewrite String.eqb_refl. change (exec skip w2) with w2.
      assert (A : exec (timerEffect (vars w1) (vars w2)) w2 = w2).
      { unfold timerEffect. rewrite S2. change (gameStatus (vars w1)) with (gameStatus (vars w)).
        rewrite Hs. cbn. run_m. rewrite andb_false_r. destruct w2; reflexivity. }
      rewrite A. unfold guessEffect, evaluateGuess. rewrite S2.
      change (gameStatus (vars w1)) with (gameStatus (vars w)). rewrite Hs.
      rewrite !andb_false_r. reflexivity. }
    unfold effects. rewrite !exec_seq, P2.
    destruct (prefetchEffect_vars (vars w1) (vars w2) w2) as [V T2].
    rewrite V, T2. subst w2 w1. cbn. repeat split. lia.
  - destruct (timeLeft (vars w) - 1 >? 0) eqn:E; [|rewrite Z.gtb_ltb in E; apply Z.ltb_ge in E; lia].
    set (w2 := mkWorld _ _ _ _ _ _ _ _).
    change (vars w2) with (vars w1). rewrite effects_unchanged.
    subst w2 w1. cbn. rewrite Hs. repeat split.
Qed.

Lemma step_mounted e w :
  e <> Unmount -> isMounted (refs (step e w)) = isMounted (refs w).
Proof.
  intros He. unfold step. destruct (isMounted (refs w)) eqn:Hm.
  - destruct e; try congruence;
      rewrite render_mounted, handle_mounted by discriminate; exact Hm.
  - destruct (fromPage e); [exact Hm|]. rewrite handle_mounted by exact He. exact Hm.
Qed.

Lemma Clock_timerRef w :
  Clock w -> isMounted (refs w) = true -> gameStatus (vars w) = PLAYING ->
  exists id, intervals w = [id] /\ timerRef (refs w) = Some id.
Proof.
  intros [Hc Hr Hp] Hm Hs. specialize (Hp Hs).
  unfold Counting, counting in Hc. rewrite Hm, Hs in Hc. cbn in Hc.
  rewrite (proj2 (Z.gtb_lt _ _) Hp) in Hc. exact Hc.
Qed.

Lemma Clock_idle w :
  Clock w -> gameStatus (vars w) <> PLAYING -> intervals w = [].
Proof.
  intros [Hc _ _] Hs. unfold Counting, counting in Hc.
  destruct (GameStatus_eqb_spec (gameStatus (vars w)) PLAYING) as [E|_]; [contradiction|].
  rewrite andb_false_r in Hc. exact Hc.
Qed.

Lemma seconds_spec n : forall w,
  Inv w -> Clock w -> isMounted (refs w) = true -> gameStatus (vars w) = PLAYING ->
  timeLeft (vars w) = Z.of_nat n ->
  (forall k, (k < n)%nat ->
     gameStatus (vars (seconds k w)) = PLAYING
     /\ timeLeft (vars (seconds k w)) = timeLeft (vars w) - Z.of_nat k)
  /\ gameStatus (vars (seconds n w)) = LOST
  /\ timeLeft (vars (seconds n w)) = 0
  /\ score (vars (seconds n w)) = score (vars w)
  /\ trace (seconds n w) = (trace w ++ [timeUpEvent (vars w)])%list
  /\ intervals (seconds n w) = [].
Proof.
  induction n as [|m IH]; intros w H C Hm Hs Hn.
  - pose proof (clock_playing _ C Hs). lia.
  - destruct (Clock_timerRef w C Hm Hs) as (id & Hi & Ht).
    assert (F : countdownFires w = step (Tick id) w) by (unfold countdownFires; rewrite Ht; reflexivity).
    destruct (step_tick w id C Hm Hs Ht) as (T1 & T2 & T3 & T4 & T5).
    assert (H' : Inv (step (Tick id) w)) by (apply step_inv, H).
    assert (C' : Clock (step (Tick id) w)) by (apply step_clock; assumption).
    assert (Hm' : isMounted (refs (step (Tick id) w)) = true)
      by (rewrite step_mounted by discriminate; exact Hm).
    cbn [seconds]. rewrite F.
    destruct (Z.eqb_spec (timeLeft (vars w)) 1) as [E|E].
    + destruct T5 as [T5 T6].
      assert (m = O) by lia. subst m. cbn [seconds].
      split.
      { intros k Hk. assert (k = O) by lia. subst k. cbn [seconds].
        split; [exact Hs | cbn; lia]. }
      split; [exact T5|]. split; [lia|]. split; [exact T2|]. split; [exact T6|].
      apply Clock_idle; [exact C' | rewrite T5; discriminate].
    + destruct T5 as [T5 T6].
      destruct (IH (step (Tick id) w) H' C' Hm' T5) as (I1 & I2 & I3 & I4 & I5 & I6); [lia|].
      split.
      { intros [|k] Hk; cbn [seconds].
        - split; [exact Hs | cbn; lia].
        - rewrite F. destruct (I1 k) as [A B]; [lia|]. split; [exact A | rewrite B; lia]. }
      split; [exact I2|]. split; [exact I3|]. split; [congruence|].
      split; [|exact I6].
      rewrite I5, T6. unfold timeUpEvent. rewrite T3, T4. reflexivity.
Qed.





(** X2. Once the component has been unmounted nothing changes any more:
    whatever completes or fires afterwards (provider answers, resumed
    awaits, timeouts, events of the page), the state variables, the refs,
    the notifications and the provider calls stay as the unmount left
    them, and no interval is live. *)
Theorem nothing_changes_after_unmount :
  forall es later : list Event,
    let w := step Unmount (run es initial) in
    isMounted (refs w) = false
    /\ intervals w = []
    /\ vars (run later w) = vars w
    /\ refs (run later w) = refs w
    /\ trace (run later w) = trace w
    /\ requests (run later w) = requests w
    /\ intervals (run later w) = [].
Proof.
  intros es later w.
  assert (Hm : isMounted (refs w) = false).
  { subst w. unfold step. destruct (isMounted (refs (run es initial))) eqn:E; [|exact E].
    unfold unmount, cleanupTimer. run_m. break; reflexivity. }
  assert (Hi : intervals w = []).
  { assert (C : Clock w) by (apply step_clock; [apply reachable_inv | apply reachable_clock]).
    destruct C as [Hc _ _]. unfold Counting, counting in Hc. rewrite Hm in Hc. exact Hc. }
  destruct (run_unmounted later w Hm) as [F1 F2 F3 F4 F5].
  repeat split; try assumption. rewrite F3. exact Hi.
Qed.

(** X3. A round that is being played is lost by the countdown alone
    after exactly as many ticks as there is time left: until then the
    status stays [PLAYING] and the time left goes down by one per tick;
    the last tick brings the time to 0, sets the status to [LOST], leaves
    the score alone, stops the countdown and sends one notification,
    "Time ran out." with the answer and the explanation for the AI. *)
Theorem the_countdown_loses_the_round :
  forall es : list Event,
    let w := run es initial in
    let n := Z.to_nat (timeLeft (vars w)) in
    isMounted (refs w) = true ->
    gameStatus (vars w) = PLAYING ->
    (forall k : nat, (k < n)%nat ->
       gameStatus (vars (seconds k w)) = PLAYING
       /\ timeLeft (vars (seconds k w)) = timeLeft (vars w) - Z.of_nat k)
    /\ gameStatus (vars (seconds n w)) = LOST
    /\ timeLeft (vars (seconds n w)) = 0
    /\ score (vars (seconds n w)) = score (vars w)
    /\ trace (seconds n w) = (trace w ++ [timeUpEvent (vars w)])%list
    /\ intervals (seconds n w) = [].
Proof.
  intros es w n Hm Hs.
  pose proof (reachable_clock es) as C. fold w in C.
  apply seconds_spec; try assumption.
  - apply reachable_inv.
  - subst n. pose proof (clock_range _ C). lia.
Qed.

Lemma the_countdown_loses_the_round_witness :
  isMounted (refs (run dieHardRound initial)) = true
  /\ gameStatus (vars (run dieHardRound initial)) = PLAYING
  /\ timeLeft (vars (run dieHardRound initial)) = 30
  /\ gameStatus
       (vars (seconds (Z.to_nat (timeLeft (vars (run dieHardRound initial))))
                      (run dieHardRound initial))) = LOST.
Proof.
  assert (Hm : isMounted (refs (run dieHardRound initial)) = true)
    by (vm_compute; reflexivity).
  assert (Hs : gameStatus (vars (run dieHardRound initial)) = PLAYING)
    by (vm_compute; reflexivity).
  pose proof (the_countdown_loses_the_round dieHardRound) as H. cbv zeta in H.
  destruct (H Hm Hs) as (_ & H2 & _).
  split; [exact Hm|]. split; [exact Hs|]. split; [vm_compute; reflexivity|].
  exact H2.
Defined.

(** ** Letters and digits *)

Lemma isAlnum_lowerChar ch : Js.isAlnum (Js.lowerChar ch) = Js.isAlnum ch.
Proof.
  destruct ch as [[] [] [] [] [] [] [] []]; reflexivity.
Qed.

Lemma allChars_filter f s : allChars f (Js.filter f s) = true.
Proof.
  induction s as [|ch s IH]; simpl; [reflexivity|].
  destruct (f ch) eqn:E; simpl; [rewrite E|]; exact IH.
Qed.

Lemma allChars_slice0 f n s : allChars f s = true -> allChars f (Js.slice0 n s) = true.
Proof.
  revert s; induction n as [|n IH]; intros [|ch s]; simpl; auto.
  intros H. apply andb_true_iff in H as [H1 H2]. rewrite H1. simpl. apply IH, H2.
Qed.

Lemma allChars_map_lower s :
  allChars Js.isAlnum (Js.map Js.lowerChar s) = allChars Js.isAlnum s.
Proof.
  induction s as [|ch s IH]; simpl; [reflexivity|].
  rewrite isAlnum_lowerChar, IH. reflexivity.
Qed.

(** Equal in lower case: both are made of letters and digits, or neither. *)
Lemma allChars_lower_eq g a :
  Js.toLowerCase g = Js.toLowerCase a ->
  allChars Js.isAlnum g = allChars Js.isAlnum a.
Proof.
  intros H. rewrite <- (allChars_map_lower g), <- (allChars_map_lower a).
  unfold Js.toLowerCase in H. rewrite H. reflexivity.
Qed.

(** ** The invariants of the state variables are kept *)

Ltac sound_close :=
  constructor; cbn in *; rewrite ?length_app in *; cbn in *;
  try assumption; try reflexivity;
  try (intros; first [discriminate | congruence | contradiction]);
  try lia;
  try (apply allChars_slice0, allChars_filter).

Lemma startNewGame_sound w :
  Sound (vars w) -> Sound (vars (exec (startNewGame (vars w)) w)).
Proof.
  intros [E K0 K P G L W].
  unfold startNewGame, cleanupTimer, getNewGameData, handleGameEvent, stale. run_m.
  destruct w as [v r p s i t q n]; cbn in *.
  break; sound_close.
Qed.

Lemma handleResetGame_sound w : Sound (vars (exec handleResetGame w)).
Proof.
  unfold handleResetGame, cleanupTimer. run_m.
  destruct w as [v r p s i t q n]; cbn in *.
  break; sound_close.
Qed.

Lemma handleInput_sound w rawValue :
  Sound (vars w) -> Sound (vars (exec (handleInput (vars w) rawValue) w)).
Proof.
  intros [E K0 K P G L W].
  unfold handleInput, handleGuessChange, isDisabled. run_m.
  destruct w as [v r p s i t q n]; cbn in *.
  break; sound_close.
Qed.

Lemma setImageStyle_sound w style :
  Sound (vars w) -> Sound (vars (exec (setImageStyle style) w)).
Proof. intros [E K0 K P G L W]. sound_close. Qed.

Lemma tick_sound w id : Sound (vars w) -> Sound (vars (exec (tick id) w)).
Proof.
  intros [E K0 K P G L W]. unfold tick, exec.
  destruct (existsb (Nat.eqb id) (intervals w)); sound_close.
Qed.

Lemma resume_await_sound s roundId a rs w :
  InvR (roundId :: rs) w -> Sound (vars w) ->
  Sound (vars (exec (resume s (AwaitGameData roundId a)) w)).
Proof.
  intros H S. destruct (Z.eq_dec (roundIdRef (refs w)) roundId) as [<-|Hne].
  - destruct (isMounted (refs w)) eqn:Hm.
    + destruct (inv_loading _ _ H (or_introl eq_refl)) as [Hs Hg].
      destruct S as [E K0 K P G L W].
      assert (Er : error (vars w) = None).
      { destruct (error (vars w)) as [e|] eqn:Ee; [|reflexivity].
        rewrite E in Hs by discriminate. discriminate. }
      destruct s; [rewrite resume_fulfilled_current by assumption
                  |rewrite resume_rejected_current by assumption];
        sound_close.
      apply last_last.
    + rewrite resume_unmounted by assumption. exact S.
  - rewrite resume_stale by assumption. exact S.
Qed.

Lemma resume_other_sound s t w :
  isAwait t = false -> Sound (vars w) -> Sound (vars (exec (resume s t) w)).
Proof.
  intros Ha [E K0 K P G L W].
  destruct t; [discriminate| |]; destruct s; simpl;
  unfold prefetchFulfilled, prefetchRejected, wrongGuessTimeout; run_m;
  destruct w as [v r p0 s0 i t0 q n]; cbn in *;
  break; sound_close.
Qed.

Lemma resumeAll_sound s ts rs w :
  InvR (awaitedRounds ts ++ rs) w -> Sound (vars w) ->
  Sound (vars (exec (resumeAll s ts) w)).
Proof.
  revert w; induction ts as [|t ts IH]; intros w H S; simpl; [exact S|].
  rewrite exec_seq.
  destruct t as [roundId a|q|d]; simpl in H.
  - apply IH; [apply (resume_await_inv s roundId a), H
              |apply (resume_await_sound s roundId a _ _ H S)].
  - apply IH; [apply (resume_other_inv s (PrefetchReaction q)); auto
              |apply (resume_other_sound s (PrefetchReaction q)); auto].
  - apply IH; [apply (resume_other_inv s (WrongGuessTimeout d)); auto
              |apply (resume_other_sound s (WrongGuessTimeout d)); auto].
Qed.

Lemma settle_sound p s w : Inv w -> Sound (vars w) -> Sound (vars (exec (settle p s) w)).
Proof.
  intros H S. unfold settle, exec.
  destruct (issued p w && negb (isSome (outcome p (settled w)))); [|exact S].
  change (Sound (vars (exec (recordSettled p s ;;
                     onPending (List.filter (fun t => negb (awaits p t))) ;;
                     resumeAll s (reactions p s (pending w))) w))).
  rewrite !exec_seq.
  apply resumeAll_sound
    with (rs := awaitedRounds (List.filter (fun t => negb (awaits p t)) (pending w)));
    [|exact S].
  eapply InvR_frame with (w := w); try reflexivity.
  eapply InvR_perm; [|exact H].
  etransitivity; [apply (awaitedRounds_split (awaits p))|].
  apply Permutation_app; [apply awaitedRounds_reactions|reflexivity].
Qed.

Lemma resume_picked_sound s t rest w :
  Permutation (awaitedRounds (pending w)) (awaitedRounds (t :: rest)) ->
  Inv w -> Sound (vars w) ->
  Sound (vars (exec (onPending (fun _ => rest) ;; resume s t) w)).
Proof.
  intros P H S. rewrite exec_seq.
  eapply InvR_perm in H; [|exact P].
  apply InvR_frame with (w' := exec (onPending (fun _ => rest)) w) in H; try reflexivity.
  destruct t as [roundId a|q|d]; simpl awaitedRounds in H.
  - apply (resume_await_sound s roundId a _ _ H S).
  - apply (resume_other_sound s (PrefetchReaction q)); auto.
  - apply (resume_other_sound s (WrongGuessTimeout d)); auto.
Qed.

Lemma microtask_sound w : Inv w -> Sound (vars w) -> Sound (vars (exec microtask w)).
Proof.
  intros H S. unfold microtask, exec.
  destruct (pick _ (pending w)) as [[t rest]|] eqn:E; [|exact S].
  destruct (available (settled w) t) as [s|]; [|exact S].
  apply resume_picked_sound; [eapply pick_split; eassumption | exact H | exact S].
Qed.

Lemma timeout_sound w : Sound (vars w) -> Sound (vars (exec timeout w)).
Proof.
  intros S. unfold timeout, exec.
  destruct (pick isTimeout (pending w)) as [[t rest]|] eqn:E; [|exact S].
  change (Sound (vars (exec (onPending (fun _ => rest) ;;
                             resume (Rejected NotAnError) (WrongGuessTimeout 0)) w))).
  rewrite exec_seq. apply resume_other_sound; [reflexivity | exact S].
Qed.

Lemma unmount_sound w : Sound (vars w) -> Sound (vars (exec unmount w)).
Proof.
  intros [E K0 K P G L W]. unfold unmount, cleanupTimer. run_m.
  destruct w as [v r p s i t q n]; cbn in *.
  break; sound_close.
Qed.

Lemma handle_sound e w :
  Inv w -> Sound (vars w) -> Sound (vars (exec (handle e (vars w)) w)).
Proof.
  intros H S. destruct e as [| |rawValue|style|id|p s| | |]; simpl.
  - apply startNewGame_sound, S.
  - apply handleResetGame_sound.
  - apply handleInput_sound, S.
  - apply setImageStyle_sound, S.
  - apply tick_sound, S.
  - apply settle_sound; assumption.
  - apply microtask_sound; assumption.
  - apply timeout_sound, S.
  - apply unmount_sound, S.
Qed.

(** *** Effects *)

Lemma Linked_start w : Linked (vars w) w.
Proof. constructor; auto. Qed.

Ltac linked_close :=
  constructor; cbn in *; try assumption; try reflexivity; auto.

Lemma styleEffect_sound prev cur w :
  Sound (vars w) -> Linked cur w ->
  Sound (vars (exec (styleEffect prev cur) w)) /\ Linked cur (exec (styleEffect prev cur) w).
Proof.
  intros [E K0 K P G L W] [L1 L2 L3 L4 L5 L6].
  unfold styleEffect, invalidatePrefetch. run_m.
  destruct w as [v r p s i t q n]; cbn in *.
  break; (split; [sound_close | linked_close]).
Qed.

Lemma timerEffect_sound prev cur w :
  Sound cur -> Sound (vars w) -> Linked cur w ->
  Sound (vars (exec (timerEffect prev cur) w)) /\ Linked cur (exec (timerEffect prev cur) w).
Proof.
  intros [cE cK0 cK cP cG cL cW] [E K0 K P G L W] [L1 L2 L3 L4 L5 L6].
  unfold timerEffect, handleTimeUp, cleanupTimer, handleGameEvent. run_m.
  destruct w as [v r p s i t q n]; cbn in *.
  break; (split; [sound_close | linked_close]).
  all: intros He; rewrite L3 in He; apply cE in He; rewrite He in *; cbn in *;
    rewrite ?andb_false_r in *; discriminate.
Qed.

Lemma guessEffect_sound prev cur w :
  Sound cur -> Sound (vars w) -> Linked cur w ->
  Sound (vars (exec (guessEffect prev cur) w)).
Proof.
  intros [cE cK0 cK cP cG cL cW] [E K0 K P G L W] [L1 L2 L3 L4 L5 L6].
  unfold guessEffect, evaluateGuess, handleCorrectGuess, handleIncorrectGuess, cleanupTimer,
    handleGameEvent. run_m.
  destruct w as [v r p s i t q n]; cbn in *.
  break; sound_close.
  all: match goal with
       | H : negb (GameStatus_eqb (gameStatus _) PLAYING) = false |- _ =>
           apply negb_false_iff, GameStatus_eqb_eq in H; rename H into Hp
       end.
  all: match goal with
       | H : String.eqb _ _ = true |- _ => apply String.eqb_eq in H; rename H into Heq
       end.
  all: first
    [ intros He; rewrite L3 in He; apply cE in He; congruence
    | rewrite L1; specialize (cP Hp); lia
    | intros _; rewrite L2; fold (Js.stripWhitespace (answer cur));
      rewrite <- (allChars_lower_eq _ _ Heq); exact cG ].
Qed.

Lemma effects_sound prev w : Sound (vars w) -> Sound (vars (exec (effects prev (vars w)) w)).
Proof.
  intros S. unfold effects. rewrite !exec_seq, (proj1 (prefetchEffect_vars _ _ _)).
  destruct (styleEffect_sound prev (vars w) w S (Linked_start w)) as [S1 L1].
  destruct (timerEffect_sound prev (vars w) _ S S1 L1) as [S2 L2].
  apply guessEffect_sound; assumption.
Qed.

Lemma render_sound n prev w : Sound (vars w) -> Sound (vars (render n prev w)).
Proof.
  revert prev w; induction n as [|n IH]; intros prev w S; simpl; [exact S|].
  apply IH, effects_sound, S.
Qed.

Lemma step_sound e w : Inv w -> Sound (vars w) -> Sound (vars (step e w)).
Proof.
  intros H S. unfold step. destruct (isMounted (refs w)).
  - destruct e; try (apply render_sound, handle_sound; assumption).
    apply unmount_sound, S.
  - destruct (fromPage e); [exact S | apply handle_sound; assumption].
Qed.

Lemma initial_sound : Sound (vars initial).
Proof. constructor; cbn; try reflexivity; try discriminate; try lia; try congruence. Qed.

Lemma run_sound es w : Inv w -> Sound (vars w) -> Sound (vars (run es w)).
Proof.
  revert w; induction es as [|e es IH]; intros w H S; simpl; [exact S|].
  apply IH; [apply step_inv, H | apply step_sound; assumption].
Qed.

Lemma reachable_sound es : Sound (vars (run es initial)).
Proof. apply run_sound; [apply initial_inv | apply initial_sound]. Qed.

(** ** How the status moves *)

Lemma resumed_refl v : resumed v v.
Proof. left; auto. Qed.

Lemma resumed_trans a b c : resumed a b -> resumed b c -> resumed a c.
Proof.
  unfold resumed. intros [[A1 A2]|[A1 A2]] [[B1 B2]|[B1 B2]].
  - left; split; congruence.
  - right. split; [congruence | exact B2].
  - right. split; [exact A1|]. destruct A2 as [A2|[A2 A3]]; [left|right; split]; congruence.
  - exfalso. destruct A2 as [A2|[A2 A3]]; congruence.
Qed.

Lemma resume_await_resumed s roundId a rs w :
  InvR (roundId :: rs) w ->
  resumed (vars w) (vars (exec (resume s (AwaitGameData roundId a)) w)).
Proof.
  intros H. destruct (Z.eq_dec (roundIdRef (refs w)) roundId) as [<-|Hne].
  - destruct (isMounted (refs w)) eqn:Hm.
    + destruct (inv_loading _ _ H (or_introl eq_refl)) as [Hs Hg].
      destruct s; [rewrite resume_fulfilled_current by assumption
                  |rewrite resume_rejected_current by assumption];
        right; cbn; auto.
    + rewrite resume_unmounted by assumption. apply resumed_refl.
  - rewrite resume_stale by assumption. apply resumed_refl.
Qed.

Lemma resume_other_resumed s t w :
  isAwait t = false -> resumed (vars w) (vars (exec (resume s t) w)).
Proof.
  intros Ha.
  destruct t; [discriminate| |]; destruct s; simpl;
  unfold prefetchFulfilled, prefetchRejected, wrongGuessTimeout; run_m;
  destruct w as [v r p0 s0 i t0 q n]; cbn in *;
  break; left; auto.
Qed.

Lemma resumeAll_resumed s ts rs w :
  InvR (awaitedRounds ts ++ rs) w ->
  resumed (vars w) (vars (exec (resumeAll s ts) w)).
Proof.
  revert w; induction ts as [|t ts IH]; intros w H; simpl; [apply resumed_refl|].
  rewrite exec_seq.
  destruct t as [roundId a|q|d]; simpl in H.
  - eapply resumed_trans; [apply (resume_await_resumed s roundId a _ _ H)|].
    apply IH. apply (resume_await_inv s roundId a), H.
  - eapply resumed_trans; [apply (resume_other_resumed s (PrefetchReaction q)); auto|].
    apply IH. apply (resume_other_inv s (PrefetchReaction q)); auto.
  - eapply resumed_trans; [apply (resume_other_resumed s (WrongGuessTimeout d)); auto|].
    apply IH. apply (resume_other_inv s (WrongGuessTimeout d)); auto.
Qed.

Lemma settle_resumed p s w : Inv w -> resumed (vars w) (vars (exec (settle p s) w)).
Proof.
  intros H. unfold settle, exec.
  destruct (issued p w && negb (isSome (outcome p (settled w)))); [|apply resumed_refl].
  change (resumed (vars w) (vars (exec (recordSettled p s ;;
                     onPending (List.filter (fun t => negb (awaits p t))) ;;
                     resumeAll s (reactions p s (pending w))) w))).
  rewrite !exec_seq.
  apply (resumeAll_resumed s _
           (awaitedRounds (List.filter (fun t => negb (awaits p t)) (pending w)))
           (exec (onPending (List.filter (fun t => negb (awaits p t))))
                 (exec (recordSettled p s) w))).
  eapply InvR_frame with (w := w); try reflexivity.
  eapply InvR_perm; [|exact H].
  etransitivity; [apply (awaitedRounds_split (awaits p))|].
  apply Permutation_app; [apply awaitedRounds_reactions|reflexivity].
Qed.

Lemma microtask_resumed w : Inv w -> resumed (vars w) (vars (exec microtask w)).
Proof.
  intros H. unfold microtask, exec.
  destruct (pick _ (pending w)) as [[t rest]|] eqn:E; [|apply resumed_refl].
  destruct (available (settled w) t) as [s|]; [|apply resumed_refl].
  change (resumed (vars w) (vars (exec (onPending (fun _ => rest) ;; resume s t) w))).
  rewrite exec_seq.
  eapply InvR_perm in H; [|eapply pick_split; eassumption].
  apply InvR_frame with (w' := exec (onPending (fun _ => rest)) w) in H; try reflexivity.
  change (vars w) with (vars (exec (onPending (fun _ => rest)) w)).
  destruct t as [roundId a|q|d]; simpl awaitedRounds in H.
  - apply (resume_await_resumed s roundId a _ _ H).
  - apply (resume_other_resumed s (PrefetchReaction q)); auto.
  - apply (resume_other_resumed s (WrongGuessTimeout d)); auto.
Qed.

Lemma timeout_resumed w : resumed (vars w) (vars (exec timeout w)).
Proof.
  unfold timeout, exec.
  destruct (pick isTimeout (pending w)) as [[t rest]|] eqn:E; [|apply resumed_refl].
  change (resumed (vars w) (vars (exec (onPending (fun _ => rest) ;;
                             resume (Rejected NotAnError) (WrongGuessTimeout 0)) w))).
  rewrite exec_seq.
  apply (resume_other_resumed _ (WrongGuessTimeout 0)
           (exec (onPending (fun _ => rest)) w)). reflexivity.
Qed.

Lemma handle_handled e w :
  e <> Unmount -> Inv w -> handled (vars w) (vars (exec (handle e (vars w)) w)).
Proof.
  intros He H. destruct e as [| |rawValue|style|id|p s| | |]; simpl.
  - unfold startNewGame, cleanupTimer, getNewGameData, handleGameEvent, stale. run_m.
    destruct w as [v r p s i t q n]; cbn in *.
    destruct (GameStatus_eqb_spec (gameStatus v) LOADING) as [El|El].
    + cbn. left. left. auto.
    + break; right; left; auto.
  - right. right. left.
    unfold handleResetGame, cleanupTimer. run_m.
    destruct w as [v r p s i t q n]; cbn in *. break; reflexivity.
  - left. left.
    unfold handleInput, handleGuessChange, isDisabled. run_m.
    destruct w as [v r p s i t q n]; cbn in *. break; auto.
  - left. left. auto.
  - unfold tick, exec. destruct (existsb _ _); [right; right; right; cbn; auto | left; left; auto].
  - left. apply settle_resumed, H.
  - left. apply microtask_resumed, H.
  - left. apply timeout_resumed.
  - congruence.
Qed.

Lemma timerEffect_committed prev cur w :
  gameStatus (vars w) = gameStatus cur -> timeLeft (vars w) = timeLeft cur ->
  committed cur (vars (exec (timerEffect prev cur) w)).
Proof.
  intros Hs Ht. unfold committed, timerEffect, handleTimeUp, cleanupTimer, handleGameEvent.
  run_m. destruct w as [v r p s i t q n]; cbn in *.
  break; (split; [assumption|]); try (left; assumption).
  all: right;
    match goal with
    | H : (_ <=? 0) && GameStatus_eqb _ PLAYING = true |- _ =>
        apply andb_true_iff in H; destruct H as [H1 H2];
        apply Z.leb_le in H1; apply GameStatus_eqb_eq in H2
    end; auto.
Qed.

Lemma guessEffect_committed prev cur w :
  committed cur (vars w) -> committed cur (vars (exec (guessEffect prev cur) w)).
Proof.
  intros [Ht Hs]. unfold committed, guessEffect, evaluateGuess, handleCorrectGuess,
    handleIncorrectGuess, cleanupTimer, handleGameEvent.
  run_m. destruct w as [v r p s i t q n]; cbn in *.
  break; (split; [assumption|]); try assumption.
  all: match goal with
       | H : negb (GameStatus_eqb (gameStatus _) PLAYING) = false |- _ =>
           apply negb_false_iff, GameStatus_eqb_eq in H
       end; auto.
Qed.

Lemma effects_committed prev w :
  committed (vars w) (vars (exec (effects prev (vars w)) w)).
Proof.
  unfold effects. rewrite !exec_seq.
  destruct (prefetchEffect_untimed prev (vars w)
              (exec (guessEffect prev (vars w))
                 (exec (timerEffect prev (vars w)) (exec (styleEffect prev (vars w)) w))))
    as [_ _ _ P1 P2].
  destruct (styleEffect_untimed prev (vars w) w) as [_ _ _ S1 S2].
  pose proof (guessEffect_committed prev (vars w) _
                (timerEffect_committed prev (vars w) _ S1 S2)) as [C1 C2].
  split; [congruence|]. rewrite P1. exact C2.
Qed.

Lemma Event_eq_Unmount e : {e = Unmount} + {e <> Unmount}.
Proof. destruct e; (left; reflexivity) || (right; discriminate). Qed.

Lemma allowed_refl a : allowed a a = true.
Proof. destruct a; reflexivity. Qed.

(** An event on a mounted component: the handler, then two commits. *)
Lemma step_allowed e w :
  Inv w -> allowed (gameStatus (vars w)) (gameStatus (vars (step e w))) = true.
Proof.
  intros H. destruct (isMounted (refs w)) eqn:Hm.
  - destruct (Event_eq_Unmount e) as [->|He].
    + unfold step. rewrite Hm. unfold unmount, cleanupTimer. run_m.
      break; cbn; apply allowed_refl.
    + assert (R : step e w = render 2 (vars w) (exec (handle e (vars w)) w)).
      { unfold step. rewrite Hm. destruct e; congruence. }
      rewrite R, render_2.
      set (w1 := exec (handle e (vars w)) w).
      set (w2 := exec (effects (vars w) (vars w1)) w1).
      pose proof (handle_handled e w He H) as Hh. fold w1 in Hh.
      pose proof (effects_committed (vars w) w1) as [T1 C1]. fold w2 in T1, C1.
      pose proof (effects_committed (vars w1) w2) as [T2 C2].
      set (w3 := exec (effects (vars w1) (vars w2)) w2) in *.
      unfold handled, resumed in Hh. unfold ROUND_TIME in Hh.
      destruct (gameStatus (vars w)), (gameStatus (vars w1)), (gameStatus (vars w2)),
        (gameStatus (vars w3)); try reflexivity; exfalso;
        intuition (try discriminate; try congruence; try lia).
  - rewrite (frozen_vars _ _ (step_unmounted e w Hm)). apply allowed_refl.
Qed.

(** ** What every reachable world satisfies *)

(** X4. Over any event in any reachable world the status moves only
    along the round: to [IDLE] from anywhere, to [LOADING] from any other
    status, to [PLAYING] from [LOADING] only, to [LOST] from [PLAYING]
    only, to [WON] from [PLAYING] (or straight from [LOADING]) only.  In
    particular the outcome of a finished round is final: [WON] never
    becomes [LOST] or [PLAYING], [LOST] never becomes [WON] or
    [PLAYING]. *)
Theorem status_moves_along_the_round :
  forall (es : list Event) (e : Event),
    let before := gameStatus (vars (run es initial)) in
    let after := gameStatus (vars (step e (run es initial))) in
    allowed before after = true
    /\ (after = PLAYING -> before = LOADING \/ before = PLAYING)
    /\ (after = LOST -> before = PLAYING \/ before = LOST)
    /\ (after = WON -> before = PLAYING \/ before = LOADING \/ before = WON)
    /\ (before = WON -> after = WON \/ after = LOADING \/ after = IDLE)
    /\ (before = LOST -> after = LOST \/ after = LOADING \/ after = IDLE).
Proof.
  intros es e before after.
  assert (A : allowed before after = true) by (apply step_allowed, reachable_inv).
  split; [exact A|].
  destruct before, after; try discriminate A;
    repeat split; intros; try discriminate; auto.
Qed.

Lemma status_moves_along_the_round_witness :
  gameStatus (vars (run dieHardRound initial)) = PLAYING
  /\ gameStatus (vars (run [ClickStart] initial)) = LOADING.
Proof.
  assert (Hs : gameStatus (vars (step (Settle 0 (Fulfilled dieHard)) (run [ClickStart] initial)))
               = PLAYING) by (vm_compute; reflexivity).
  pose proof (status_moves_along_the_round [ClickStart] (Settle 0 (Fulfilled dieHard))) as H.
  cbv zeta in H. destruct H as (_ & H & _).
  split; [vm_compute; reflexivity|].
  destruct (H Hs) as [E|E]; [exact E|]. vm_compute in E. discriminate E.
Defined.

(** X5. In every reachable world the score lies between 0 and the number
    of rounds committed since the last reset (the length of
    [pastConcepts]), and strictly below that number while a round is
    being played: no round is won twice. *)
Theorem score_counts_rounds_won :
  forall es : list Event,
    let c := vars (run es initial) in
    0 <= score c <= Z.of_nat (List.length (pastConcepts c))
    /\ (gameStatus c = PLAYING -> score c < Z.of_nat (List.length (pastConcepts c))).
Proof.
  intros es c. pose proof (reachable_sound es) as [E K0 K P G L W]. fold c in E, K0, K, P.
  repeat split; assumption.
Qed.

Lemma score_counts_rounds_won_witness :
  gameStatus (vars (run fifthRound initial)) = PLAYING
  /\ score (vars (run fifthRound initial))
     < Z.of_nat (List.length (pastConcepts (vars (run fifthRound initial)))).
Proof.
  assert (Hs : gameStatus (vars (run fifthRound initial)) = PLAYING)
    by (vm_compute; reflexivity).
  pose proof (score_counts_rounds_won fifthRound) as H. cbv zeta in H.
  destruct H as (_ & H).
  split; [exact Hs | exact (H Hs)].
Defined.



(** X7. In every reachable world the answer is the last element of
    [pastConcepts] (and is empty when that list is empty), so the
    exclusion list that [prefetchNextRound] builds, [pastConcepts]
    followed by the answer, names a non-empty answer twice. *)
Theorem prefetch_excludes_the_answer_twice :
  forall es : list Event,
    let w := run es initial in
    let c := vars w in
    List.last (pastConcepts c) "" = answer c
    /\ (nextGamePromiseRef (refs w) = None ->
        answer c <> "" ->
        requests (exec (prefetchNextRound c) w)
          = (requests w
             ++ [mkRequest (List.length (requests w)) (pastConcepts c ++ [answer c])
                           (imageStyle c)])%list
        /\ exists l : list string,
             (pastConcepts c ++ [answer c] = l ++ [answer c; answer c])%list).
Proof.
  intros es w c. pose proof (reachable_sound es) as [E K0 K P G L W]. fold w c in L.
  split; [exact L|]. intros Hn Ha. split.
  - unfold prefetchNextRound, getNewGameData. run_m. rewrite Hn. cbn.
    destruct (answer c) eqn:Ea; [contradiction|]. reflexivity.
  - destruct (exists_last (l := pastConcepts c)) as (l & x & El).
    { intros En. rewrite En in L. cbn in L. congruence. }
    rewrite El in L. rewrite last_last in L. subst x.
    exists l. rewrite El, <- app_assoc. reflexivity.
Qed.

Lemma prefetch_excludes_the_answer_twice_witness :
  nextGamePromiseRef (refs (run dieHardRound initial)) = None
  /\ answer (vars (run dieHardRound initial)) <> ""
  /\ requests (exec (prefetchNextRound (vars (run dieHardRound initial)))
                    (run dieHardRound initial))
     = (requests (run dieHardRound initial)
        ++ [mkRequest (List.length (requests (run dieHardRound initial)))
                      (pastConcepts (vars (run dieHardRound initial))
                       ++ [answer (vars (run dieHardRound initial))])
                      (imageStyle (vars (run dieHardRound initial)))])%list.
Proof.
  assert (Hn : nextGamePromiseRef (refs (run dieHardRound initial)) = None)
    by (vm_compute; reflexivity).
  assert (Ha : answer (vars (run dieHardRound initial)) <> "")
    by (vm_compute; discriminate).
  pose proof (prefetch_excludes_the_answer_twice dieHardRound) as H. cbv zeta in H.
  destruct H as (_ & H). destruct (H Hn Ha) as (H1 & _).
  split; [exact Hn|]. split; [exact Ha | exact H1].
Defined.

(** X8. In every reachable world an error is held only while the
    status is [IDLE], where [GamePanel] shows no image and an overlay
    with one child: the error text with the button "Try Again", or, when
    the recorded message is the empty string, the plain button "Start
    game". *)
Theorem a_recorded_error_is_on_screen :
  forall (es : list Event) (message : string),
    let c := vars (run es initial) in
    error c = Some message ->
    gameStatus c = IDLE
    /\ GamePanel.image (GamePanel.ofVars c) = None
    /\ GamePanel.overlay (GamePanel.ofVars c)
       = Some [if Js.falsy message then GamePanel.StartGame else GamePanel.TryAgain message].
Proof.
  intros es message c He.
  pose proof (reachable_sound es) as [E K0 K P G L W]. fold c in E.
  assert (Hs : gameStatus c = IDLE) by (apply E; rewrite He; discriminate).
  split; [exact Hs|].
  unfold GamePanel.ofVars, GamePanel.view. rewrite Hs, He. cbn. split; reflexivity.
Qed.

Lemma a_recorded_error_is_on_screen_witness :
  error (vars (run firstFetchFails initial)) = Some "quota exceeded"
  /\ GamePanel.overlay (GamePanel.ofVars (vars (run firstFetchFails initial)))
     = Some [GamePanel.TryAgain "quota exceeded"].
Proof.
  assert (He : error (vars (run firstFetchFails initial)) = Some "quota exceeded")
    by (vm_compute; reflexivity).
  pose proof (a_recorded_error_is_on_screen firstFetchFails "quota exceeded") as H.
  cbv zeta in H. destruct (H He) as (_ & _ & H3).
  split; [exact He | exact H3].
Defined.

(** ** The letter boxes *)









Lemma length_filter_le f s : (String.length (Js.filter f s) <= String.length s)%nat.
Proof. induction s as [|ch s IH]; simpl; [lia|]. destruct (f ch); simpl; lia. Qed.


Section Boxes.

Variable c : Vars.
Variable isFocused : bool.


Hypothesis playing :
  GameStatus_eqb (gameStatus c) WON || GameStatus_eqb (gameStatus c) LOST = false.




End Boxes.









(** ** The chat panel *)

Lemma trim_blank s :
  Js.falsy (ChatPanel.trim s) = Js.falsy (Js.stripWhitespace s).
Proof.
  unfold ChatPanel.trim, Js.stripWhitespace.
  induction s as [|ch s IH]; [reflexivity|].
  cbn [ChatPanel.trimStart Js.filter].
  destruct (Js.isWhitespace ch) eqn:E; cbn [negb]; [exact IH|].
  cbn [ChatPanel.trimEnd]. rewrite E.
  destruct (ChatPanel.trimEnd s); reflexivity.
Qed.

(** X10. In every reachable world the clock of the chat panel reads
    "0:" followed by exactly two decimal digits, the tens and the units
    of the time left. *)
Theorem the_clock_shows_two_digits :
  forall es : list Event,
    let t := timeLeft (vars (run es initial)) in
    ChatPanel.timeText t
    = String "0" (String ":" (String (ChatPanel.digit (t / 10))
                                (String (ChatPanel.digit (t mod 10)) EmptyString))).
Proof.
  intros es t. pose proof (clock_range _ (reachable_clock es)) as R. fold t in R.
  unfold ROUND_TIME in R.
  assert (E : exists n : nat, (n <= 30)%nat /\ t = Z.of_nat n).
  { exists (Z.to_nat t). split; lia. }
  destruct E as (n & Hn & ->). clear R.
  do 31 (destruct n as [|n]; [vm_compute; reflexivity|]). lia.
Qed.

(** X11. A game event that reaches a chat panel whose callback was made
    while an answer was awaited ([isLoading]) shows its line for the user
    and loses its text for the AI: nothing is sent to the chat session,
    nothing waits, no flag changes.  [sendSystemContext] has no such
    guard: it sends whatever the panel is doing, and shows nothing. *)
Theorem a_busy_chat_drops_what_is_meant_for_the_AI :
  forall (c : ChatPanel.State) (event : GameEvent) (context : ChatPanel.Str)
         (w : ChatPanel.Chat),
    ChatPanel.isLoading c = true ->
    let w' := ChatPanel.sendGameEvent c event w in
    ChatPanel.messages (ChatPanel.state w')
      = (ChatPanel.messages (ChatPanel.state w) ++ ChatPanel.userLines [event])%list
    /\ ChatPanel.input (ChatPanel.state w') = ChatPanel.input (ChatPanel.state w)
    /\ ChatPanel.isLoading (ChatPanel.state w') = ChatPanel.isLoading (ChatPanel.state w)
    /\ ChatPanel.sent w' = ChatPanel.sent w
    /\ ChatPanel.waiting w' = ChatPanel.waiting w
    /\ (forall session : nat,
          ChatPanel.chatRef w = Some session ->
          ChatPanel.sent (ChatPanel.sendSystemContext context w)
            = (ChatPanel.sent w ++ [(session, context)])%list
          /\ ChatPanel.state (ChatPanel.sendSystemContext context w) = ChatPanel.state w).
Proof.
  intros c event context w Hc w'. subst w'.
  unfold ChatPanel.sendGameEvent, ChatPanel.sendMessage, ChatPanel.sendSystemContext.
  rewrite Hc.
  destruct event as [[u|] [a|]]; cbn; destruct (ChatPanel.chatRef w); cbn;
    rewrite ?app_nil_r; repeat split; try reflexivity;
    congruence.
Qed.

Lemma a_busy_chat_drops_what_is_meant_for_the_AI_witness :
  ChatPanel.isLoading (ChatPanel.mkState ChatPanel.greeting "" true) = true
  /\ ChatPanel.messages
       (ChatPanel.state
          (ChatPanel.sendGameEvent (ChatPanel.mkState ChatPanel.greeting "" true)
             (mkEvent (Some TimeRanOut) (Some (TimeRanOutAI "Up" "a house lifted by balloons")))
             ChatPanel.initial))
     = [ChatPanel.mkMessage ChatPanel.MODEL ChatPanel.Greeting;
        ChatPanel.mkMessage ChatPanel.GAME_EVENT (ChatPanel.UserLine TimeRanOut)]
  /\ ChatPanel.sent
       (ChatPanel.sendGameEvent (ChatPanel.mkState ChatPanel.greeting "" true)
          (mkEvent (Some TimeRanOut) (Some (TimeRanOutAI "Up" "a house lifted by balloons")))
          ChatPanel.initial)
     = [].
Proof.
  assert (Hc : ChatPanel.isLoading (ChatPanel.mkState ChatPanel.greeting "" true) = true)
    by reflexivity.
  pose proof (a_busy_chat_drops_what_is_meant_for_the_AI
                (ChatPanel.mkState ChatPanel.greeting "" true)
                (mkEvent (Some TimeRanOut) (Some (TimeRanOutAI "Up" "a house lifted by balloons")))
                (ChatPanel.ContextLine 0 1) ChatPanel.initial Hc) as H.
  cbv zeta in H. destruct H as (H1 & _ & _ & H4 & _).
  split; [exact Hc|]. split; [exact H1 | exact H4].
Defined.

Lemma sendMessage_messages c message w :
  ChatPanel.messages (ChatPanel.state (ChatPanel.sendMessage c message false w))
  = ChatPanel.messages (ChatPanel.state w).
Proof.
  unfold ChatPanel.sendMessage. destruct (ChatPanel.chatRef w); [|reflexivity].
  destruct (ChatPanel.isLoading c); reflexivity.
Qed.

Lemma sendGameEvent_messages c event w :
  ChatPanel.messages (ChatPanel.state (ChatPanel.sendGameEvent c event w))
  = (ChatPanel.messages (ChatPanel.state w) ++ ChatPanel.userLines [event])%list.
Proof.
  unfold ChatPanel.sendGameEvent. destruct event as [[u|] [a|]]; cbn;
    rewrite ?sendMessage_messages, ?app_nil_r; reflexivity.
Qed.

Lemma userLines_app a b :
  ChatPanel.userLines (a ++ b) = (ChatPanel.userLines a ++ ChatPanel.userLines b)%list.
Proof.
  induction a as [|e a IH]; simpl; [reflexivity|].
  destruct (forUser e); simpl; rewrite IH; reflexivity.
Qed.

(** X12. Whatever the chat panel is doing, and through whichever of its
    renders the events arrive, the lines for the user of a series of game
    events are all appended to the chat, in the order of the events and
    with nothing in between. *)
Theorem every_line_for_the_user_is_shown :
  forall (deliveries : list (ChatPanel.State * GameEvent)) (w : ChatPanel.Chat),
    ChatPanel.messages (ChatPanel.state (ChatPanel.deliverAll deliveries w))
    = (ChatPanel.messages (ChatPanel.state w)
       ++ ChatPanel.userLines (List.map snd deliveries))%list.
Proof.
  intros deliveries. unfold ChatPanel.deliverAll.
  induction deliveries as [|[c event] ds IH]; intros w; simpl fold_left.
  - simpl. rewrite app_nil_r. reflexivity.
  - rewrite IH. cbn [fst snd List.map]. rewrite sendGameEvent_messages.
    change (event :: List.map snd ds) with ([event] ++ List.map snd ds)%list.
    rewrite userLines_app, app_assoc. reflexivity.
Qed.

(** X13. The answer to a call that is awaited ends the wait and clears
    [isLoading]; it adds one message when the session answers with text
    that is not blank (role MODEL, the text as it came) or fails (role
    SYSTEM, the message of the error or "Sorry, I encountered an error."),
    and none when the text is missing, empty or whitespace only.  An
    answer to a call that is not awaited, or no longer, changes
    nothing. *)
Theorem an_answer_is_taken_once :
  forall (w : ChatPanel.Chat) (call : nat) (outcome : ChatPanel.Outcome),
    let w' := ChatPanel.step (ChatPanel.Reply call outcome) w in
    (In call (ChatPanel.waiting w) ->
     ChatPanel.isLoading (ChatPanel.state w') = false
     /\ ~ In call (ChatPanel.waiting w')
     /\ ChatPanel.sent w' = ChatPanel.sent w
     /\ ChatPanel.input (ChatPanel.state w') = ChatPanel.input (ChatPanel.state w)
     /\ ChatPanel.messages (ChatPanel.state w')
        = (ChatPanel.messages (ChatPanel.state w)
           ++ match outcome with
              | ChatPanel.Answer (Some text) =>
                  if Js.falsy (Js.stripWhitespace text) then []
                  else [ChatPanel.mkMessage ChatPanel.MODEL (ChatPanel.Plain text)]
              | ChatPanel.Answer None => []
              | ChatPanel.Failure (ErrorObject message) =>
                  [ChatPanel.mkMessage ChatPanel.SYSTEM (ChatPanel.Plain message)]
              | ChatPanel.Failure NotAnError =>
                  [ChatPanel.mkMessage ChatPanel.SYSTEM
                     (ChatPanel.Plain "Sorry, I encountered an error.")]
              end)%list
     /\ ChatPanel.step (ChatPanel.Reply call outcome) w' = w')
    /\ (~ In call (ChatPanel.waiting w) -> w' = w).
Proof.
  intros w call outcome w'. subst w'.
  assert (F : forall l, ~ In call (List.filter (fun i => negb (Nat.eqb i call)) l)).
  { intros l H. apply filter_In in H as [_ H]. rewrite Nat.eqb_refl in H. discriminate. }
  assert (X : forall l, ~ In call l -> existsb (Nat.eqb call) l = false).
  { intros l H. destruct (existsb (Nat.eqb call) l) eqn:E; [|reflexivity].
    apply existsb_exists in E as (x & Hx & Ex). apply Nat.eqb_eq in Ex. subst x. contradiction. }
  assert (Z : forall w0, ~ In call (ChatPanel.waiting w0) ->
               ChatPanel.step (ChatPanel.Reply call outcome) w0 = w0).
  { intros w0 Hn. unfold ChatPanel.step. rewrite (X _ Hn). reflexivity. }
  split; [|apply Z].
  intros Hin.
  assert (E : existsb (Nat.eqb call) (ChatPanel.waiting w) = true).
  { apply existsb_exists. exists call. split; [exact Hin | apply Nat.eqb_refl]. }
  set (w' := ChatPanel.step (ChatPanel.Reply call outcome) w).
  assert (W : ChatPanel.waiting w'
              = List.filter (fun i => negb (Nat.eqb i call)) (ChatPanel.waiting w)).
  { subst w'. unfold ChatPanel.step. rewrite E.
    destruct outcome as [[text|]|error]; unfold ChatPanel.answered, ChatPanel.failed;
      [destruct (negb (Js.falsy text) && negb (Js.falsy (ChatPanel.trim text)))| |];
      reflexivity. }
  assert (N : ~ In call (ChatPanel.waiting w')) by (rewrite W; apply F).
  split; [|split; [exact N|split; [|split; [|split; [|apply Z, N]]]]];
    subst w'; unfold ChatPanel.step; rewrite E;
    destruct outcome as [[text|]|[message|]]; unfold ChatPanel.answered, ChatPanel.failed;
    rewrite ?trim_blank;
    try (replace (negb (Js.falsy text) && negb (Js.falsy (Js.stripWhitespace text)))
           with (negb (Js.falsy (Js.stripWhitespace text))) by (destruct text; reflexivity);
         destruct (Js.falsy (Js.stripWhitespace text)));
    cbn; rewrite ?app_nil_r; reflexivity.
Qed.

Lemma an_answer_is_taken_once_witness :
  In O (ChatPanel.waiting (ChatPanel.run [ChatPanel.Type_ "hello"; ChatPanel.Submit]
                                         ChatPanel.initial))
  /\ ChatPanel.isLoading
       (ChatPanel.state
          (ChatPanel.step (ChatPanel.Reply 0 (ChatPanel.Answer (Some "hi")))
             (ChatPanel.run [ChatPanel.Type_ "hello"; ChatPanel.Submit] ChatPanel.initial)))
     = false.
Proof.
  assert (Hin : In O (ChatPanel.waiting
                        (ChatPanel.run [ChatPanel.Type_ "hello"; ChatPanel.Submit]
                                       ChatPanel.initial)))
    by (left; reflexivity).
  pose proof (an_answer_is_taken_once
                (ChatPanel.run [ChatPanel.Type_ "hello"; ChatPanel.Submit] ChatPanel.initial)
                0 (ChatPanel.Answer (Some "hi"))) as H.
  cbv zeta in H. destruct H as (H & _). destruct (H Hin) as (H1 & _).
  split; [exact Hin | exact H1].
Defined.

Lemma strip_trimStart s : Js.stripWhitespace (ChatPanel.trimStart s) = Js.stripWhitespace s.
Proof.
  unfold Js.stripWhitespace. induction s as [|ch s IH]; [reflexivity|].
  cbn [ChatPanel.trimStart Js.filter].
  destruct (Js.isWhitespace ch) eqn:E; cbn [negb]; [exact IH|].
  cbn [Js.filter]. rewrite E. reflexivity.
Qed.

Lemma strip_trimEnd s : Js.stripWhitespace (ChatPanel.trimEnd s) = Js.stripWhitespace s.
Proof.
  unfold Js.stripWhitespace. induction s as [|ch s IH]; [reflexivity|].
  cbn [ChatPanel.trimEnd Js.filter].
  destruct (ChatPanel.trimEnd s) as [|k kept] eqn:T.
  - rewrite <- IH.
    destruct (Js.isWhitespace ch) eqn:E; cbn [negb Js.filter]; rewrite ?E; reflexivity.
  - cbn [Js.filter]. rewrite <- IH. reflexivity.
Qed.

Lemma strip_trim s : Js.stripWhitespace (ChatPanel.trim s) = Js.stripWhitespace s.
Proof. unfold ChatPanel.trim. rewrite strip_trimEnd, strip_trimStart. reflexivity. Qed.

(** X14. Submitting the text input does nothing when the input is
    empty or whitespace only, and nothing while an answer is awaited.
    Otherwise the input without its leading and trailing whitespace is
    shown as a message of the user and sent to the chat session, the
    input is emptied and [isLoading] is set. *)
Theorem a_blank_input_is_not_sent :
  forall w : ChatPanel.Chat,
    let c := ChatPanel.state w in
    let w' := ChatPanel.step ChatPanel.Submit w in
    let message := ChatPanel.Plain (ChatPanel.trim (ChatPanel.input c)) in
    (Js.falsy (Js.stripWhitespace (ChatPanel.input c)) = true -> w' = w)
    /\ (ChatPanel.isLoading c = true -> w' = w)
    /\ Js.stripWhitespace (ChatPanel.trim (ChatPanel.input c))
       = Js.stripWhitespace (ChatPanel.input c)
    /\ (forall session : nat,
          ChatPanel.chatRef w = Some session ->
          Js.falsy (Js.stripWhitespace (ChatPanel.input c)) = false ->
          ChatPanel.isLoading c = false ->
          ChatPanel.state w'
            = ChatPanel.mkState
                (ChatPanel.messages c ++ [ChatPanel.mkMessage ChatPanel.USER message])
                "" true
          /\ ChatPanel.sent w' = (ChatPanel.sent w ++ [(session, message)])%list
          /\ ChatPanel.waiting w'
             = (ChatPanel.waiting w ++ [List.length (ChatPanel.sent w)])%list).
Proof.
  intros w c w' message. subst w' message.
  unfold ChatPanel.step, ChatPanel.handleSubmit, ChatPanel.sendMessage. fold c.
  rewrite trim_blank.
  split; [|split; [|split; [apply strip_trim|]]].
  - intros H. rewrite H. reflexivity.
  - intros H. rewrite H, andb_false_r. reflexivity.
  - intros session Hs Hb Hl. rewrite Hb, Hl, Hs. cbn. repeat split.
Qed.

Lemma a_blank_input_is_not_sent_witness :
  ChatPanel.chatRef (ChatPanel.step (ChatPanel.Type_ "  hello ") ChatPanel.initial) = Some O
  /\ ChatPanel.sent
       (ChatPanel.step ChatPanel.Submit
          (ChatPanel.step (ChatPanel.Type_ "  hello ") ChatPanel.initial))
     = [(O, ChatPanel.Plain "hello")].
Proof.
  pose proof (a_blank_input_is_not_sent
                (ChatPanel.step (ChatPanel.Type_ "  hello ") ChatPanel.initial)) as H.
  cbv zeta in H. destruct H as (_ & _ & _ & H).
  destruct (H O eq_refl eq_refl eq_refl) as (_ & H2 & _).
  split; [reflexivity | exact H2].
Defined.

Lemma sendMessage_session c message isUserMessage w :
  ChatPanel.chatRef (ChatPanel.sendMessage c message isUserMessage w) = ChatPanel.chatRef w
  /\ ChatPanel.created (ChatPanel.sendMessage c message isUserMessage w) = ChatPanel.created w.
Proof.
  unfold ChatPanel.sendMessage.
  destruct (ChatPanel.chatRef w) eqn:E; [|split; [exact E|reflexivity]].
  destruct (ChatPanel.isLoading c); [split; [exact E|reflexivity]|].
  destruct isUserMessage; cbn; split; assumption || reflexivity.
Qed.

Lemma chat_session_inv es :
  let w := ChatPanel.run es ChatPanel.initial in
  exists session, ChatPanel.chatRef w = Some session /\ ChatPanel.created w = S session.
Proof.
  unfold ChatPanel.run. rewrite <- fold_left_rev_right.
  induction (rev es) as [|e l (session & H1 & H2)]; cbn [fold_right].
  - exists O. split; reflexivity.
  - set (w := fold_right _ _ l) in *. clearbody w.
    destruct e as [value| |status| |event|context|call outcome]; cbn [ChatPanel.step].
    + exists session. split; first [assumption | reflexivity].
    + exists session. unfold ChatPanel.handleSubmit.
      destruct (_ && _); [|split; first [assumption | reflexivity]].
      destruct (sendMessage_session (ChatPanel.state w)
                  (ChatPanel.Plain (ChatPanel.trim (ChatPanel.input (ChatPanel.state w))))
                  true w) as [A B].
      rewrite A, B. split; first [assumption | reflexivity].
    + exists session. unfold ChatPanel.handleClue.
      destruct (_ && _); [|split; first [assumption | reflexivity]].
      destruct (sendMessage_session (ChatPanel.state w) (ChatPanel.Plain "give me a clue")
                  true w) as [A B].
      rewrite A, B. split; first [assumption | reflexivity].
    + exists (S session). unfold ChatPanel.handleReset. cbn. rewrite H2. split; reflexivity.
    + exists session. unfold ChatPanel.sendGameEvent.
      destruct (forUser event) as [u|], (forAI event) as [a|];
        try (split; first [assumption | reflexivity]).
      * destruct (sendMessage_session (ChatPanel.state w) (ChatPanel.AILine a) false
                    (ChatPanel.append
                       (ChatPanel.mkMessage ChatPanel.GAME_EVENT (ChatPanel.UserLine u)) w))
          as [A B].
        rewrite A, B. split; first [assumption | reflexivity].
      * destruct (sendMessage_session (ChatPanel.state w) (ChatPanel.AILine a) false w)
          as [A B].
        rewrite A, B. split; first [assumption | reflexivity].
    + exists session. unfold ChatPanel.sendSystemContext. rewrite H1. cbn. split; first [assumption | reflexivity].
    + exists session. destruct (existsb _ _); [|split; first [assumption | reflexivity]].
      destruct outcome as [[text|]|error]; unfold ChatPanel.answered, ChatPanel.failed;
        [destruct (_ && _)| |]; cbn; split; first [assumption | reflexivity].
Qed.

(** X15. A reset does not cancel a call that is awaited: after it the
    panel is free to send again, through a new chat session, and when the
    answer of the old session comes, its text is appended to the new
    conversation, right after the greeting. *)
Theorem a_late_answer_lands_in_the_new_chat :
  forall (es : list ChatPanel.Event) (message : ChatPanel.Str) (text : string),
    let w := ChatPanel.run es ChatPanel.initial in
    let call := List.length (ChatPanel.sent w) in
    let w1 := ChatPanel.sendMessage (ChatPanel.state w) message false w in
    let w2 := ChatPanel.step ChatPanel.Reset w1 in
    let w3 := ChatPanel.step (ChatPanel.Reply call (ChatPanel.Answer (Some text))) w2 in
    ChatPanel.isLoading (ChatPanel.state w) = false ->
    Js.falsy (Js.stripWhitespace text) = false ->
    In call (ChatPanel.waiting w2)
    /\ ChatPanel.isLoading (ChatPanel.state w2) = false
    /\ ChatPanel.chatRef w2 <> ChatPanel.chatRef w
    /\ ChatPanel.sent w2 = (ChatPanel.sent w ++ [(pred (ChatPanel.created w), message)])%list
    /\ ChatPanel.messages (ChatPanel.state w2) = ChatPanel.greeting
    /\ ChatPanel.messages (ChatPanel.state w3)
       = (ChatPanel.greeting
          ++ [ChatPanel.mkMessage ChatPanel.MODEL (ChatPanel.Plain text)])%list.
Proof.
  intros es message text w call w1 w2 w3 Hl Ht.
  destruct (chat_session_inv es) as (session & H1 & H2). fold w in H1, H2.
  assert (E1 : w1 = ChatPanel.mkChat
                      (ChatPanel.mkState (ChatPanel.messages (ChatPanel.state w))
                                         (ChatPanel.input (ChatPanel.state w)) true)
                      (Some session) (S session)
                      (ChatPanel.sent w ++ [(session, message)])%list
                      (ChatPanel.waiting w ++ [call])%list).
  { subst w1. unfold ChatPanel.sendMessage. rewrite H1, Hl. cbn. rewrite H1, H2. reflexivity. }
  assert (Hin : In call (ChatPanel.waiting w2)).
  { subst w2. rewrite E1. cbn. apply in_or_app. right. left. reflexivity. }
  split; [exact Hin|].
  split; [subst w2; rewrite E1; reflexivity|].
  split; [subst w2; rewrite E1, H1; cbn; intros [= H]; lia|].
  split; [subst w2; rewrite E1, H2; reflexivity|].
  split; [subst w2; rewrite E1; reflexivity|].
  assert (E : existsb (Nat.eqb call) (ChatPanel.waiting w2) = true).
  { apply existsb_exists. exists call. split; [exact Hin | apply Nat.eqb_refl]. }
  subst w3. unfold ChatPanel.step at 1. rewrite E.
  unfold ChatPanel.answered. rewrite trim_blank.
  replace (negb (Js.falsy text) && negb (Js.falsy (Js.stripWhitespace text)))
    with (negb (Js.falsy (Js.stripWhitespace text))) by (destruct text; reflexivity).
  rewrite Ht. subst w2. rewrite E1. reflexivity.
Qed.

Lemma a_late_answer_lands_in_the_new_chat_witness :
  ChatPanel.isLoading (ChatPanel.state (ChatPanel.run [] ChatPanel.initial)) = false
  /\ Js.falsy (Js.stripWhitespace "On it.") = false
  /\ ChatPanel.messages
       (ChatPanel.state
          (ChatPanel.step
             (ChatPanel.Reply (List.length (ChatPanel.sent (ChatPanel.run [] ChatPanel.initial)))
                              (ChatPanel.Answer (Some "On it.")))
             (ChatPanel.step ChatPanel.Reset
                (ChatPanel.sendMessage (ChatPanel.state (ChatPanel.run [] ChatPanel.initial))
                   (ChatPanel.AILine WantsNewRound) false
                   (ChatPanel.run [] ChatPanel.initial)))))
     = (ChatPanel.greeting
        ++ [ChatPanel.mkMessage ChatPanel.MODEL (ChatPanel.Plain "On it.")])%list.
Proof.
  assert (Hl : ChatPanel.isLoading (ChatPanel.state (ChatPanel.run [] ChatPanel.initial)) = false)
    by reflexivity.
  assert (Ht : Js.falsy (Js.stripWhitespace "On it.") = false) by reflexivity.
  pose proof (a_late_answer_lands_in_the_new_chat [] (ChatPanel.AILine WantsNewRound) "On it.")
    as H.
  cbv zeta in H. destruct (H Hl Ht) as (_ & _ & _ & _ & _ & H6).
  split; [exact Hl|]. split; [exact Ht | exact H6].
Defined.






(** ** [getNewGameData] *)



(** X18. [getNewGameData] asks for the concept first, with the style
    and the exclusion sentence, and asks for an image only once the
    concept, the explanation and the image prompt of the answer are all
    present and truthy, with that image prompt.  When it returns, the
    concept and the explanation are those of the answer (a concept that
    is a string is not empty), and the image URL is
    "data:image/jpeg;base64," followed by the bytes of the first image,
    or by "undefined" when that image carries no bytes. *)
Theorem an_image_is_asked_for_a_valid_concept_only :
  forall (pastConcepts : list string) (imageStyle : string)
         (conceptResponse : GeminiService.ConceptResponse)
         (imageResponse : GeminiService.ImageResponse),
    let calls :=
      fst (GeminiService.getNewGameData pastConcepts imageStyle conceptResponse imageResponse) in
    let result :=
      snd (GeminiService.getNewGameData pastConcepts imageStyle conceptResponse imageResponse) in
    let first :=
      GeminiService.GenerateContent imageStyle (GeminiService.exclusionPrompt pastConcepts) in
    (calls = [first] \/ exists prompt, calls = [first; GeminiService.GenerateImages prompt])
    /\ (forall prompt : GeminiService.Field,
          In (GeminiService.GenerateImages prompt) calls ->
          GeminiService.truthy prompt = true
          /\ exists text concept explanation,
               conceptResponse
               = GeminiService.Content (Some text)
                   (GeminiService.ParsedObject concept explanation prompt)
               /\ GeminiService.truthy concept = true
               /\ GeminiService.truthy explanation = true)
    /\ (forall (concept explanation : GeminiService.Field) (imageUrl : string),
          result = GeminiService.Returned concept explanation imageUrl ->
          GeminiService.truthy concept = true
          /\ GeminiService.truthy explanation = true
          /\ (forall s, concept = GeminiService.FString s -> s <> "")
          /\ exists text prompt imageBytes rest,
               conceptResponse
               = GeminiService.Content (Some text)
                   (GeminiService.ParsedObject concept explanation prompt)
               /\ imageResponse
                  = GeminiService.Images (Some (GeminiService.Image imageBytes :: rest))
               /\ imageUrl
                  = String.append "data:image/jpeg;base64,"
                      (match imageBytes with Some bytes => bytes | None => "undefined" end)).
Proof.
  intros pastConcepts imageStyle conceptResponse imageResponse calls result first.
  subst calls result. unfold GeminiService.getNewGameData. fold first.
  destruct conceptResponse as [e0|[text|] parsed]; cbn [fst snd].
  1,3: split; [left; reflexivity|]; split;
       [intros prompt [H|[]]; discriminate H | intros c e u H; discriminate H].
  destruct parsed as [| |c e p|]; cbn [GeminiService.validate].
  1,2,4: split; [left; reflexivity|]; split;
         [intros prompt [H|[]]; discriminate H | intros c0 e0 u H; discriminate H].
  destruct (GeminiService.truthy c) eqn:Tc; cbn [negb orb].
  2: split; [left; reflexivity|]; split;
     [intros prompt [H|[]]; discriminate H | intros c0 e0 u H; discriminate H].
  destruct (GeminiService.truthy e) eqn:Te; cbn [negb orb].
  2: split; [left; reflexivity|]; split;
     [intros prompt [H|[]]; discriminate H | intros c0 e0 u H; discriminate H].
  destruct (GeminiService.truthy p) eqn:Tp; cbn [negb orb].
  2: split; [left; reflexivity|]; split;
     [intros prompt [H|[]]; discriminate H | intros c0 e0 u H; discriminate H].
  assert (A : forall prompt,
            In (GeminiService.GenerateImages prompt) [first; GeminiService.GenerateImages p] ->
            GeminiService.truthy prompt = true
            /\ exists text0 concept explanation,
                 GeminiService.Content (Some text) (GeminiService.ParsedObject c e p)
                 = GeminiService.Content (Some text0)
                     (GeminiService.ParsedObject concept explanation prompt)
                 /\ GeminiService.truthy concept = true
                 /\ GeminiService.truthy explanation = true).
  { intros prompt [H|[H|[]]]; [discriminate H|]. injection H as <-.
    split; [exact Tp|]. exists text, c, e. repeat split; assumption. }
  destruct imageResponse as [e1|[[|[|bytes] rest]|]]; cbn [fst snd];
    (split; [right; eexists; reflexivity|]); (split; [exact A|]);
    intros c0 e0 u H; try discriminate H.
  injection H as <- <- <-.
  split; [exact Tc|]. split; [exact Te|]. split.
  - intros s ->. cbn in Tc. destruct s; [discriminate Tc | discriminate].
  - exists text, p, bytes, rest. repeat split.
Qed.

Lemma an_image_is_asked_for_a_valid_concept_only_witness :
  snd (GeminiService.getNewGameData [] "claymation"
         (GeminiService.Content (Some "{}")
            (GeminiService.ParsedObject (GeminiService.FString "Up")
               (GeminiService.FString "a house lifted by balloons")
               (GeminiService.FString "a small house under many balloons")))
         (GeminiService.Images (Some [GeminiService.Image None])))
  = GeminiService.Returned (GeminiService.FString "Up")
      (GeminiService.FString "a house lifted by balloons") "data:image/jpeg;base64,undefined"
  /\ GeminiService.truthy (GeminiService.FString "Up") = true.
Proof.
  assert (E : snd (GeminiService.getNewGameData [] "claymation"
         (GeminiService.Content (Some "{}")
            (GeminiService.ParsedObject (GeminiService.FString "Up")
               (GeminiService.FString "a house lifted by balloons")
               (GeminiService.FString "a small house under many balloons")))
         (GeminiService.Images (Some [GeminiService.Image None])))
  = GeminiService.Returned (GeminiService.FString "Up")
      (GeminiService.FString "a house lifted by balloons") "data:image/jpeg;base64,undefined")
    by reflexivity.
  pose proof (an_image_is_asked_for_a_valid_concept_only [] "claymation"
         (GeminiService.Content (Some "{}")
            (GeminiService.ParsedObject (GeminiService.FString "Up")
               (GeminiService.FString "a house lifted by balloons")
               (GeminiService.FString "a small house under many balloons")))
         (GeminiService.Images (Some [GeminiService.Image None]))) as H.
  cbv zeta in H. destruct H as (_ & _ & H).
  destruct (H _ _ _ E) as (H1 & _).
  split; [exact E | exact H1].
Defined.

(** ** The style selector *)

Lemma falsy_empty s : Js.falsy s = true <-> s = "".
Proof. destruct s; simpl; split; intros H; congruence. Qed.

Lemma remember_remembered w :
  StyleSelector.isPredefined (StyleSelector.lastCustomStyle w) = false ->
  Remembered (StyleSelector.remember w).
Proof.
  intros H. unfold StyleSelector.remember.
  destruct (StyleSelector.isPredefined (StyleSelector.selectedStyle w)) eqn:P; cbn [negb andb].
  - split; [exact H|]. intros H1. congruence.
  - destruct (Js.falsy (StyleSelector.selectedStyle w)) eqn:F; cbn [negb].
    + split; [exact H|]. intros _ H2. apply falsy_empty in F. contradiction.
    + split; [exact P | reflexivity].
Qed.

Lemma step_remembered e w : Remembered w -> Remembered (StyleSelector.step e w).
Proof.
  intros [H1 H2]. unfold StyleSelector.step, StyleSelector.effect.
  set (style := match e with
                | StyleSelector.Select value => StyleSelector.handleSelectChange w value
                | StyleSelector.Input value => StyleSelector.handleInputChange value
                end).
  cbn [StyleSelector.selectedStyle].
  destruct (String.eqb_spec (StyleSelector.selectedStyle w) style) as [E|E]; cbn [andb].
  - rewrite <- E, Bool.eqb_reflx. split; [exact H1 | exact H2].
  - apply remember_remembered. exact H1.
Qed.

Lemma run_remembered es : forall w, Remembered w -> Remembered (StyleSelector.run es w).
Proof.
  induction es as [|e es IH]; intros w H; [exact H|].
  apply (IH (StyleSelector.step e w)), step_remembered, H.
Qed.

Lemma reachable_remembered es : Remembered (StyleSelector.run es StyleSelector.initial).
Proof. apply run_remembered, remember_remembered. reflexivity. Qed.

(** X19. Whatever was selected or typed before, choosing "Custom..."
    never selects one of the predefined styles: the select then shows
    "Custom..." and the text input is rendered.  In every reachable state
    the value of the select is one of its options, and the text input is
    rendered exactly when that value is "Custom...". *)
Theorem custom_opens_the_text_input :
  forall es : list StyleSelector.Event,
    let w := StyleSelector.run es StyleSelector.initial in
    let w' := StyleSelector.step (StyleSelector.Select StyleSelector.CUSTOM_VALUE_KEY) w in
    StyleSelector.isPredefined (StyleSelector.selectedStyle w') = false
    /\ StyleSelector.selectValue (StyleSelector.selectedStyle w')
       = StyleSelector.CUSTOM_VALUE_KEY
    /\ StyleSelector.showsInput (StyleSelector.selectedStyle w') = true
    /\ In (StyleSelector.selectValue (StyleSelector.selectedStyle w)) StyleSelector.options
    /\ StyleSelector.showsInput (StyleSelector.selectedStyle w)
       = String.eqb (StyleSelector.selectValue (StyleSelector.selectedStyle w))
                    StyleSelector.CUSTOM_VALUE_KEY.
Proof.
  intros es w w'.
  destruct (reachable_remembered es) as [H1 H2]. fold w in H1, H2.
  assert (S' : StyleSelector.selectedStyle w'
               = if Js.falsy (StyleSelector.lastCustomStyle w) then ""
                 else StyleSelector.lastCustomStyle w).
  { subst w'. unfold StyleSelector.step, StyleSelector.effect, StyleSelector.remember,
      StyleSelector.handleSelectChange.
    cbn [StyleSelector.selectedStyle]. rewrite String.eqb_refl. cbn [negb].
    destruct (_ && _); [reflexivity|]. destruct (_ && _); reflexivity. }
  assert (P' : StyleSelector.isPredefined (StyleSelector.selectedStyle w') = false).
  { rewrite S'. destruct (Js.falsy (StyleSelector.lastCustomStyle w)); [reflexivity|exact H1]. }
  split; [exact P'|]. unfold StyleSelector.selectValue, StyleSelector.showsInput.
  rewrite P'. split; [reflexivity|]. split; [reflexivity|].
  destruct (StyleSelector.isPredefined (StyleSelector.selectedStyle w)) eqn:P.
  - split.
    + unfold StyleSelector.isPredefined in P. apply existsb_exists in P as (x & Hx & Ex).
      apply String.eqb_eq in Ex. rewrite <- Ex.
      unfold StyleSelector.options. apply in_or_app. left. apply in_map. exact Hx.
    + cbn [negb]. symmetry. apply String.eqb_neq. intros E. rewrite E in P. discriminate P.
  - split; [|reflexivity]. unfold StyleSelector.options. apply in_or_app. right. left. reflexivity.
Qed.

(** X20. A custom style is remembered while a predefined one is
    selected: after typing a custom style that is not empty, selecting
    any predefined style and then "Custom..." selects the typed style
    again. *)
Theorem the_custom_style_comes_back :
  forall (es : list StyleSelector.Event) (custom predefined : string),
    let w := StyleSelector.run es StyleSelector.initial in
    custom <> "" ->
    StyleSelector.isPredefined custom = false ->
    StyleSelector.isPredefined predefined = true ->
    StyleSelector.selectedStyle
      (StyleSelector.run [StyleSelector.Input custom; StyleSelector.Select predefined] w)
    = predefined
    /\ StyleSelector.selectedStyle
         (StyleSelector.run [StyleSelector.Input custom; StyleSelector.Select predefined;
                             StyleSelector.Select StyleSelector.CUSTOM_VALUE_KEY] w)
       = custom.
Proof.
  intros es custom predefined w Hc Hp Hq.
  pose proof (reachable_remembered es) as R. fold w in R.
  pose proof (step_remembered (StyleSelector.Input custom) w R) as [_ R1].
  set (w1 := StyleSelector.step (StyleSelector.Input custom) w) in *.
  assert (S1 : StyleSelector.selectedStyle w1 = custom).
  { subst w1. unfold StyleSelector.step, StyleSelector.effect, StyleSelector.remember.
    cbn [StyleSelector.selectedStyle StyleSelector.handleInputChange].
    destruct (_ && _); [reflexivity|]. destruct (_ && _); reflexivity. }
  assert (L1 : StyleSelector.lastCustomStyle w1 = custom).
  { rewrite <- S1. apply R1; rewrite S1; assumption. }
  assert (K : predefined <> StyleSelector.CUSTOM_VALUE_KEY).
  { intros ->. discriminate Hq. }
  set (w2 := StyleSelector.step (StyleSelector.Select predefined) w1).
  assert (S2 : StyleSelector.selectedStyle w2 = predefined
               /\ StyleSelector.lastCustomStyle w2 = custom).
  { subst w2. unfold StyleSelector.step, StyleSelector.effect, StyleSelector.remember,
      StyleSelector.handleSelectChange.
    destruct (String.eqb_spec predefined StyleSelector.CUSTOM_VALUE_KEY) as [|_];
      [contradiction|].
    cbn [negb StyleSelector.selectedStyle StyleSelector.lastCustomStyle].
    rewrite Hq. cbn [negb andb].
    destruct (_ && _); split; cbn; auto. }
  destruct S2 as [S2 L2].
  change (StyleSelector.run [StyleSelector.Input custom; StyleSelector.Select predefined] w)
    with w2.
  split; [exact S2|].
  change (StyleSelector.run [StyleSelector.Input custom; StyleSelector.Select predefined;
                             StyleSelector.Select StyleSelector.CUSTOM_VALUE_KEY] w)
    with (StyleSelector.step (StyleSelector.Select StyleSelector.CUSTOM_VALUE_KEY) w2).
  unfold StyleSelector.step, StyleSelector.effect, StyleSelector.remember,
    StyleSelector.handleSelectChange.
  rewrite String.eqb_refl. cbn [negb StyleSelector.selectedStyle StyleSelector.lastCustomStyle].
  rewrite L2. destruct custom as [|ch custom]; [contradiction|]. cbn [Js.falsy].
  destruct (_ && _); [reflexivity|]. destruct (_ && _); reflexivity.
Qed.

Lemma the_custom_style_comes_back_witness :
  StyleSelector.selectedStyle
    (StyleSelector.run [StyleSelector.Input "neon"; StyleSelector.Select "claymation";
                        StyleSelector.Select StyleSelector.CUSTOM_VALUE_KEY]
                       (StyleSelector.run [] StyleSelector.initial))
  = "neon".
Proof.
  assert (Hc : "neon" <> "") by discriminate.
  pose proof (the_custom_style_comes_back [] "neon" "claymation") as H. cbv zeta in H.
  destruct (H Hc eq_refl eq_refl) as (_ & H2). exact H2.
Defined.

(** ** A loading round has its fetch awaited *)

Lemma offers_start c :
  offers c ClickStart = true -> gameStatus c <> LOADING.
Proof.
  unfold offers, offersStart, GamePanel.ofVars, GamePanel.view, ChatPanel.isGameOver.
  intros H E. rewrite E in H. cbn in H.
  destruct (String.eqb (loadingMessage c) "thinking"); discriminate H.
Qed.

Lemma resume_roundId s t w :
  roundIdRef (refs (exec (resume s t) w)) = roundIdRef (refs w).
Proof.
  destruct t, s; simpl; unfold_callbacks; unfold stale; run_m;
    destruct w as [v [g i tr m] p0 s0 iv t0 q n]; cbn; break; reflexivity.
Qed.

Lemma resumeAll_roundId s ts w :
  roundIdRef (refs (exec (resumeAll s ts) w)) = roundIdRef (refs w).
Proof.
  revert w; induction ts as [|t ts IH]; intros w; simpl; [reflexivity|].
  rewrite exec_seq, IH. apply resume_roundId.
Qed.

Lemma effects_rounds prev cur w :
  roundIdRef (refs (exec (effects prev cur) w)) = roundIdRef (refs w)
  /\ awaitedRounds (pending (exec (effects prev cur) w)) = awaitedRounds (pending w).
Proof.
  assert (A : forall x, roundIdRef (refs (exec (styleEffect prev cur) x)) = roundIdRef (refs x)
              /\ awaitedRounds (pending (exec (styleEffect prev cur) x))
                 = awaitedRounds (pending x)).
  { intros x. unfold_callbacks; run_m.
    destruct x as [v [g i tr m] p0 s0 iv t0 q n]; cbn; break; split; reflexivity. }
  assert (B : forall x, roundIdRef (refs (exec (timerEffect prev cur) x)) = roundIdRef (refs x)
              /\ awaitedRounds (pending (exec (timerEffect prev cur) x))
                 = awaitedRounds (pending x)).
  { intros x. unfold_callbacks; run_m.
    destruct x as [v [g i tr m] p0 s0 iv t0 q n]; cbn; break; split; reflexivity. }
  assert (C : forall x, roundIdRef (refs (exec (guessEffect prev cur) x)) = roundIdRef (refs x)
              /\ awaitedRounds (pending (exec (guessEffect prev cur) x))
                 = awaitedRounds (pending x)).
  { intros x. unfold_callbacks; run_m.
    destruct x as [v [g i tr m] p0 s0 iv t0 q n]; cbn; break; cbn;
      rewrite ?awaitedRounds_app; cbn; rewrite ?app_nil_r; split; reflexivity. }
  assert (D : forall x, roundIdRef (refs (exec (prefetchEffect prev cur) x)) = roundIdRef (refs x)
              /\ awaitedRounds (pending (exec (prefetchEffect prev cur) x))
                 = awaitedRounds (pending x)).
  { intros x. unfold_callbacks; run_m.
    destruct x as [v [g i tr m] p0 s0 iv t0 q n]; cbn; break; cbn;
      rewrite ?awaitedRounds_app; cbn; rewrite ?app_nil_r; split; reflexivity. }
  unfold effects. rewrite !exec_seq.
  destruct (D (exec (guessEffect prev cur)
                 (exec (timerEffect prev cur) (exec (styleEffect prev cur) w)))) as [D1 D2].
  destruct (C (exec (timerEffect prev cur) (exec (styleEffect prev cur) w))) as [C1 C2].
  destruct (B (exec (styleEffect prev cur) w)) as [B1 B2].
  destruct (A w) as [A1 A2].
  split; congruence.
Qed.

Lemma effects_live prev w : Live w -> Live (exec (effects prev (vars w)) w).
Proof.
  intros H Hm Hs.
  destruct (effects_rounds prev (vars w) w) as [R P].
  destruct (effects_committed prev w) as [_ C].
  rewrite effects_mounted in Hm.
  rewrite R, P. apply H; [exact Hm|].
  destruct C as [C|[C1 [C|[C _]]]]; congruence.
Qed.

Lemma render_live n prev w : Live w -> Live (render n prev w).
Proof.
  revert prev w; induction n as [|n IH]; intros prev w H; simpl; [exact H|].
  apply IH, effects_live, H.
Qed.

Lemma startNewGame_live w :
  isMounted (refs w) = true -> gameStatus (vars w) <> LOADING ->
  Live (exec (startNewGame (vars w)) w).
Proof.
  intros Hm Hs. unfold Live.
  unfold startNewGame, cleanupTimer, getNewGameData, handleGameEvent, stale. run_m.
  destruct w as [v [g i t m] p s iv tr q n]; cbn in *. subst m.
  destruct (GameStatus_eqb_spec (gameStatus v) LOADING) as [E|_]; [contradiction|].
  break; rewrite ?Z.eqb_refl in *; cbn in *; try discriminate;
    intros _ _; rewrite awaitedRounds_app; apply in_or_app; right; left; reflexivity.
Qed.

Lemma handleResetGame_live w : Live (exec handleResetGame w).
Proof.
  unfold Live, handleResetGame, cleanupTimer. run_m.
  destruct w as [v [g i t m] p s iv tr q n]; cbn.
  break; intros _ H; discriminate H.
Qed.

Lemma handleInput_live c rawValue w : Live w -> Live (exec (handleInput c rawValue) w).
Proof.
  unfold Live, handleInput, handleGuessChange. run_m.
  destruct w as [v [g i t m] p s iv tr q n]; cbn.
  break; auto.
Qed.

Lemma tick_live id w : Live w -> Live (exec (tick id) w).
Proof.
  unfold Live, tick, exec. destruct (existsb _ _); cbn; auto.
Qed.

(** Resuming the call of the current round ends the loading. *)
Lemma resumeAll_current s ts rs w :
  InvR (awaitedRounds ts ++ rs) w ->
  isMounted (refs w) = true ->
  In (roundIdRef (refs w)) (awaitedRounds ts) ->
  gameStatus (vars (exec (resumeAll s ts) w)) <> LOADING.
Proof.
  revert w; induction ts as [|t ts IH]; intros w H Hm Hin; [destruct Hin|].
  cbn [resumeAll]. rewrite exec_seq.
  destruct t as [roundId a|q|d]; cbn [awaitedRounds] in H, Hin.
  - destruct (Z.eq_dec (roundIdRef (refs w)) roundId) as [<-|Hne].
    + pose proof (resume_await_inv s _ a _ _ H) as H1.
      pose proof (resumeAll_resumed s ts rs _ H1) as R.
      assert (S1 : gameStatus (vars (exec (resume s (AwaitGameData (roundIdRef (refs w)) a)) w))
                   <> LOADING).
      { destruct s; [rewrite resume_fulfilled_current by exact Hm
                    |rewrite resume_rejected_current by exact Hm]; cbn; discriminate. }
      destruct R as [[R _]|[R _]]; congruence.
    + destruct Hin as [Hin|Hin]; [congruence|].
      rewrite resume_stale by exact Hne.
      apply IH; [eapply InvR_tail; exact H | exact Hm | exact Hin].
  - apply IH.
    + apply (resume_other_inv s (PrefetchReaction q)); auto.
    + rewrite resume_mounted. exact Hm.
    + rewrite resume_roundId. exact Hin.
  - apply IH.
    + apply (resume_other_inv s (WrongGuessTimeout d)); auto.
    + rewrite resume_mounted. exact Hm.
    + rewrite resume_roundId. exact Hin.
Qed.

Lemma settle_live p s w :
  Inv w -> isMounted (refs w) = true -> Live w -> Live (exec (settle p s) w).
Proof.
  intros H Hm L. unfold settle, exec.
  destruct (issued p w && negb (isSome (outcome p (settled w)))); [|exact L].
  change (Live (exec (recordSettled p s ;;
                     onPending (List.filter (fun t => negb (awaits p t))) ;;
                     resumeAll s (reactions p s (pending w))) w)).
  rewrite !exec_seq.
  set (w0 := exec (onPending (List.filter (fun t => negb (awaits p t))))
                  (exec (recordSettled p s) w)).
  assert (H0 : InvR (awaitedRounds (reactions p s (pending w))
                     ++ awaitedRounds (List.filter (fun t => negb (awaits p t)) (pending w)))
                    w0).
  { eapply InvR_frame with (w := w); try reflexivity.
    eapply InvR_perm; [|exact H].
    etransitivity; [apply (awaitedRounds_split (awaits p))|].
    apply Permutation_app; [apply awaitedRounds_reactions|reflexivity]. }
  intros Hm' Hs.
  rewrite resumeAll_roundId, resumeAll_pending.
  change (roundIdRef (refs w0)) with (roundIdRef (refs w)).
  change (pending w0) with (List.filter (fun t => negb (awaits p t)) (pending w)).
  pose proof (resumeAll_resumed s _ _ w0 H0) as R.
  assert (Hl : gameStatus (vars w) = LOADING).
  { change (vars w0) with (vars w) in R. destruct R as [[R _]|[R _]]; congruence. }
  specialize (L Hm Hl).
  apply (Permutation_in _ (awaitedRounds_split (awaits p) (pending w))) in L.
  apply in_app_iff in L as [L|L]; [|exact L].
  exfalso.
  apply (Permutation_in _ (awaitedRounds_reactions p s (pending w))) in L.
  exact (resumeAll_current s _ _ w0 H0 Hm L Hs).
Qed.

Lemma picked_live s t rest w :
  Permutation (awaitedRounds (pending w)) (awaitedRounds (t :: rest)) ->
  Inv w -> isMounted (refs w) = true -> Live w ->
  Live (exec (onPending (fun _ => rest) ;; resume s t) w).
Proof.
  intros P H Hm L. rewrite exec_seq.
  set (w0 := exec (onPending (fun _ => rest)) w).
  eapply InvR_perm in H; [|exact P].
  apply InvR_frame with (w' := w0) in H; try reflexivity.
  intros Hm' Hs. rewrite resume_roundId, resume_pending.
  change (roundIdRef (refs w0)) with (roundIdRef (refs w)).
  change (pending w0) with rest.
  assert (H' : InvR (awaitedRounds [t] ++ awaitedRounds rest) w0).
  { rewrite <- awaitedRounds_app. exact H. }
  pose proof (resumeAll_resumed s [t] _ w0 H') as R.
  cbn [resumeAll] in R. rewrite exec_seq in R. change (exec skip ?x) with x in R.
  assert (Hl : gameStatus (vars w) = LOADING).
  { change (vars w0) with (vars w) in R. destruct R as [[R _]|[R _]]; congruence. }
  specialize (L Hm Hl).
  apply (Permutation_in _ P) in L.
  change (t :: rest) with ([t] ++ rest)%list in L. rewrite awaitedRounds_app in L.
  apply in_app_iff in L as [L|L]; [|exact L].
  exfalso.
  pose proof (resumeAll_current s [t] _ w0 H' Hm L) as N.
  cbn [resumeAll] in N. rewrite exec_seq in N. change (exec skip ?x) with x in N.
  exact (N Hs).
Qed.

Lemma microtask_live w :
  Inv w -> isMounted (refs w) = true -> Live w -> Live (exec microtask w).
Proof.
  intros H Hm L. unfold microtask, exec.
  destruct (pick _ (pending w)) as [[t rest]|] eqn:E; [|exact L].
  destruct (available (settled w) t) as [s|]; [|exact L].
  apply picked_live; [eapply pick_split; eassumption | assumption..].
Qed.

Lemma timeout_live w :
  Inv w -> isMounted (refs w) = true -> Live w -> Live (exec timeout w).
Proof.
  intros H Hm L. unfold timeout, exec.
  destruct (pick isTimeout (pending w)) as [[t rest]|] eqn:E; [|exact L].
  pose proof (pick_split _ _ _ _ E) as P.
  assert (Ht : isTimeout t = true).
  { clear - E. revert t rest E. induction (pending w) as [|x ts IH]; simpl; [discriminate|].
    intros t rest. destruct (isTimeout x) eqn:Ex.
    - intros [= <- <-]. exact Ex.
    - destruct (pick isTimeout ts) as [[t' rest']|]; [|discriminate].
      intros [= <- <-]. eapply IH; reflexivity. }
  destruct t as [| |d]; try discriminate Ht.
  apply (picked_live (Rejected NotAnError) (WrongGuessTimeout d) rest w P H Hm L).
Qed.

Lemma handle_live e w :
  Inv w -> isMounted (refs w) = true -> offers (vars w) e = true -> e <> Unmount ->
  Live w -> Live (exec (handle e (vars w)) w).
Proof.
  intros H Hm Ho He L. destruct e as [| |rawValue|style|id|p s| | |]; cbn [handle].
  - apply startNewGame_live; [exact Hm | apply offers_start, Ho].
  - apply handleResetGame_live.
  - apply handleInput_live, L.
  - exact L.
  - apply tick_live, L.
  - apply settle_live; assumption.
  - apply microtask_live; assumption.
  - apply timeout_live; assumption.
  - congruence.
Qed.

Lemma step_live e w :
  Inv w -> offers (vars w) e = true -> Live w -> Live (step e w).
Proof.
  intros H Ho L. destruct (isMounted (refs w)) eqn:Hm.
  - destruct (Event_eq_Unmount e) as [->|He].
    + intros Hm'. exfalso. unfold step in Hm'. rewrite Hm in Hm'.
      unfold unmount, cleanupTimer in Hm'. revert Hm'. run_m. break; discriminate.
    + assert (R : step e w = render 2 (vars w) (exec (handle e (vars w)) w)).
      { unfold step. rewrite Hm. destruct e; congruence. }
      rewrite R. apply render_live, handle_live; assumption.
  - intros Hm'. rewrite (frozen_refs _ _ (step_unmounted e w Hm)) in Hm'. congruence.
Qed.

Lemma run_live es : forall w,
  Inv w -> offeredAll es w = true -> Live w -> Live (run es w).
Proof.
  induction es as [|e es IH]; intros w H Ho L; [exact L|].
  cbn [offeredAll] in Ho. apply andb_true_iff in Ho as [Ho1 Ho2].
  apply (IH (step e w)); [apply step_inv, H | exact Ho2 | apply step_live; assumption].
Qed.

Lemma awaitedRounds_In r ts :
  In r (awaitedRounds ts) -> exists a, In (AwaitGameData r a) ts.
Proof.
  induction ts as [|t ts IH]; [intros []|].
  destruct t as [roundId a|q|d]; cbn [awaitedRounds].
  - intros [<-|H]; [exists a; left; reflexivity|].
    destruct (IH H) as (a' & Ha). exists a'. right. exact Ha.
  - intros H. destruct (IH H) as (a' & Ha). exists a'. right. exact Ha.
  - intros H. destruct (IH H) as (a' & Ha). exists a'. right. exact Ha.
Qed.

(** X21. While the status is [LOADING] the page renders no button
    bound to [startNewGame].  So in every world reached through events
    that the rendered page offers, a round that is loading on a mounted
    component is awaited: a suspended call of [startNewGame] carries the
    current round number, and resuming it, with the content or with a
    failure, ends the loading. *)
Theorem a_loading_round_is_awaited :
  forall es : list Event,
    let w := run es initial in
    (forall c : Vars, gameStatus c = LOADING -> offers c ClickStart = false)
    /\ (offeredAll es initial = true ->
        isMounted (refs w) = true ->
        gameStatus (vars w) = LOADING ->
        exists promiseToAwait : Awaited,
          In (AwaitGameData (roundIdRef (refs w)) promiseToAwait) (pending w)
          /\ forall s : Settled,
               gameStatus
                 (vars (exec (resume s (AwaitGameData (roundIdRef (refs w)) promiseToAwait)) w))
               <> LOADING).
Proof.
  intros es w. split.
  - intros c Hc. destruct (offers c ClickStart) eqn:E; [|reflexivity].
    apply offers_start in E. contradiction.
  - intros Ho Hm Hs.
    assert (L : Live w).
    { apply run_live; [apply initial_inv | exact Ho | intros _ H; discriminate H]. }
    destruct (awaitedRounds_In _ _ (L Hm Hs)) as (a & Ha).
    exists a. split; [exact Ha|].
    intros s. destruct s; [rewrite resume_fulfilled_current by exact Hm
                          |rewrite resume_rejected_current by exact Hm]; cbn; discriminate.
Qed.

Lemma a_loading_round_is_awaited_witness :
  offeredAll [ClickStart] initial = true
  /\ isMounted (refs (run [ClickStart] initial)) = true
  /\ gameStatus (vars (run [ClickStart] initial)) = LOADING
  /\ exists promiseToAwait : Awaited,
       In (AwaitGameData (roundIdRef (refs (run [ClickStart] initial))) promiseToAwait)
          (pending (run [ClickStart] initial)).
Proof.
  assert (Ho : offeredAll [ClickStart] initial = true) by (vm_compute; reflexivity).
  assert (Hm : isMounted (refs (run [ClickStart] initial)) = true) by (vm_compute; reflexivity).
  assert (Hs : gameStatus (vars (run [ClickStart] initial)) = LOADING)
    by (vm_compute; reflexivity).
  pose proof (a_loading_round_is_awaited [ClickStart]) as H. cbv zeta in H.
  destruct H as (_ & H). destruct (H Ho Hm Hs) as (a & Ha & _).
  split; [exact Ho|]. split; [exact Hm|]. split; [exact Hs|]. exists a. exact Ha.
Defined.

(** ** The prefetch slot and the style *)

Lemma SameSlot_Slot w w' : SameSlot w w' -> Slot w -> Slot w'.
Proof.
  intros [R S H D Y] [A B]. constructor.
  - intros p Hp. rewrite H in Hp. rewrite R, Y. auto.
  - intros data Hd. rewrite D in Hd. rewrite H, S. auto.
Qed.

Lemma SameSlot_trans a b c : SameSlot a b -> SameSlot b c -> SameSlot a c.
Proof. intros [R S H D Y] [R' S' H' D' Y']. constructor; congruence. Qed.

Ltac sameslot_tac :=
  unfold_callbacks; unfold stale; run_m;
  match goal with w : World |- _ => destruct w as [? [? ? ? ?] ? ? ? ? ? ?] end;
  cbn; break; constructor; reflexivity.

Lemma timerEffect_sameslot prev cur w : SameSlot w (exec (timerEffect prev cur) w).
Proof. sameslot_tac. Qed.

Lemma guessEffect_sameslot prev cur w : SameSlot w (exec (guessEffect prev cur) w).
Proof. sameslot_tac. Qed.

Lemma handleResetGame_sameslot w : SameSlot w (exec handleResetGame w).
Proof. sameslot_tac. Qed.

Lemma handleInput_sameslot c rawValue w : SameSlot w (exec (handleInput c rawValue) w).
Proof. sameslot_tac. Qed.

Lemma tick_sameslot id w : SameSlot w (exec (tick id) w).
Proof. unfold tick, exec. destruct (existsb _ _); constructor; reflexivity. Qed.

Lemma unmount_sameslot w : SameSlot w (exec unmount w).
Proof. unfold unmount. sameslot_tac. Qed.

Lemma nth_error_snoc {A} (l : list A) (x : A) : nth_error (l ++ [x]) (List.length l) = Some x.
Proof. rewrite nth_error_app2 by lia. rewrite Nat.sub_diag. reflexivity. Qed.

Lemma nth_error_keep {A} (l : list A) (x y : A) p :
  nth_error l p = Some y -> nth_error (l ++ [x]) p = Some y.
Proof.
  intros H. rewrite nth_error_app1; [exact H|]. apply nth_error_Some. congruence.
Qed.

Lemma styleEffect_slot prev w :
  SlotDue prev w -> Slot (exec (styleEffect prev (vars w)) w).
Proof.
  intros H. unfold styleEffect.
  destruct (String.eqb_spec (imageStyle prev) (imageStyle (vars w))) as [E|E].
  - exact (H E).
  - clear H. unfold invalidatePrefetch. run_m.
    destruct w as [v [g i t m] p s iv tr q n]; cbn.
    destruct (isSome (prefetchedGameData v) || isSome g) eqn:C; cbn.
    + constructor; cbn; intros; discriminate.
    + apply orb_false_iff in C as [C1 C2].
      destruct (prefetchedGameData v) eqn:Ev; [discriminate C1|].
      destruct g; [discriminate C2|].
      constructor; cbn; intros; congruence.
Qed.

Lemma prefetchEffect_slot_kept prev cur w :
  imageStyle cur = imageStyle (vars w) -> Slot w -> Slot (exec (prefetchEffect prev cur) w).
Proof.
  intros Y [A B]. unfold prefetchEffect, prefetchNextRound, getNewGameData. run_m.
  destruct w as [v [g i t m] p s iv tr q n]; cbn in *.
  break; try (constructor; assumption).
  all: constructor; cbn.
  all: try (intros p0 [= <-]; eexists; split; [apply nth_error_snoc | cbn; exact Y]).
  all: intros data Hd; destruct (B data Hd) as (p0 & Hp & _).
  all: match goal with H : isSome _ = false |- _ => rewrite Hp in H; discriminate H end.
Qed.

Lemma effects_slot prev w : SlotDue prev w -> Slot (exec (effects prev (vars w)) w).
Proof.
  intros H. unfold effects. rewrite !exec_seq.
  pose proof (styleEffect_slot prev w H) as S1.
  set (w1 := exec (styleEffect prev (vars w)) w) in *.
  assert (Y1 : imageStyle (vars w1) = imageStyle (vars w)).
  { subst w1. unfold styleEffect, invalidatePrefetch. run_m. break; reflexivity. }
  pose proof (timerEffect_sameslot prev (vars w) w1) as T.
  set (w2 := exec (timerEffect prev (vars w)) w1) in *.
  pose proof (guessEffect_sameslot prev (vars w) w2) as G.
  set (w3 := exec (guessEffect prev (vars w)) w2) in *.
  pose proof (SameSlot_trans _ _ _ T G) as TG.
  apply prefetchEffect_slot_kept.
  - rewrite (ss_style _ _ TG). symmetry. exact Y1.
  - exact (SameSlot_Slot _ _ TG S1).
Qed.

Lemma effects_style prev cur w :
  imageStyle (vars (exec (effects prev cur) w)) = imageStyle (vars w).
Proof.
  unfold effects. rewrite !exec_seq, (proj1 (prefetchEffect_vars _ _ _)).
  rewrite (ss_style _ _ (guessEffect_sameslot _ _ _)),
    (ss_style _ _ (timerEffect_sameslot _ _ _)).
  unfold styleEffect, invalidatePrefetch. run_m. break; reflexivity.
Qed.

Lemma render_slot n prev w : SlotDue prev w -> Slot (render (S n) prev w).
Proof.
  revert prev w; induction n as [|n IH]; intros prev w H.
  - simpl. apply effects_slot, H.
  - change (Slot (render (S n) (vars w) (exec (effects prev (vars w)) w))).
    apply IH. intros _. apply effects_slot, H.
Qed.

Lemma startNewGame_slot w : Slot w -> Slot (exec (startNewGame (vars w)) w).
Proof.
  intros [A B]. unfold_callbacks. unfold stale, getNewGameData. run_m.
  destruct w as [v [g i t m] p s iv tr q n]; cbn in *.
  break; constructor; cbn; try assumption.
  all: try (intros; discriminate).
  all: try (intros data Hd; destruct (B data Hd) as (p0 & Hp & _); congruence).
  all: try (intros p0 Hp; destruct (A p0 Hp) as (r & Hr & Hy); exists r; split;
            [apply nth_error_keep; exact Hr | exact Hy]).
Qed.

Lemma setImageStyle_slot style w : Slot w -> SlotDue (vars w) (exec (setImageStyle style) w).
Proof.
  intros [A B] Y. run_m. destruct w as [v [g i t m] p s iv tr q n]; cbn in *.
  constructor; cbn.
  - intros p0 Hp. destruct (A p0 Hp) as (r & Hr & Hy). exists r. split; congruence.
  - exact B.
Qed.

Lemma resume_settled s t w : settled (exec (resume s t) w) = settled w.
Proof.
  destruct t as [roundId a|promise|n], s as [data|e]; cbn -[stale].
  all: unfold_callbacks; unfold stale; run_m; break; reflexivity.
Qed.

Lemma resume_slot s t w :
  (forall q, t = PrefetchReaction q -> outcome q (settled w) = Some s) ->
  Slot w -> Slot (exec (resume s t) w).
Proof.
  intros Hq [A B].
  destruct t as [roundId a|promise|n], s as [data|e]; cbn -[stale].
  all: try specialize (Hq _ eq_refl).
  all: unfold_callbacks; unfold stale; run_m.
  all: destruct w as [v [g i0 t0 m] p0' s0 iv tr q0 n0]; cbn in *.
  all: break; constructor; cbn; try assumption.
  all: try (intros; discriminate).
  - intros d Hd. injection Hd as <-.
    apply andb_true_iff in Heqb as [_ Hg].
    destruct g as [p1|]; [|discriminate Hg].
    apply Nat.eqb_eq in Hg. subst p1.
    exists promise. split; [reflexivity | exact Hq].
  - intros d Hd. destruct (B d Hd) as (p1 & Hp & Ho). subst g.
    apply andb_true_iff in Heqb as [_ Hg].
    apply Nat.eqb_eq in Hg. subst p1. congruence.
Qed.

Lemma resumeAll_slot s ts w :
  (forall q, In (PrefetchReaction q) ts -> outcome q (settled w) = Some s) ->
  Slot w -> Slot (exec (resumeAll s ts) w).
Proof.
  revert w; induction ts as [|t rest IH]; intros w Hq S0.
  - exact S0.
  - cbn [resumeAll]. rewrite exec_seq. apply IH.
    + intros q Hin. rewrite resume_settled. apply Hq. right; exact Hin.
    + apply resume_slot; [|exact S0]. intros q ->. apply Hq. left; reflexivity.
Qed.

Lemma outcome_snoc p s q l :
  outcome q (l ++ [(p, s)]) =
  match outcome q l with
  | Some x => Some x
  | None => if Nat.eqb p q then Some s else None
  end.
Proof.
  induction l as [|[p' s'] l IH]; cbn.
  - reflexivity.
  - destruct (Nat.eqb p' q); [reflexivity | exact IH].
Qed.

Lemma reactions_awaits p s ts t : In t (reactions p s ts) -> awaits p t = true.
Proof.
  unfold reactions. destruct s; intros H.
  - apply filter_In in H. tauto.
  - apply in_app_iff in H. destruct H as [H|H]; apply filter_In in H;
      destruct H as [H _]; apply filter_In in H; tauto.
Qed.

Lemma settle_slot p s w : Slot w -> Slot (exec (settle p s) w).
Proof.
  intros S0. unfold settle, exec.
  destruct (issued p w && negb (isSome (outcome p (settled w)))) eqn:G; [|exact S0].
  apply andb_true_iff in G as [_ G].
  destruct (outcome p (settled w)) eqn:O; [discriminate G|]. clear G.
  change (Slot (exec (recordSettled p s ;; onPending (List.filter (fun t => negb (awaits p t))) ;;
                      resumeAll s (reactions p s (pending w))) w)).
  rewrite !exec_seq.
  set (w0 := exec (onPending _) (exec (recordSettled p s) w)).
  assert (E : settled w0 = (settled w ++ [(p, s)])%list) by reflexivity.
  apply resumeAll_slot.
  - intros q Hin. apply reactions_awaits in Hin. cbn in Hin.
    apply Nat.eqb_eq in Hin. subst q.
    rewrite E, outcome_snoc, O, Nat.eqb_refl. reflexivity.
  - destruct S0 as [A B]. constructor.
    + exact A.
    + intros data Hd. destruct (B data Hd) as (p0 & Hp & Ho).
      exists p0. split; [exact Hp|]. rewrite E, outcome_snoc.
      change (settled w) with (settled w) in Ho. rewrite Ho. reflexivity.
Qed.

Lemma microtask_slot w : Slot w -> Slot (exec microtask w).
Proof.
  intros S0. unfold microtask, exec.
  destruct (pick _ (pending w)) as [[t rest]|] eqn:P; [|exact S0].
  destruct (available (settled w) t) as [s|] eqn:Av; [|exact S0].
  change (Slot (exec (onPending (fun _ => rest) ;; resume s t) w)).
  rewrite exec_seq. apply resume_slot.
  - intros q ->. discriminate Av.
  - destruct S0 as [A B]. constructor; assumption.
Qed.

Lemma timeout_slot w : Slot w -> Slot (exec timeout w).
Proof.
  intros S0. unfold timeout, exec.
  destruct (pick isTimeout (pending w)) as [[t rest]|]; [|exact S0].
  change (Slot (exec (onPending (fun _ => rest) ;; wrongGuessTimeout) w)).
  rewrite exec_seq. eapply SameSlot_Slot; [|exact S0].
  unfold wrongGuessTimeout. sameslot_tac.
Qed.

Lemma handle_slot e w : Slot w -> SlotDue (vars w) (exec (handle e (vars w)) w).
Proof.
  intros S0. destruct e as [| |rawValue|style|id|p s| | |]; cbn [handle].
  - intros _. apply startNewGame_slot, S0.
  - intros _. exact (SameSlot_Slot _ _ (handleResetGame_sameslot w) S0).
  - intros _. exact (SameSlot_Slot _ _ (handleInput_sameslot _ _ w) S0).
  - apply setImageStyle_slot, S0.
  - intros _. exact (SameSlot_Slot _ _ (tick_sameslot _ w) S0).
  - intros _. apply settle_slot, S0.
  - intros _. apply microtask_slot, S0.
  - intros _. apply timeout_slot, S0.
  - intros _. exact (SameSlot_Slot _ _ (unmount_sameslot w) S0).
Qed.

Lemma handle_style e w :
  fromPage e = false ->
  imageStyle (vars (exec (handle e (vars w)) w)) = imageStyle (vars w).
Proof.
  destruct e as [| |rawValue|style|id|p s| | |]; cbn [fromPage handle]; try discriminate; intros _.
  - unfold settle, exec. destruct (_ && _); [|reflexivity].
    change (imageStyle (vars (exec (recordSettled p s ;; onPending (List.filter (fun t => negb (awaits p t))) ;;
                      resumeAll s (reactions p s (pending w))) w)) = imageStyle (vars w)).
    rewrite !exec_seq.
    set (w0 := exec (onPending _) (exec (recordSettled p s) w)).
    change (imageStyle (vars w)) with (imageStyle (vars w0)).
    generalize (reactions p s (pending w)). clearbody w0. intros ts.
    revert w0; induction ts as [|t rest IH]; intros w0; [reflexivity|].
    cbn [resumeAll]. rewrite exec_seq, IH.
    destruct t as [roundId a|promise|n], s as [data|e]; cbn -[stale].
    all: unfold_callbacks; unfold stale; run_m; break; reflexivity.
  - unfold microtask, exec.
    destruct (pick _ (pending w)) as [[t rest]|]; [|reflexivity].
    destruct (available (settled w) t) as [s|]; [|reflexivity].
    change (imageStyle (vars (exec (onPending (fun _ => rest) ;; resume s t) w)) = imageStyle (vars w)).
    rewrite exec_seq.
    destruct t as [roundId a|promise|n], s as [data|e]; cbn -[stale].
    all: unfold_callbacks; unfold stale; run_m; break; reflexivity.
  - unfold timeout, exec.
    destruct (pick isTimeout (pending w)) as [[t rest]|]; [|reflexivity].
    change (imageStyle (vars (exec (onPending (fun _ => rest) ;; wrongGuessTimeout) w)) = imageStyle (vars w)).
    rewrite exec_seq. unfold wrongGuessTimeout. unfold_callbacks. run_m. break; reflexivity.
Qed.

Lemma step_slot e w : Slot w -> Slot (step e w).
Proof.
  intros S0. unfold step. destruct (isMounted (refs w)).
  - destruct e as [| |rawValue|style|id|p s| | |].
    9: exact (SameSlot_Slot _ _ (unmount_sameslot w) S0).
    all: apply render_slot, handle_slot, S0.
  - destruct (fromPage e) eqn:F; [exact S0|].
    apply (handle_slot e w S0). symmetry. apply handle_style, F.
Qed.

Lemma initial_slot : Slot initial.
Proof. constructor; cbn; intros; discriminate. Qed.

Lemma reachable_slot es : Slot (run es initial).
Proof.
  unfold run. rewrite <- fold_left_rev_right.
  induction (rev es) as [|e l IH]; cbn.
  - exact initial_slot.
  - apply step_slot, IH.
Qed.

(** X22. In every reachable world what the prefetch slot holds belongs
    to the style selected now: a handle in [nextGamePromiseRef] names a
    call of [getNewGameData] made with that style, and content in
    [prefetchedGameData] is what the provider answered to the call whose
    handle is still in the slot. *)
Theorem the_prefetch_slot_is_for_the_selected_style :
  forall es : list Event,
    let w := run es initial in
    (forall p : nat,
        nextGamePromiseRef (refs w) = Some p ->
        exists r : Request,
          nth_error (requests w) p = Some r /\ style r = imageStyle (vars w))
    /\ (forall data : GameData.t,
           prefetchedGameData (vars w) = Some data ->
           exists (p : nat) (r : Request),
             nextGamePromiseRef (refs w) = Some p
             /\ outcome p (settled w) = Some (Fulfilled data)
             /\ nth_error (requests w) p = Some r
             /\ style r = imageStyle (vars w)).
Proof.
  intros es w. destruct (reachable_slot es) as [A B]. fold w in A, B.
  split; [exact A|].
  intros data Hd. destruct (B data Hd) as (p & Hp & Ho).
  destruct (A p Hp) as (r & Hr & Hy).
  exists p, r. repeat split; assumption.
Qed.

Lemma the_prefetch_slot_is_for_the_selected_style_witness :
  prefetchedGameData (vars (run upPrefetched initial)) = Some dieHard
  /\ exists (p : nat) (r : Request),
       nextGamePromiseRef (refs (run upPrefetched initial)) = Some p
       /\ outcome p (settled (run upPrefetched initial)) = Some (Fulfilled dieHard)
       /\ nth_error (requests (run upPrefetched initial)) p = Some r
       /\ style r = imageStyle (vars (run upPrefetched initial)).
Proof.
  assert (Hd : prefetchedGameData (vars (run upPrefetched initial)) = Some dieHard)
    by (vm_compute; reflexivity).
  pose proof (the_prefetch_slot_is_for_the_selected_style upPrefetched) as H.
  cbv zeta in H. destruct H as (_ & H).
  split; [exact Hd | exact (H dieHard Hd)].
Defined.
